(** * A DAX-like formula evaluator over an in-memory column store

    Shallow embedding of the crate [dax_rust]:
    - [src/types.rs]: the [Value] enum with its custom [PartialEq] and [Hash];
    - [dax-macro-impl/src/lib.rs]: the runtime [tokenize] function and [DaxToken];
    - [src/table.rs]: [Table], its aggregate operations, [evaluate_dax],
      [divide], [evaluate_divide] and [Display for Table];
    - [src/main.rs]: [eval_dax];
    - [src/io.rs]: [read_csv] and [parse_value];
    - [dax-macro/src/lib.rs]: the [table!] macro.

    Conventions of the model:
    - an [f64] is a Rocq primitive binary64 [float]; its IEEE operations
      ([==], [+], [/], [partial_cmp]) are the kernel's primitive ones;
    - a Rust [char] is its Unicode code point, an [N]; a [String] / [&str] is
      the list of its chars;
    - a [HashMap<String, _>] is an stdpp [gmap];
    - an [i32] is a [Z] with its two's-complement wrap-around written out
      (the behaviour of a release build; a debug build panics instead). *)

From Stdlib Require Import ZArith List String Ascii Bool Lia Permutation.
From Stdlib Require Import PrimFloat SpecFloat FloatOps FloatAxioms.
From stdpp Require Import base gmap.

Import ListNotations.
Open Scope Z_scope.

(** ** Strings as lists of code points *)

Definition rchar := N.
Definition rstring := list N.

(** A Rust string literal, from an ASCII Rocq string. *)
Fixpoint lit (s : string) : rstring :=
  match s with
  | EmptyString => []
  | String a s' => N_of_ascii a :: lit s'
  end.

Fixpoint rstring_eqb (a b : rstring) : bool :=
  match a, b with
  | [], [] => true
  | x :: a', y :: b' => N.eqb x y && rstring_eqb a' b'
  | _, _ => false
  end.

(** ** [src/types.rs]: [Value] *)

Module Value.
Inductive t :=
| Number (n : float)
| Text (s : rstring)
| Boolean (b : bool)
| Null.
End Value.

(** [f64::is_sign_positive]: the sign bit is clear. *)
Definition is_sign_positive (n : float) : bool := negb (get_sign n).

(** [impl PartialEq for Value]. *)
Definition value_eq (self other : Value.t) : bool :=
  match self, other with
  | Value.Number a, Value.Number b =>
      if is_nan a && is_nan b then true (* Consider all NaN values equal *)
      else PrimFloat.eqb a b
  | Value.Text a, Value.Text b => rstring_eqb a b
  | Value.Boolean a, Value.Boolean b => Bool.eqb a b
  | Value.Null, Value.Null => true
  | _, _ => false
  end.

(** [f64::to_bits]: the IEEE 754 binary64 encoding (sign bit 63, biased
    exponent bits 52..62, fraction bits 0..51).  The payload of a NaN is not
    observable on primitive floats; a NaN is given the canonical quiet
    encoding (the hash below never asks for the bits of a NaN). *)
Definition f64_to_bits (n : float) : Z :=
  let sign (s : bool) := if s then 2 ^ 63 else 0 in
  match Prim2SF n with
  | S754_zero s => sign s
  | S754_infinity s => sign s + 2047 * 2 ^ 52
  | S754_nan => 2047 * 2 ^ 52 + 2 ^ 51
  | S754_finite s m e =>
      let m := Zpos m in
      if m <? 2 ^ 52 then sign s + m                          (* subnormal *)
      else sign s + (e + 1075) * 2 ^ 52 + (m - 2 ^ 52)        (* normal *)
  end.

(** The calls a [Hash] implementation makes on its [Hasher]. *)
Inductive HashWrite :=
| WriteU8 (b : Z)
| WriteU64 (w : Z)
| WriteStr (s : rstring).

(** [impl Hash for Value]: the sequence of writes fed to the hasher.
    [String::hash] is [state.write_str(s)]; [bool::hash] is
    [state.write_u8(b as u8)]. *)
Definition value_hash (v : Value.t) : list HashWrite :=
  match v with
  | Value.Number n =>
      if is_nan n then [WriteU8 0]
      else if is_infinity n then
        (if is_sign_positive n then [WriteU8 1] else [WriteU8 2])
      else [WriteU64 (f64_to_bits n)]
  | Value.Text s => [WriteStr s]
  | Value.Boolean b => [WriteU8 (if b then 1 else 0)]
  | Value.Null => [WriteU8 3]
  end.

(** A hasher, as seen from [Hash]: its [finish()] after a sequence of writes
    (for [HashMap]/[HashSet], the keyed SipHash of its [RandomState]). *)
Definition Hasher := list HashWrite -> Z.

Definition hash_value (h : Hasher) (v : Value.t) : Z := h (value_hash v).

(** ** [dax-macro-impl/src/lib.rs]: the runtime tokenizer *)

Module DaxToken.
Inductive t :=
| Function (name : rstring)
| Number (n : float)
| Operator (c : rchar)
| Column (name : rstring)
| Comma
| ParenOpen
| ParenClose
| Whitespace.
End DaxToken.

(** [char::is_digit(10)]: the ASCII digits. *)
Definition is_digit10 (c : rchar) : bool := (48 <=? c)%N && (c <=? 57)%N.

(** The pattern ['A'..='Z' | 'a'..='z']. *)
Definition is_ascii_letter (c : rchar) : bool :=
  ((65 <=? c)%N && (c <=? 90)%N) || ((97 <=? c)%N && (c <=? 122)%N).

(** Decimal digits to their value. *)
Fixpoint digits_value (acc : Z) (ds : rstring) : Z :=
  match ds with
  | [] => acc
  | d :: ds' => digits_value (10 * acc + Z.of_N (d - 48)) ds'
  end.

(** The binary64 value nearest to [m / 10 ^ k] (ties to even), overflowing to
    infinity: a correctly rounded decimal-to-binary conversion. *)
Definition decimal_to_f64 (m : Z) (k : nat) : float :=
  match m with
  | Zpos p =>
      SF2Prim (SFdiv prec emax (S754_finite false p 0)
                 (S754_finite false (Z.to_pos (10 ^ Z.of_nat k)) 0))
  | _ => zero
  end.

(** [chars.peek()] / [chars.next()] loop accumulating while [p] holds: the
    accumulated prefix and the characters left in the iterator. *)
Fixpoint take_while (p : rchar -> bool) (cs : rstring) : rstring * rstring :=
  match cs with
  | [] => ([], [])
  | c :: cs' =>
      if p c then let (a, b) := take_while p cs' in (c :: a, b)
      else ([], cs)
  end.

(** [<str>::parse::<f64>()] on the strings the tokenizer hands it, which are
    made of ASCII digits and ['.'] only: such a string parses iff it holds at
    least one digit and at most one ['.'], to the correctly rounded value of
    the decimal.  (The other forms [f64::from_str] accepts, with a sign, an
    exponent, ["inf"] or ["NaN"], never reach it from [tokenize].) *)
Definition parse_f64 (s : rstring) : option float :=
  if forallb (fun c => is_digit10 c || (c =? 46)%N) s then
    let (ip, rest) := take_while (fun c => negb (c =? 46)%N) s in
    let fp := List.filter is_digit10 rest in
    if Nat.ltb 1 (List.count_occ N.eq_dec s 46%N) then None
    else if (List.length ip + List.length fp =? 0)%nat then None
    else Some (decimal_to_f64 (digits_value 0 (ip ++ fp)) (List.length fp))
  else None.

(** [d.is_digit(10) || d == '.']: the chars the number rule accumulates. *)
Definition digit_or_dot (d : rchar) : bool := is_digit10 d || (d =? 46)%N.

Section Tokenizer.

(** Unicode's Alphabetic property on the non-ASCII code points. *)
Variable unicode_alphabetic : rchar -> bool.

(** [char::is_alphabetic]: ASCII letters, or a non-ASCII alphabetic char. *)
Definition is_alphabetic (c : rchar) : bool :=
  if (c <? 128)%N then is_ascii_letter c else unicode_alphabetic c.

(** The [while let Some(&c) = chars.peek()] loop of [tokenize]; [fuel]
    bounds the iterations (every iteration consumes a char, so the length
    of the input plus one is enough, see [tokenize]). *)
Fixpoint tokenize_go (fuel : nat) (cs : rstring) : list DaxToken.t :=
  match fuel with
  | O => []
  | S fuel' =>
    match cs with
    | [] => []
    | c :: rest =>
      if is_digit10 c then
        let (num, cs') := take_while digit_or_dot cs in
        match parse_f64 num with
        | Some n => DaxToken.Number n :: tokenize_go fuel' cs'
        | None => tokenize_go fuel' cs'
        end
      else if (c =? 91)%N then                                     (* '[' *)
        let (column, cs') := take_while (fun c => negb (c =? 93)%N) rest in
        (* the closing ']', when present, is consumed too *)
        DaxToken.Column column :: tokenize_go fuel' (List.tl cs')
      else if (c =? 40)%N then DaxToken.ParenOpen :: tokenize_go fuel' rest
      else if (c =? 41)%N then DaxToken.ParenClose :: tokenize_go fuel' rest
      else if (c =? 44)%N then DaxToken.Comma :: tokenize_go fuel' rest
      else if (c =? 43)%N || (c =? 45)%N || (c =? 42)%N || (c =? 47)%N then
        DaxToken.Operator c :: tokenize_go fuel' rest
      else if (c =? 32)%N || (c =? 9)%N || (c =? 10)%N || (c =? 13)%N then
        DaxToken.Whitespace :: tokenize_go fuel' rest
      else if is_ascii_letter c then
        let (function, cs') := take_while is_alphabetic cs in
        DaxToken.Function function :: tokenize_go fuel' cs'
      else tokenize_go fuel' rest
    end
  end.

(** [pub fn tokenize(input: &str) -> Vec<DaxToken>]. *)
Definition tokenize (input : rstring) : list DaxToken.t :=
  tokenize_go (S (List.length input)) input.

End Tokenizer.

(** An instance of [unicode_alphabetic] that marks no non-ASCII char
    alphabetic: [is_alphabetic] then agrees with Rust's on ASCII inputs. *)
Definition no_unicode_alphabetic (c : rchar) : bool := false.

(** ** [src/table.rs]: the table and its aggregate operations *)

(** [pub struct Table { columns: HashMap<String, Vec<Value>> }]. *)
Record Table := { columns : gmap rstring (list Value.t) }.

Definition Table_new : Table := {| columns := ∅ |}.

Definition get_column (self : Table) (name : rstring) : option (list Value.t) :=
  columns self !! name.

Definition add_column (self : Table) (name : rstring) (values : list Value.t) : Table :=
  {| columns := <[name := values]> (columns self) |}.

(** [i32] arithmetic: the two's-complement wrap-around of a release build. *)
Definition wrap_i32 (z : Z) : Z := (z + 2 ^ 31) mod 2 ^ 32 - 2 ^ 31.

(** [x as f64] for an integer [x]: rounding to nearest, ties to even. *)
Definition int_as_f64 (z : Z) : float :=
  SF2Prim (binary_normalize prec emax z 0 false).

(** [Table::sum]. *)
Definition sum (self : Table) (column_name : rstring) : option float :=
  match get_column self column_name with
  | None => None
  | Some column =>
      Some (fold_left (fun acc value =>
              match value with
              | Value.Number n => (acc + n)%float
              | _ => acc (* Skip non-numeric values *)
              end) column zero)
  end.

(** The [for value in column] loop of [Table::average], on the pair
    [(sum, count)]; [count] is an [i32] (the type Rust infers for
    [let mut count = 0]). *)
Definition average_loop (column : list Value.t) : float * Z :=
  fold_left (fun '(sum, count) value =>
      match value with
      | Value.Number n => ((sum + n)%float, wrap_i32 (count + 1))
      | _ => (sum, count)
      end) column (zero, 0).

(** [Table::average]. *)
Definition average (self : Table) (column_name : rstring) : option float :=
  match get_column self column_name with
  | None => None
  | Some column =>
      let '(sum, count) := average_loop column in
      if 0 <? count then Some (sum / int_as_f64 count)%float
      else Some zero (* Return Some(0.0) for empty or non-numeric columns *)
  end.

(** [Table::count]. *)
Definition count (self : Table) (column_name : rstring) : option nat :=
  option_map (@List.length _) (get_column self column_name).

(** [std::collections::HashSet<&Value>] is hashbrown's [RawTable], modelled
    here for its SSE2 build (x86-64): control bytes are read in groups of
    [WIDTH = 16].  A control byte is [EMPTY] ([0xff]), [DELETED] ([0x80]) or,
    for a full bucket, the 7-bit tag [h2] of the stored value's hash.  The
    first [WIDTH] control bytes are mirrored after the last bucket, so that a
    group read near the end wraps around.  [HashSet::len] is [items]. *)
Definition WIDTH : nat := 16.
Definition EMPTY : Z := 255.
Definition DELETED : Z := 128.

(** The table: [bucket_mask + 1] buckets (a power of two; the empty singleton
    has no storage), the control bytes, the buckets' contents, the
    number of inserts left before a resize, and the number of items. *)
Record RawTable := {
  bucket_mask : nat;
  ctrl : list Z;
  slots : list (option Value.t);
  growth_left : nat;
  items : nat }.

Definition buckets (t : RawTable) : nat := S (bucket_mask t).

(** [RawTableInner::NEW]: no buckets, a single group of [EMPTY] bytes. *)
Definition raw_new : RawTable :=
  {| bucket_mask := 0; ctrl := repeat EMPTY WIDTH; slots := []; growth_left := 0; items := 0 |}.

(** [make_hash]: the set's [BuildHasher] over [Value]'s [Hash], as a [u64]. *)
Definition make_hash (h : Hasher) (v : Value.t) : Z := Z.land (hash_value h v) (2 ^ 64 - 1).

(** [h2]: the top 7 bits of the hash, the tag kept in the control byte. *)
Definition h2 (hash : Z) : Z := Z.land (Z.shiftr hash 57) 127.

(** [is_full] and [special_is_empty] on a control byte. *)
Definition is_full (c : Z) : bool := negb (Z.testbit c 7).

Definition special_is_empty (c : Z) : bool := Z.testbit c 0.

(** [Group::load] at [pos], and the bit masks of a group: the positions
    whose byte is [b] ([match_byte], [_mm_cmpeq_epi8]), [EMPTY]
    ([match_empty]) or has its top bit set ([match_empty_or_deleted],
    [_mm_movemask_epi8]), in increasing order as [BitMask] iterates them. *)
Definition group_load (t : RawTable) (pos : nat) : list Z := firstn WIDTH (skipn pos (ctrl t)).

Fixpoint bits_from (p : Z -> bool) (i : nat) (g : list Z) : list nat :=
  match g with
  | [] => []
  | c :: g' => if p c then i :: bits_from p (S i) g' else bits_from p (S i) g'
  end.

Definition match_byte (g : list Z) (b : Z) : list nat := bits_from (fun c => c =? b) 0 g.
Definition match_empty (g : list Z) : list nat := match_byte g EMPTY.
Definition match_empty_or_deleted (g : list Z) : list nat := bits_from (fun c => Z.testbit c 7) 0 g.

(** [probe_seq]: triangular probing by whole groups from [hash & bucket_mask]. *)
Definition probe_start (t : RawTable) (hash : Z) : nat :=
  Z.to_nat (Z.land hash (Z.of_nat (bucket_mask t))).

Definition move_next (mask pos stride : nat) : nat * nat :=
  (Nat.land (pos + (stride + WIDTH)) mask, (stride + WIDTH)%nat).

(** [find_insert_slot_in_group]: the first [EMPTY] or [DELETED] byte of a group. *)
Definition find_insert_slot_in_group (t : RawTable) (group : list Z) (pos : nat) : option nat :=
  match match_empty_or_deleted group with
  | bit :: _ => Some (Nat.land (pos + bit) (bucket_mask t))
  | [] => None
  end.

(** [fix_insert_slot]: in a table smaller than a group, a slot found in the
    mirrored tail may be a full bucket; the first group is rescanned. *)
Definition fix_insert_slot (t : RawTable) (index : nat) : nat :=
  if is_full (nth index (ctrl t) EMPTY) then
    match match_empty_or_deleted (firstn WIDTH (ctrl t)) with bit :: _ => bit | [] => 0%nat end
  else index.

(** The [eq] closure of [HashSet::insert]: [Value]'s [PartialEq] against the
    stored value.  It is called on every bucket whose tag matches [h2 hash]. *)
Definition bucket_eq (t : RawTable) (v : Value.t) (index : nat) : bool :=
  match slots t !! index with Some (Some y) => value_eq v y | _ => false end.

(** [find_or_find_insert_slot_inner]: probe group by group; in each group
    test the buckets whose tag matches, remember the first [EMPTY] or
    [DELETED] slot, and stop at the first group holding an [EMPTY] byte.
    [fuel] bounds the number of groups, [buckets t], which the probe sequence
    never exceeds before it meets an [EMPTY] byte. *)
Fixpoint find_or_find_insert_slot_inner (fuel : nat) (t : RawTable) (v : Value.t) (tag : Z)
    (pos stride : nat) (insert_slot : option nat) : option (nat + nat) :=
  match fuel with
  | O => None
  | S fuel =>
      let group := group_load t pos in
      match List.find (fun bit => bucket_eq t v (Nat.land (pos + bit) (bucket_mask t)))
              (match_byte group tag) with
      | Some bit => Some (inl (Nat.land (pos + bit) (bucket_mask t)))
      | None =>
          let insert_slot :=
            match insert_slot with
            | Some s => Some s
            | None => find_insert_slot_in_group t group pos
            end in
          match match_empty group with
          | _ :: _ =>
              Some (inr (fix_insert_slot t match insert_slot with Some s => s | None => 0%nat end))
          | [] =>
              let '(pos', stride') := move_next (bucket_mask t) pos stride in
              find_or_find_insert_slot_inner fuel t v tag pos' stride' insert_slot
          end
      end
  end.

(** [set_ctrl]: write a control byte and its mirror. *)
Definition set_ctrl (t : RawTable) (index : nat) (c : Z) : list Z :=
  let index2 :=
    (Z.to_nat (Z.land (Z.of_nat index - Z.of_nat WIDTH) (Z.of_nat (bucket_mask t))) + WIDTH)%nat in
  <[index2 := c]> (<[index := c]> (ctrl t)).

Definition set_ctrl_h2 (t : RawTable) (index : nat) (hash : Z) : RawTable :=
  {| bucket_mask := bucket_mask t; ctrl := set_ctrl t index (h2 hash); slots := slots t;
     growth_left := growth_left t; items := items t |}.

(** [insert_in_slot]: record the tag, store the value, and take one from
    [growth_left] when the slot was [EMPTY] (not [DELETED]). *)
Definition insert_in_slot (t : RawTable) (hash : Z) (index : nat) (v : Value.t) : RawTable :=
  let old_ctrl := nth index (ctrl t) EMPTY in
  {| bucket_mask := bucket_mask t;
     ctrl := set_ctrl t index (h2 hash);
     slots := <[index := Some v]> (slots t);
     growth_left := (growth_left t - if special_is_empty old_ctrl then 1 else 0)%nat;
     items := S (items t) |}.

(** [capacity_to_buckets] and [bucket_mask_to_capacity] (load factor 7/8). *)
Definition capacity_to_buckets (cap : nat) : nat :=
  if (cap <? 8)%nat then (if (cap <? 4)%nat then 4%nat else 8%nat)
  else (2 ^ Nat.log2_up (cap * 8 / 7))%nat.

Definition bucket_mask_to_capacity (mask : nat) : nat :=
  if (mask <? 8)%nat then mask else ((mask + 1) / 8 * 7)%nat.

(** [RawTable::with_capacity]. *)
Definition with_capacity (capacity : nat) : RawTable :=
  if (capacity =? 0)%nat then raw_new
  else
    let b := capacity_to_buckets capacity in
    {| bucket_mask := (b - 1)%nat; ctrl := repeat EMPTY (b + WIDTH); slots := repeat None b;
       growth_left := bucket_mask_to_capacity (b - 1); items := 0 |}.

(** [find_insert_slot]: the first [EMPTY] or [DELETED] slot on the probe sequence. *)
Fixpoint find_insert_slot_go (fuel : nat) (t : RawTable) (pos stride : nat) : option nat :=
  match fuel with
  | O => None
  | S fuel =>
      match find_insert_slot_in_group t (group_load t pos) pos with
      | Some index => Some (fix_insert_slot t index)
      | None =>
          let '(pos', stride') := move_next (bucket_mask t) pos stride in
          find_insert_slot_go fuel t pos' stride'
      end
  end.

Definition find_insert_slot (t : RawTable) (hash : Z) : option nat :=
  find_insert_slot_go (buckets t) t (probe_start t hash) 0.

(** [full_buckets_indices] and [resize]: move every item into a fresh table. *)
Definition full_buckets_indices (t : RawTable) : list nat :=
  List.filter (fun i => is_full (nth i (ctrl t) EMPTY)) (seq 0 (buckets t)).

Definition resize (h : Hasher) (t : RawTable) (capacity : nat) : RawTable :=
  let nt := with_capacity capacity in
  let nt := {| bucket_mask := bucket_mask nt; ctrl := ctrl nt; slots := slots nt;
               growth_left := (growth_left nt - items t)%nat; items := items t |} in
  fold_left (fun nt i =>
      match slots t !! i with
      | Some (Some y) =>
          let hash := make_hash h y in
          match find_insert_slot nt hash with
          | Some ni =>
              {| bucket_mask := bucket_mask nt; ctrl := set_ctrl nt ni (h2 hash);
                 slots := <[ni := Some y]> (slots nt);
                 growth_left := growth_left nt; items := items nt |}
          | None => nt
          end
      | _ => nt
      end)
    (full_buckets_indices t) nt.

(** [rehash_in_place]: reached only when enough of the table is [DELETED],
    which an insert-only set never makes; kept for the shape of
    [reserve_rehash]. *)
Definition convert_special_to_empty_and_full_to_deleted (c : Z) : Z :=
  if is_full c then DELETED else EMPTY.

Definition prepare_rehash_in_place (t : RawTable) : RawTable :=
  let b := buckets t in
  let conv := map convert_special_to_empty_and_full_to_deleted (firstn (Nat.max b WIDTH) (ctrl t)) in
  {| bucket_mask := bucket_mask t;
     ctrl := if (b <? WIDTH)%nat then conv ++ firstn b conv else conv ++ firstn WIDTH conv;
     slots := slots t; growth_left := growth_left t; items := items t |}.

Definition is_in_same_group (t : RawTable) (i new_i : nat) (hash : Z) : bool :=
  let probe_seq_pos := probe_start t hash in
  let probe_index (pos : nat) :=
    (Z.to_nat (Z.land (Z.of_nat pos - Z.of_nat probe_seq_pos) (Z.of_nat (bucket_mask t))) / WIDTH)%nat in
  (probe_index i =? probe_index new_i)%nat.

Definition swap_slots (l : list (option Value.t)) (i j : nat) : list (option Value.t) :=
  match l !! i, l !! j with
  | Some a, Some b => <[j := a]> (<[i := b]> l)
  | _, _ => l
  end.

Fixpoint rehash_bucket (fuel : nat) (h : Hasher) (t : RawTable) (i : nat) : RawTable :=
  match fuel with
  | O => t
  | S fuel =>
      match slots t !! i with
      | Some (Some y) =>
          let hash := make_hash h y in
          match find_insert_slot t hash with
          | None => t
          | Some new_i =>
              if is_in_same_group t i new_i hash then set_ctrl_h2 t i hash
              else
                let prev_ctrl := nth new_i (ctrl t) EMPTY in
                let t' := set_ctrl_h2 t new_i hash in
                if prev_ctrl =? EMPTY then
                  {| bucket_mask := bucket_mask t'; ctrl := set_ctrl t' i EMPTY;
                     slots := <[i := None]> (<[new_i := Some y]> (slots t'));
                     growth_left := growth_left t'; items := items t' |}
                else
                  rehash_bucket fuel h
                    {| bucket_mask := bucket_mask t'; ctrl := ctrl t';
                       slots := swap_slots (slots t') i new_i;
                       growth_left := growth_left t'; items := items t' |} i
          end
      | _ => t
      end
  end.

Definition rehash_in_place (h : Hasher) (t : RawTable) : RawTable :=
  let t := prepare_rehash_in_place t in
  let t := fold_left (fun t i =>
             if nth i (ctrl t) EMPTY =? DELETED then rehash_bucket (buckets t) h t i else t)
           (seq 0 (buckets t)) t in
  {| bucket_mask := bucket_mask t; ctrl := ctrl t; slots := slots t;
     growth_left := (bucket_mask_to_capacity (bucket_mask t) - items t)%nat; items := items t |}.

(** [reserve_rehash] and [reserve]. *)
Definition reserve_rehash (h : Hasher) (t : RawTable) (additional : nat) : RawTable :=
  let new_items := (items t + additional)%nat in
  let full_capacity := bucket_mask_to_capacity (bucket_mask t) in
  if (new_items <=? full_capacity / 2)%nat then rehash_in_place h t
  else resize h t (Nat.max new_items (S full_capacity)).

Definition reserve (h : Hasher) (t : RawTable) (additional : nat) : RawTable :=
  if (growth_left t <? additional)%nat then reserve_rehash h t additional else t.

(** [HashSet::insert] ([HashMap::insert] of [(v, ())]): reserve one, then
    look [v] up; if absent, insert it into the slot the probe found. *)
Definition hashset_insert (h : Hasher) (t : RawTable) (v : Value.t) : RawTable :=
  let hash := make_hash h v in
  let t := reserve h t 1 in
  match find_or_find_insert_slot_inner (buckets t) t v (h2 hash) (probe_start t hash) 0 None with
  | Some (inl _) => t
  | Some (inr slot) => insert_in_slot t hash slot v
  | None => t
  end.

(** [column.iter().collect::<HashSet<_>>()]: [HashSet::default] extended by
    the column, which first reserves [size_hint().0] (exact for a slice
    iterator) since the set is empty, then inserts in iteration order. *)
Definition hashset_collect (h : Hasher) (values : list Value.t) : RawTable :=
  let t := raw_new in
  let additional := if (items t =? 0)%nat then length values else ((length values + 1) / 2)%nat in
  fold_left (hashset_insert h) values (reserve h t additional).

(** [Table::distinctcount], for the set's hasher [h]. *)
Definition distinctcount (h : Hasher) (self : Table) (column_name : rstring) : option nat :=
  option_map (fun column => items (hashset_collect h column)) (get_column self column_name).

(** [|a, b| a.partial_cmp(b).unwrap_or(std::cmp::Ordering::Equal)]. *)
Definition cmp_f64 (a b : float) : comparison :=
  match PrimFloat.compare a b with
  | FLt => Lt
  | FGt => Gt
  | FEq | FNotComparable => Eq
  end.

(** [std::cmp::min_by] and [std::cmp::max_by] with [cmp_f64]. *)
Definition min_by_f64 (v1 v2 : float) : float :=
  match cmp_f64 v2 v1 with Lt => v2 | _ => v1 end.
Definition max_by_f64 (v1 v2 : float) : float :=
  match cmp_f64 v2 v1 with Lt => v1 | _ => v2 end.

(** [Iterator::reduce]. *)
Definition reduce {A} (f : A -> A -> A) (xs : list A) : option A :=
  match xs with
  | [] => None
  | x :: xs' => Some (fold_left f xs' x)
  end.

(** The [filter_map] keeping the [Value::Number] entries. *)
Definition numbers (column : list Value.t) : list float :=
  flat_map (fun value => match value with Value.Number n => [n] | _ => [] end) column.

(** [Table::min]. *)
Definition min (self : Table) (column_name : rstring) : option float :=
  match get_column self column_name with
  | None => None
  | Some column => reduce min_by_f64 (numbers column)
  end.

(** [Table::max]. *)
Definition max (self : Table) (column_name : rstring) : option float :=
  match get_column self column_name with
  | None => None
  | Some column => reduce max_by_f64 (numbers column)
  end.

(** ** [src/table.rs]: [evaluate_dax] *)

Module DaxResult.
Inductive t :=
| Number (n : float)
| Text (s : rstring)
| Boolean (b : bool)
| Error (message : rstring).
End DaxResult.

(** The function names of the [match name.as_str()] arms. *)
Inductive DaxFunction := SUM | AVERAGE | MIN | MAX | DISTINCTCOUNT.

Definition recognize (name : rstring) : option DaxFunction :=
  if rstring_eqb name (lit "SUM"%string) then Some SUM
  else if rstring_eqb name (lit "AVERAGE"%string) then Some AVERAGE
  else if rstring_eqb name (lit "MIN"%string) then Some MIN
  else if rstring_eqb name (lit "MAX"%string) then Some MAX
  else if rstring_eqb name (lit "DISTINCTCOUNT"%string) then Some DISTINCTCOUNT
  else None.

Section Evaluator.

Variable unicode_alphabetic : rchar -> bool.
(** The hasher of the [HashSet] built by [distinctcount]. *)
Variable h : Hasher.

(** The body of an arm once its [DaxToken::Column(col_name)] is found. *)
Definition dispatch (self : Table) (f : DaxFunction) (col_name : rstring) : DaxResult.t :=
  let fail (fname : string) := DaxResult.Error
      (lit "Could not calculate "%string ++ lit fname ++ lit " for column "%string ++ col_name) in
  match f with
  | SUM => match sum self col_name with
           | Some sum => DaxResult.Number sum | None => fail "SUM"%string end
  | AVERAGE => match average self col_name with
               | Some avg => DaxResult.Number avg | None => fail "AVERAGE"%string end
  | MIN => match min self col_name with
           | Some min => DaxResult.Number min | None => fail "MIN"%string end
  | MAX => match max self col_name with
           | Some max => DaxResult.Number max | None => fail "MAX"%string end
  | DISTINCTCOUNT =>
      match distinctcount h self col_name with
      | Some dc => DaxResult.Number (int_as_f64 (Z.of_nat dc))
      | None => fail "DISTINCTCOUNT"%string
      end
  end.

(** Which of the two [while let Some(token) = iter.next()] loops of
    [evaluate_dax] is pulling from the shared iterator: the outer one, or
    the inner one of a recognised function. *)
Inductive ScanState := Outer | Inner (f : DaxFunction).

Fixpoint scan (self : Table) (st : ScanState) (tokens : list DaxToken.t) : DaxResult.t :=
  match tokens with
  | [] =>
      (* the iterator is exhausted: both loops end *)
      DaxResult.Error (lit "Invalid or unsupported DAX expression"%string)
  | token :: tokens' =>
      match st with
      | Outer =>
          match token with
          | DaxToken.Function name =>
              match recognize name with
              | Some f => scan self (Inner f) tokens'
              | None => DaxResult.Error (lit "Unsupported function: "%string ++ name)
              end
          | _ => scan self Outer tokens' (* continue *)
          end
      | Inner f =>
          match token with
          | DaxToken.Column col_name => dispatch self f col_name
          | _ => scan self (Inner f) tokens'
          end
      end
  end.

(** [Table::evaluate_dax]. *)
Definition evaluate_dax (self : Table) (expression : rstring) : DaxResult.t :=
  scan self Outer (tokenize unicode_alphabetic expression).

End Evaluator.

(** ** A concrete hasher: 64-bit FNV-1a over the bytes of the writes *)

(** UTF-8 encoding of a code point. *)
Definition utf8_encode (c : rchar) : list Z :=
  let z := Z.of_N c in
  if z <? 128 then [z]
  else if z <? 2048 then [192 + z / 64; 128 + z mod 64]
  else if z <? 65536 then [224 + z / 4096; 128 + (z / 64) mod 64; 128 + z mod 64]
  else [240 + z / 262144; 128 + (z / 4096) mod 64; 128 + (z / 64) mod 64; 128 + z mod 64].

(** The bytes a write feeds: [write_u64] in little-endian order, [write_str]
    its UTF-8 bytes and the [0xff] terminator. *)
Definition write_bytes (w : HashWrite) : list Z :=
  match w with
  | WriteU8 b => [b mod 256]
  | WriteU64 x => map (fun i => (x / 2 ^ (8 * i)) mod 256) [0; 1; 2; 3; 4; 5; 6; 7]
  | WriteStr s => flat_map utf8_encode s ++ [255]
  end.

Definition fnv1a : Hasher := fun ws =>
  fold_left (fun acc b => (Z.lxor acc b * 1099511628211) mod 2 ^ 64)
    (flat_map write_bytes ws) 14695981039346656037.

(** ** The hasher of [std::collections::HashSet]: SipHash-1-3

    [RandomState] builds a [DefaultHasher], SipHash-1-3 keyed with random
    [(k0, k1)], over the same bytes as above ([Hasher::write_u64] and
    [write_str] feed [write]); [sip13 k0 k1] is that hasher for fixed keys. *)

Definition mask64 (x : Z) : Z := Z.land x (2 ^ 64 - 1).
Definition rotl (x : Z) (b : Z) : Z := mask64 (Z.lor (Z.shiftl x b) (Z.shiftr x (64 - b))).

Definition sip_round (v : Z * Z * Z * Z) : Z * Z * Z * Z :=
  let '(v0, v1, v2, v3) := v in
  let v0 := mask64 (v0 + v1) in let v1 := rotl v1 13 in let v1 := Z.lxor v1 v0 in
  let v0 := rotl v0 32 in
  let v2 := mask64 (v2 + v3) in let v3 := rotl v3 16 in let v3 := Z.lxor v3 v2 in
  let v0 := mask64 (v0 + v3) in let v3 := rotl v3 21 in let v3 := Z.lxor v3 v0 in
  let v2 := mask64 (v2 + v1) in let v1 := rotl v1 17 in let v1 := Z.lxor v1 v2 in
  let v2 := rotl v2 32 in
  (v0, v1, v2, v3).

Fixpoint le_word (bs : list Z) : Z :=
  match bs with [] => 0 | b :: bs => Z.lor b (Z.shiftl (le_word bs) 8) end.

Fixpoint sip_blocks (fuel : nat) (v : Z * Z * Z * Z) (bs : list Z) : (Z * Z * Z * Z) * list Z :=
  match fuel with
  | O => (v, bs)
  | S fuel =>
      if (length bs <? 8)%nat then (v, bs)
      else
        let m := le_word (firstn 8 bs) in
        let '(v0, v1, v2, v3) := v in
        let '(v0, v1, v2, v3) := sip_round (v0, v1, v2, Z.lxor v3 m) in
        sip_blocks fuel (Z.lxor v0 m, v1, v2, v3) (skipn 8 bs)
  end.

Definition siphash13_bytes (k0 k1 : Z) (bs : list Z) : Z :=
  let v := (Z.lxor k0 8317987319222330741, Z.lxor k1 7237128888997146477,
            Z.lxor k0 7816392313619706465, Z.lxor k1 8387220255154660723) in
  let '(v, tail) := sip_blocks (length bs) v bs in
  let b := Z.lor (Z.shiftl (Z.of_nat (length bs) mod 256) 56) (le_word tail) in
  let '(v0, v1, v2, v3) := v in
  let '(v0, v1, v2, v3) := sip_round (v0, v1, v2, Z.lxor v3 b) in
  let '(v0, v1, v2, v3) := (Z.lxor v0 b, v1, Z.lxor v2 255, v3) in
  let '(v0, v1, v2, v3) := sip_round (sip_round (sip_round (v0, v1, v2, v3))) in
  Z.lxor (Z.lxor v0 v1) (Z.lxor v2 v3).

Definition sip13 (k0 k1 : Z) : Hasher := fun ws => siphash13_bytes k0 k1 (flat_map write_bytes ws).

(** ** Token classes the evaluator's loops test for *)

Definition is_function (tok : DaxToken.t) : bool :=
  match tok with DaxToken.Function _ => true | _ => false end.

Definition is_column (tok : DaxToken.t) : bool :=
  match tok with DaxToken.Column _ => true | _ => false end.

(** The tokens the number rule emits for an accumulated run. *)
Definition number_tokens (num : rstring) : list DaxToken.t :=
  match parse_f64 num with
  | Some n => [DaxToken.Number n]
  | None => []
  end.

(** ** Tables used to exercise the properties *)

(** The table of [test_basic_table_operations]. *)
Definition basic_table : Table :=
  add_column
    (add_column Table_new (lit "Sales"%string)
       [Value.Number 100%float; Value.Number 200%float; Value.Number 300%float])
    (lit "Quantity"%string)
    [Value.Number 10%float; Value.Number 20%float; Value.Number 30%float].

(** The table of [test_distinct_count_with_special_floats]. *)
Definition special_table : Table :=
  add_column Table_new (lit "special"%string)
    [Value.Number nan; Value.Number nan; Value.Number infinity; Value.Number neg_infinity].

(** A column holding both zeros of binary64. *)
Definition signed_zero_table : Table :=
  add_column Table_new (lit "zeros"%string) [Value.Number zero; Value.Number neg_zero].

(** A column of [2^31] numbers: [1.0] followed by [2^31 - 1] zeros. *)
Definition big_column : list Value.t :=
  Value.Number one :: repeat (Value.Number zero) (Z.to_nat (2 ^ 31 - 1)).

Definition big_table : Table := add_column Table_new (lit "C"%string) big_column.

(** ** Results of the callers: [Result<T, E>] *)

Inductive result (T E : Type) := Ok (v : T) | Err (e : E).
Arguments Ok {T E} v.
Arguments Err {T E} e.

(** ** [src/table.rs]: [divide] and [evaluate_divide] *)

(** [Table::divide]. *)
Definition divide (self : Table) (numerator denominator : float)
    (alternate_result : option float) : option float :=
  if PrimFloat.eqb denominator zero then alternate_result
  else Some (numerator / denominator)%float.

Section TokenDisplay.

(** [<f64 as Display>::fmt]. *)
Variable display_f64 : float -> rstring.

(** [impl fmt::Display for DaxToken], through [to_string()]. *)
Definition token_to_string (tok : DaxToken.t) : rstring :=
  match tok with
  | DaxToken.Function name => name
  | DaxToken.Number n => display_f64 n
  | DaxToken.Operator op => [op]
  | DaxToken.Column name => name
  | DaxToken.Comma => lit ","%string
  | DaxToken.ParenOpen => lit "("%string
  | DaxToken.ParenClose => lit ")"%string
  | DaxToken.Whitespace => lit " "%string
  end.

End TokenDisplay.

Section Divide.

Variable unicode_alphabetic : rchar -> bool.
Variable h : Hasher.
Variable display_f64 : float -> rstring.

(** [Table::evaluate_divide] (private; the [DIVIDE] arm of [evaluate_dax]
    that would call it is commented out).  [args[i]] is in bounds in each
    use: the arity test comes first. *)
Definition evaluate_divide (self : Table) (args : list DaxToken.t) : result DaxResult.t rstring :=
  if (length args <? 2)%nat || (3 <? length args)%nat then
    Err (lit "DIVIDE requires 2 or 3 arguments"%string)
  else
    let arg (i : nat) := token_to_string display_f64 (nth i args DaxToken.Whitespace) in
    match evaluate_dax unicode_alphabetic h self (arg 0%nat) with
    | DaxResult.Number numerator =>
        match evaluate_dax unicode_alphabetic h self (arg 1%nat) with
        | DaxResult.Number denominator =>
            if PrimFloat.eqb denominator zero then
              if (length args =? 3)%nat then
                match evaluate_dax unicode_alphabetic h self (arg 2%nat) with
                | DaxResult.Number n => Ok (DaxResult.Number n)
                | _ => Err (lit "Alternate result must be a number"%string)
                end
              else Err (lit "Division by zero"%string)
            else Ok (DaxResult.Number (numerator / denominator)%float)
        | _ => Err (lit "Denominator must be a number"%string)
        end
    | _ => Err (lit "Numerator must be a number"%string)
    end.

End Divide.

(** ** [src/main.rs]: [eval_dax] *)

Module DaxValue.
Inductive t :=
| Number (n : float)
| Text (s : rstring)
| Boolean (b : bool).
End DaxValue.

Section EvalDax.

Variable unicode_alphabetic : rchar -> bool.
Variable h : Hasher.

(** [pub fn eval_dax(table: &Table, dax_expr: &str) -> Result<DaxValue, String>]. *)
Definition eval_dax (table : Table) (dax_expr : rstring) : result DaxValue.t rstring :=
  match evaluate_dax unicode_alphabetic h table dax_expr with
  | DaxResult.Number n => Ok (DaxValue.Number n)
  | DaxResult.Text s => Ok (DaxValue.Text s)
  | DaxResult.Boolean b => Ok (DaxValue.Boolean b)
  | DaxResult.Error e => Err e
  end.

End EvalDax.

(** ** [dax-macro/src/lib.rs]: the [table!] macro *)

(** [impl From<f64> / From<&str> / From<bool> for Value]. *)
Definition value_from_f64 (n : float) : Value.t := Value.Number n.
Definition value_from_str (s : rstring) : Value.t := Value.Text s.
Definition value_from_bool (b : bool) : Value.t := Value.Boolean b.

(** The expansion of [table! { "n1" => [e11, e12, ...], ... }] (and of
    [generate_table_tokens] in [dax-macro-impl], which emits the same code):
    [Table::new()], then one [add_column(name.to_string(), vec![...])] per
    entry, in source order.  An entry's values are the [Value::from(e)] of
    its expressions. *)
Definition table_macro (entries : list (rstring * list Value.t)) : Table :=
  fold_left (fun table '(name, values) => add_column table name values) entries Table_new.

(** ** [src/io.rs]: [read_csv] and [parse_value] *)

(** [u8::to_ascii_lowercase] on a code point; a non-ASCII char, whose UTF-8
    bytes are all at least [0x80], is left as it is. *)
Definition to_ascii_lowercase (c : rchar) : rchar :=
  if (65 <=? c)%N && (c <=? 90)%N then (c + 32)%N else c.

(** [str::eq_ignore_ascii_case]. *)
Definition eq_ignore_ascii_case (a b : rstring) : bool :=
  rstring_eqb (map to_ascii_lowercase a) (map to_ascii_lowercase b).

(** [core::num::dec2flt::parse::parse_scientific]: an optional sign and at
    least one digit; the exponent stops growing once it reaches [0x10000].
    Returns the exponent and the characters after its digits. *)
Definition parse_scientific (s : rstring) : option (Z * rstring) :=
  let '(negative, s) :=
    match s with
    | c :: s' => if (c =? 45)%N then (true, s') else if (c =? 43)%N then (false, s') else (false, s)
    | [] => (false, s)
    end in
  let (digits, rest) := take_while is_digit10 s in
  match digits with
  | [] => None
  | _ :: _ =>
      let exponent := fold_left (fun e d => if e <? 65536 then 10 * e + Z.of_N (d - 48) else e)
                        digits 0 in
      Some (if negative then - exponent else exponent, rest)
  end.

(** [core::num::dec2flt::parse::parse_number]: digits, an optional ['.']
    with digits, at least one digit in all, an optional exponent, and
    nothing after it.  Returns the decimal as mantissa and power of ten. *)
Definition parse_number (s : rstring) : option (Z * Z) :=
  let (int_digits, s1) := take_while is_digit10 s in
  let '(frac_digits, s2) :=
    match s1 with
    | c :: s1' => if (c =? 46)%N then take_while is_digit10 s1' else ([], s1)
    | [] => ([], s1)
    end in
  if (length int_digits + length frac_digits =? 0)%nat then None
  else
    let mantissa := digits_value 0 (int_digits ++ frac_digits) in
    let exponent := - Z.of_nat (length frac_digits) in
    match s2 with
    | [] => Some (mantissa, exponent)
    | c :: s3 =>
        if (c =? 101)%N || (c =? 69)%N then
          match parse_scientific s3 with
          | Some (exp_number, []) => Some (mantissa, exponent + exp_number)
          | _ => None
          end
        else None
    end.

(** The binary64 value nearest to [m * 10 ^ e] (ties to even). *)
Definition decimal_exp_to_f64 (m e : Z) : float :=
  if e <? 0 then decimal_to_f64 m (Z.to_nat (- e)) else decimal_to_f64 (m * 10 ^ e) 0.

(** [core::num::dec2flt::parse::parse_inf_nan]: ["nan"], ["inf"] or
    ["infinity"], ignoring ASCII case. *)
Definition parse_inf_nan (s : rstring) (negative : bool) : option float :=
  let value :=
    if eq_ignore_ascii_case s (lit "nan"%string) then Some nan
    else if eq_ignore_ascii_case s (lit "inf"%string)
            || eq_ignore_ascii_case s (lit "infinity"%string) then Some infinity
    else None in
  option_map (fun v => if negative then (- v)%float else v) value.

(** [<f64 as FromStr>::from_str] ([core::num::dec2flt::dec2flt]). *)
Definition from_str_f64 (s : rstring) : option float :=
  match s with
  | [] => None
  | c :: s' =>
      let negative := (c =? 45)%N in
      let s := if (c =? 45)%N || (c =? 43)%N then s' else s in
      match s with
      | [] => None
      | _ :: _ =>
          match parse_number s with
          | Some (mantissa, exponent) =>
              let v := decimal_exp_to_f64 mantissa exponent in
              Some (if negative then (- v)%float else v)
          | None => parse_inf_nan s negative
          end
      end
  end.

(** [fn parse_value(value: &str) -> Value]. *)
Definition parse_value (value : rstring) : Value.t :=
  match from_str_f64 value with
  | Some num => Value.Number num
  | None =>
      if eq_ignore_ascii_case value (lit "true"%string) then Value.Boolean true
      else if eq_ignore_ascii_case value (lit "false"%string) then Value.Boolean false
      else match value with
           | [] => Value.Null
           | _ :: _ => Value.Text value
           end
  end.

(** [str::split(sep)]: the pieces between the separators; a string
    without separator, the empty one included, is one piece. *)
Fixpoint split_char (sep : rchar) (s : rstring) : list rstring :=
  match s with
  | [] => [[]]
  | c :: s' =>
      let pieces := split_char sep s' in
      if (c =? sep)%N then [] :: pieces
      else match pieces with
           | piece :: pieces' => (c :: piece) :: pieces'
           | [] => [[c]]
           end
  end.

(** [for (j, value) in values.iter().enumerate() { if j < columns.len() {
    columns[j].push(parse_value(value)); } }]. *)
Definition read_row (columns : list (list Value.t)) (values : list rstring) : list (list Value.t) :=
  fold_left (fun columns '(j, value) =>
      if (j <? length columns)%nat
      then <[j := nth j columns [] ++ [parse_value value]]> columns
      else columns)
    (combine (seq 0 (length values)) values) columns.

(** The [for (i, line) in reader.lines().enumerate()] loop: each item of
    [lines] is a line without its terminator, or the I/O error met reading
    it, on which [line?] returns. *)
Fixpoint read_lines {E} (i : nat) (lines : list (result rstring E))
    (headers : list rstring) (columns : list (list Value.t))
    : result (list rstring * list (list Value.t)) E :=
  match lines with
  | [] => Ok (headers, columns)
  | Err e :: _ => Err e
  | Ok line :: lines' =>
      let values := split_char 44%N line in
      if (i =? 0)%nat
      then read_lines (S i) lines' values (repeat [] (length values))
      else read_lines (S i) lines' headers (read_row columns values)
  end.

(** [src/error.rs]: [DaxError], over the type of I/O errors. *)
Module DaxError.
Inductive t (io_error : Type) :=
| ParseError (msg : rstring)
| EvaluationError (msg : rstring)
| IoError (err : io_error).
Arguments ParseError {io_error} msg.
Arguments EvaluationError {io_error} msg.
Arguments IoError {io_error} err.
End DaxError.

(** [pub fn read_csv(path: &Path) -> Result<Table, DaxError>]: [file] is
    the outcome of [File::open(path)] and, when it opened, the items of
    [reader.lines()]; an I/O error becomes [DaxError::IoError] by [?]. *)
Definition read_csv {E} (file : result (list (result rstring E)) E) : result Table (DaxError.t E) :=
  match file with
  | Err e => Err (DaxError.IoError e)
  | Ok lines =>
      match read_lines 0 lines [] [] with
      | Err e => Err (DaxError.IoError e)
      | Ok (headers, columns) =>
          Ok (fold_left (fun table '(header, column) => add_column table header column)
                (combine headers columns) Table_new)
      end
  end.

(** The [j]-th fields of the data rows, for the rows that have one: the
    cells [read_csv] puts in column [j]. *)
Definition csv_field_column (j : nat) (rows : list rstring) : list rstring :=
  flat_map (fun row => match nth_error (split_char 44%N row) j with
                       | Some v => [v]
                       | None => []
                       end) rows.

(** ** [src/table.rs]: [impl fmt::Display for Table] *)

(** [String::len]: the length in UTF-8 bytes. *)
Definition str_len (s : rstring) : nat := length (flat_map utf8_encode s).

(** The order of [String]: lexicographic on the UTF-8 bytes, which is the
    lexicographic order on the code points. *)
Fixpoint rstring_ltb (a b : rstring) : bool :=
  match a, b with
  | [], [] => false
  | [], _ :: _ => true
  | _ :: _, [] => false
  | x :: a', y :: b' => (x <? y)%N || ((x =? y)%N && rstring_ltb a' b')
  end.

Fixpoint insert_sorted (x : rstring) (l : list rstring) : list rstring :=
  match l with
  | [] => [x]
  | y :: l' => if rstring_ltb y x then y :: insert_sorted x l' else x :: l
  end.

(** [column_names.sort()]: on distinct keys every sort gives the one sorted
    order; this is insertion sort. *)
Definition sort_names (l : list rstring) : list rstring := fold_right insert_sorted [] l.

(** [{:<width$}] and [{:>width$}]: padding with spaces up to [width] chars. *)
Definition pad_right (s : rstring) (width : nat) : rstring := s ++ repeat 32%N (width - length s).
Definition pad_left (s : rstring) (width : nat) : rstring := repeat 32%N (width - length s) ++ s.

(** A rule line: [left], [k] chars U+2500, [right] and the newline. *)
Definition border (left right : rchar) (k : nat) : rstring :=
  left :: repeat 9472%N k ++ [right; 10%N].

(** [if i > 0 { write!(f, "│")?; }]. *)
Definition col_sep (i : nat) : rstring := if (0 <? i)%nat then [9474%N] else [].

Section TableDisplay.

(** [format!("{:.2}", n)], which is also what [{:>width$.2}] pads. *)
Variable format_2 : float -> rstring.
(** [self.columns.values().next()]: the first column in the [HashMap]'s
    iteration order, which depends on its random hash keys. *)
Variable first_values : gmap rstring (list Value.t) -> option (list Value.t).

Definition value_width (value : Value.t) : nat :=
  match value with
  | Value.Text s => str_len s
  | Value.Number n => str_len (format_2 n)
  | Value.Boolean b => if b then 4%nat else 5%nat
  | Value.Null => 0%nat
  end.

(** [column_widths] after its two loops: for each column, the maximum of
    its name's length and of its values' widths. *)
Definition column_widths (self : Table) : gmap rstring nat :=
  map_imap (fun column_name values =>
      Some (fold_left (fun current_max value => Nat.max current_max (value_width value))
              values (str_len column_name)))
    (columns self).

(** [column_widths[name]], on a name that is a key of [column_widths]. *)
Definition width_of (widths : gmap rstring nat) (name : rstring) : nat :=
  match widths !! name with Some w => w | None => 0%nat end.

(** [column_names.iter().map(|name| column_widths[name] + 2).sum::<usize>()
    + column_names.len() - 1]: in [usize], so on a table without columns the
    subtraction overflows; that panics in a debug build, and in a release
    build the wrapped [usize::MAX] makes [repeat] panic (capacity overflow). *)
Definition rule_width (widths : gmap rstring nat) (names : list rstring) : option nat :=
  let total := (list_sum (map (fun name => width_of widths name + 2) names) + length names)%nat in
  if (total =? 0)%nat then None else Some (total - 1)%nat.

Definition header_line (widths : gmap rstring nat) (names : list rstring) : rstring :=
  concat (map (fun '(i, name) =>
      col_sep i ++ [32%N] ++ pad_right name (width_of widths name) ++ [32%N])
    (combine (seq 0 (length names)) names)) ++ [10%N].

Definition cell (width : nat) (value : Value.t) : rstring :=
  match value with
  | Value.Text s => [32%N] ++ pad_right s width ++ [32%N]
  | Value.Number n => [32%N] ++ pad_left (format_2 n) width ++ [32%N]
  | Value.Boolean b =>
      [32%N] ++ pad_left (if b then lit "true"%string else lit "false"%string) width ++ [32%N]
  | Value.Null => [32%N] ++ pad_left [] width ++ [32%N]
  end.

Definition row_line (self : Table) (widths : gmap rstring nat) (names : list rstring)
    (row : nat) : rstring :=
  concat (map (fun '(i, name) =>
      col_sep i ++
      match columns self !! name with
      | Some values =>
          match values !! row with
          | Some value => cell (width_of widths name) value
          | None => []
          end
      | None => []
      end)
    (combine (seq 0 (length names)) names)) ++ [10%N].

Definition row_count (self : Table) : nat :=
  match first_values (columns self) with Some v => length v | None => 0%nat end.

(** [<Table as Display>::fmt], writing to a [String]: [None] when it panics. *)
Definition table_fmt (self : Table) : option rstring :=
  let widths := column_widths self in
  let names := sort_names (map fst (map_to_list (columns self))) in
  match rule_width widths names with
  | None => None
  | Some k =>
      Some (border 9484%N 9488%N k ++ header_line widths names ++ border 9500%N 9508%N k ++
            concat (map (row_line self widths names) (seq 0 (row_count self))) ++
            border 9492%N 9496%N k)
  end.

End TableDisplay.

(** ** The order of non-NaN binary64 values, as a lexicographic key *)

Definition float_key (x : spec_float) : Z * Z * Z :=
  match x with
  | S754_infinity false => (2, 0, 0)
  | S754_infinity true => (-2, 0, 0)
  | S754_zero _ => (0, 0, 0)
  | S754_finite false m e => (1, e, Zpos m)
  | S754_finite true m e => (-1, - e, Zneg m)
  | S754_nan => (0, 0, 0)
  end.

Definition lex3 (a b : Z * Z * Z) : comparison :=
  let '(a1, a2, a3) := a in
  let '(b1, b2, b3) := b in
  match Z.compare a1 b1 with
  | Eq => match Z.compare a2 b2 with Eq => Z.compare a3 b3 | c => c end
  | c => c
  end.

(** The values of [Value] equality classes, first occurrences kept: the
    distinct values of a column in the sense of [value_eq]. *)
Definition distinct_values (vs : list Value.t) : list Value.t :=
  fold_left (fun set v => if existsb (fun y => value_eq y v) set then set else set ++ [v]) vs [].

(** An instance of [first_values]: the first column of [map_to_list]. *)
Definition first_in_map_order (m : gmap rstring (list Value.t)) : option (list Value.t) :=
  match map_to_list m with (_, v) :: _ => Some v | [] => None end.

(** The order keys of two floats, as [cmp_f64] compares them. *)
Definition fkey (x : float) : Z * Z * Z := float_key (Prim2SF x).

(** The shape of each token [tokenize] emits. *)
Definition token_shape (ua : rchar -> bool) (tok : DaxToken.t) : Prop :=
  match tok with
  | DaxToken.Function name =>
      (exists c r, name = c :: r /\ is_ascii_letter c = true) /\
      forallb (is_alphabetic ua) name = true
  | DaxToken.Column name => ~ In 93%N name
  | DaxToken.Operator c => In c [43; 45; 42; 47]%N
  | DaxToken.Number n =>
      exists run, parse_f64 run = Some n /\
        (exists c r, run = c :: r /\ is_digit10 c = true) /\ forallb digit_or_dot run = true
  | _ => True
  end.

(** One step of the fold of [table_macro]. *)
Definition add_entry (table : Table) (e : rstring * list Value.t) : Table :=
  let '(name, values) := e in add_column table name values.

(** One step of the loop of [read_row]. *)
Definition read_row_step (columns : list (list Value.t)) (jv : nat * rstring) : list (list Value.t) :=
  let '(j, value) := jv in
  if (j <? length columns)%nat
  then <[j := nth j columns [] ++ [parse_value value]]> columns
  else columns.

(** One step of the fold of [distinct_values]. *)
Definition distinct_step (set : list Value.t) (v : Value.t) : list Value.t :=
  if existsb (fun y => value_eq y v) set then set else set ++ [v].

(** Triangular numbers: the offsets of the probe sequence, in groups. *)
Fixpoint tri (k : nat) : nat := match k with O => O | S k => (tri k + S k)%nat end.

(** Probe positions: group [k] of the probe sequence starts at [p + 16 tri k]. *)
Fixpoint probe_iter (mask : nat) (ps : nat * nat) (k : nat) : nat * nat :=
  match k with
  | O => ps
  | S k => let '(p, s) := probe_iter mask ps k in move_next mask p s
  end.

(** ** The hash table's invariant

    Definitions used to state what a [RawTable] built by [hashset_insert]
    satisfies.  [stored] lists the values held by the buckets. *)
Definition stored (l : list (option Value.t)) : list Value.t :=
  flat_map (fun o => match o with Some y => [y] | None => [] end) l.

(** A mirrored control byte past the end of a table smaller than a group:
    always [EMPTY]. *)
Definition filler (t : RawTable) (j : nat) : bool := (buckets t <=? j)%nat && (j <? WIDTH)%nat.

(** The [k]-th position of the probe sequence of [hash]. *)
Definition probe_seq (t : RawTable) (hash : Z) (k : nat) : nat * nat :=
  probe_iter (bucket_mask t) (probe_start t hash, 0%nat) k.

(** Bucket [i] is seen by the probe of [hash]: it is in the [k]-th group
    of its probe sequence, and the probe does not stop earlier, since every
    group before has no [EMPTY] byte. *)
Definition reach (t : RawTable) (hash : Z) (i : nat) : Prop :=
  exists k b, (k < buckets t)%nat /\ (b < WIDTH)%nat /\
    (forall k', (k' < k)%nat -> match_empty (group_load t (fst (probe_seq t hash k'))) = []) /\
    filler t (fst (probe_seq t hash k) + b) = false /\
    ((fst (probe_seq t hash k) + b) mod buckets t = i)%nat.

(** The invariant: power-of-two size, mirrored control bytes, each bucket
    either [EMPTY] and vacant or holding [y] with tag [h2 (make_hash h y)]
    and reachable by [y]'s probe, [items] counting the stored values, and
    [growth_left] the capacity left. *)
Record table_inv (h : Hasher) (t : RawTable) : Prop := {
  inv_pow : exists e, (2 <= e)%nat /\ buckets t = (2 ^ e)%nat;
  inv_ctrl_len : length (ctrl t) = (buckets t + WIDTH)%nat;
  inv_slots_len : length (slots t) = buckets t;
  inv_mirror : forall j, (j < buckets t + WIDTH)%nat ->
    nth j (ctrl t) EMPTY = if filler t j then EMPTY else nth (j mod buckets t) (ctrl t) EMPTY;
  inv_bucket : forall i, (i < buckets t)%nat ->
    (nth i (ctrl t) EMPTY = EMPTY /\ slots t !! i = Some None) \/
    (exists y, slots t !! i = Some (Some y) /\ nth i (ctrl t) EMPTY = h2 (make_hash h y) /\
               reach t (make_hash h y) i);
  inv_items : items t = length (stored (slots t));
  inv_growth : (growth_left t + items t = bucket_mask_to_capacity (bucket_mask t))%nat }.

(** The tag match of the probe's group at [p] that [eq] accepts, if any. *)
Definition hit (t : RawTable) (v : Value.t) (tag : Z) (p : nat) : option nat :=
  List.find (fun bit => bucket_eq t v (Nat.land (p + bit) (bucket_mask t)))
    (match_byte (group_load t p) tag).

(** The lookup of the probe, outside the section of its proofs. *)
Definition search (t : RawTable) (v : Value.t) (hash : Z) : option (nat + nat) :=
  find_or_find_insert_slot_inner (buckets t) t v (h2 hash) (probe_start t hash) 0 None.

(** The mirror index that [set_ctrl] also writes. *)
Definition index2 (t : RawTable) (index : nat) : nat :=
  (Z.to_nat (Z.land (Z.of_nat index - Z.of_nat WIDTH) (Z.of_nat (bucket_mask t))) + WIDTH)%nat.

(** A column mixing numbers and a text. *)
Definition mixed_column : list Value.t :=
  [Value.Number 3%float; Value.Text (lit "x"%string); Value.Number 1%float; Value.Number 2%float].

Definition mixed_table : Table := add_column Table_new (lit "C"%string) mixed_column.

(** A column whose first number is NaN. *)
Definition nan_column : list Value.t := [Value.Number nan; Value.Number 1%float].

Definition nan_table : Table := add_column Table_new (lit "C"%string) nan_column.

(** A column without numbers. *)
Definition text_column : list Value.t := [Value.Text (lit "a"%string); Value.Null; Value.Boolean true].

Definition text_table : Table := add_column Table_new (lit "T"%string) text_column.

(** * Properties *)

(** ** The tokenizer *)

Lemma take_while_app (p : rchar -> bool) (cs : rstring) :
  fst (take_while p cs) ++ snd (take_while p cs) = cs.
Proof.
  induction cs as [|c cs IH]; simpl; [reflexivity|].
  destruct (p c); [|reflexivity].
  destruct (take_while p cs) as [a b]; simpl in *; now rewrite IH.
Qed.

Lemma take_while_length (p : rchar -> bool) (cs : rstring) :
  (length (snd (take_while p cs)) <= length cs)%nat.
Proof.
  rewrite <- (take_while_app p cs) at 2. rewrite length_app. lia.
Qed.

Lemma take_while_cons_length (p : rchar -> bool) (c : rchar) (cs : rstring) :
  p c = true -> (length (snd (take_while p (c :: cs))) < S (length cs))%nat.
Proof.
  intros Hp. simpl. rewrite Hp.
  pose proof (take_while_length p cs).
  destruct (take_while p cs) as [a b]; simpl in *; lia.
Qed.

Lemma take_while_maximal (p : rchar -> bool) (cs : rstring) (d : rchar) (r : rstring) :
  snd (take_while p cs) = d :: r -> p d = false.
Proof.
  induction cs as [|c cs IH]; simpl; [discriminate|].
  destruct (p c) eqn:Hc.
  - destruct (take_while p cs) as [a b]; simpl in *; exact IH.
  - simpl. intros [= -> ->]. exact Hc.
Qed.

Lemma ascii_letter_alphabetic (ua : rchar -> bool) (c : rchar) :
  is_ascii_letter c = true -> is_alphabetic ua c = true.
Proof.
  unfold is_alphabetic, is_ascii_letter. intros H.
  destruct (N.ltb_spec c 128) as [_|Hc]; [exact H|].
  exfalso. apply orb_true_iff in H as [H|H]; apply andb_true_iff in H as [_ H];
    apply N.leb_le in H; lia.
Qed.

(** With more fuel than characters, [tokenize_go] does not depend on the
    fuel: every iteration consumes at least one char. *)
Lemma tokenize_go_fuel (ua : rchar -> bool) (f1 f2 : nat) (cs : rstring) :
  (length cs < f1)%nat -> (length cs < f2)%nat ->
  tokenize_go ua f1 cs = tokenize_go ua f2 cs.
Proof.
  revert f2 cs. induction f1 as [|f1 IH]; intros f2 cs H1 H2; [lia|].
  destruct f2 as [|f2]; [lia|].
  destruct cs as [|c rest]; [reflexivity|]. simpl in H1, H2.
  cbn [tokenize_go].
  destruct (is_digit10 c) eqn:Hd.
  { assert (Hl : (length (snd (take_while digit_or_dot (c :: rest)))
                   < S (length rest))%nat).
    { apply take_while_cons_length. unfold digit_or_dot. now rewrite Hd. }
    destruct (take_while _ (c :: rest)) as [num cs'] eqn:E. simpl in Hl.
    destruct (parse_f64 num); [f_equal|]; apply IH; lia. }
  destruct (c =? 91)%N.
  { pose proof (take_while_length (fun c => negb (c =? 93)%N) rest) as Hl.
    destruct (take_while _ rest) as [column cs'] eqn:E. simpl in Hl.
    f_equal. apply IH; destruct cs'; simpl in *; lia. }
  destruct (c =? 40)%N; [f_equal; apply IH; lia|].
  destruct (c =? 41)%N; [f_equal; apply IH; lia|].
  destruct (c =? 44)%N; [f_equal; apply IH; lia|].
  destruct ((c =? 43)%N || (c =? 45)%N || (c =? 42)%N || (c =? 47)%N);
    [f_equal; apply IH; lia|].
  destruct ((c =? 32)%N || (c =? 9)%N || (c =? 10)%N || (c =? 13)%N);
    [f_equal; apply IH; lia|].
  destruct (is_ascii_letter c) eqn:Hl.
  { assert (Hlen : (length (snd (take_while (is_alphabetic ua) (c :: rest)))
                     < S (length rest))%nat).
    { apply take_while_cons_length, ascii_letter_alphabetic, Hl. }
    destruct (take_while _ (c :: rest)) as [function cs'] eqn:E. simpl in Hlen.
    f_equal. apply IH; lia. }
  apply IH; lia.
Qed.

Lemma tokenize_go_enough (ua : rchar -> bool) (fuel : nat) (cs : rstring) :
  (length cs < fuel)%nat -> tokenize_go ua fuel cs = tokenize ua cs.
Proof. intros H. apply tokenize_go_fuel; simpl; lia. Qed.

(** One iteration of [tokenize] at a digit. *)
Lemma tokenize_digit (ua : rchar -> bool) (c : rchar) (rest : rstring) :
  is_digit10 c = true ->
  tokenize ua (c :: rest) =
    number_tokens (fst (take_while digit_or_dot (c :: rest)))
    ++ tokenize ua (snd (take_while digit_or_dot (c :: rest))).
Proof.
  intros Hd.
  assert (Hl : (length (snd (take_while digit_or_dot (c :: rest))) < S (length rest))%nat).
  { apply take_while_cons_length. unfold digit_or_dot. now rewrite Hd. }
  unfold tokenize at 1. simpl length. remember (S (length rest)) as n eqn:En.
  cbn [tokenize_go]. rewrite Hd.
  destruct (take_while digit_or_dot (c :: rest)) as [num cs'] eqn:E.
  cbn [fst snd] in *. unfold number_tokens.
  destruct (parse_f64 num); cbn [app]; [f_equal|]; apply tokenize_go_enough; lia.
Qed.

(** One iteration of [tokenize] at a ['.']: the char is skipped. *)
Lemma tokenize_dot (ua : rchar -> bool) (rest : rstring) :
  tokenize ua (46%N :: rest) = tokenize ua rest.
Proof.
  unfold tokenize at 1. simpl length. remember (S (length rest)) as n eqn:En.
  cbn [tokenize_go]. simpl. apply tokenize_go_enough. lia.
Qed.

(** C2 (counterexample): the number rule does not start at a ['.']: on
    [".5"] the maximal digit/['.'] run is [".5"], which parses to [0.5], but
    the tokenizer skips the ['.'] and emits [Number(5.0)]. *)
Lemma tokenize_leading_dot_cex :
  tokenize no_unicode_alphabetic (lit ".5"%string) = [DaxToken.Number 5%float] /\
  fst (take_while digit_or_dot (lit ".5"%string)) = lit ".5"%string /\
  number_tokens (lit ".5"%string) = [DaxToken.Number 0.5%float] /\
  tokenize no_unicode_alphabetic (lit ".5"%string) <>
    number_tokens (fst (take_while digit_or_dot (lit ".5"%string)))
    ++ tokenize no_unicode_alphabetic (snd (take_while digit_or_dot (lit ".5"%string))).
Proof.
  split; [vm_compute; reflexivity|].
  split; [vm_compute; reflexivity|].
  split; [vm_compute; reflexivity|].
  vm_compute. intros H.
  apply (f_equal (fun l => match l with
                           | [DaxToken.Number x] => PrimFloat.eqb x 5%float
                           | _ => false end)) in H.
  vm_compute in H. discriminate.
Qed.

(** C2 (amended): whenever the tokenizer is at a digit, it takes the maximal
    run of digit/['.'] chars from there and emits exactly one [Number] token
    with the parsed value when the run parses as an [f64], and no token
    otherwise (the run is consumed either way); a ['.'] met outside such a
    run is skipped without a token. *)
Theorem tokenize_number_run (ua : rchar -> bool) (c : rchar) (rest : rstring) :
  is_digit10 c = true ->
  let run := fst (take_while digit_or_dot (c :: rest)) in
  let rest' := snd (take_while digit_or_dot (c :: rest)) in
  c :: rest = run ++ rest' /\
  (forall d r, rest' = d :: r -> digit_or_dot d = false) /\
  tokenize ua (c :: rest) =
    match parse_f64 run with
    | Some n => [DaxToken.Number n]
    | None => []
    end ++ tokenize ua rest' /\
  (forall rest2, tokenize ua (46%N :: rest2) = tokenize ua rest2).
Proof.
  intros Hd run rest'. split; [|split; [|split]].
  - symmetry. apply take_while_app.
  - intros d r E. exact (take_while_maximal _ _ d r E).
  - exact (tokenize_digit ua c rest Hd).
  - intros rest2. apply tokenize_dot.
Qed.

Lemma tokenize_number_run_witness :
  is_digit10 49%N = true /\
  tokenize no_unicode_alphabetic (49%N :: lit ".5+"%string) =
    [DaxToken.Number 1.5%float; DaxToken.Operator 43%N].
Proof.
  split; [reflexivity|].
  pose proof (tokenize_number_run no_unicode_alphabetic 49%N (lit ".5+"%string) eq_refl)
    as [_ [_ [H _]]].
  refine (eq_trans H _). vm_compute. reflexivity.
Defined.

(** ** The evaluator *)

Section ScanLemmas.

Variable h : Hasher.
Variable t : Table.

(** The outer loop passes over the tokens that are not functions. *)
Lemma scan_outer_skip (pre rest : list DaxToken.t) :
  Forall (fun tok => is_function tok = false) pre ->
  scan h t Outer (pre ++ rest) = scan h t Outer rest.
Proof.
  induction 1 as [|tok pre Htok _ IH]; [reflexivity|].
  destruct tok; try discriminate; exact IH.
Qed.

(** The inner loop of a recognised function passes over the tokens that
    are not columns. *)
Lemma scan_inner_skip (f : DaxFunction) (mid rest : list DaxToken.t) :
  Forall (fun tok => is_column tok = false) mid ->
  scan h t (Inner f) (mid ++ rest) = scan h t (Inner f) rest.
Proof.
  induction 1 as [|tok mid Htok _ IH]; [reflexivity|].
  destruct tok; try discriminate; exact IH.
Qed.

Lemma scan_inner_no_column (f : DaxFunction) (rest : list DaxToken.t) :
  Forall (fun tok => is_column tok = false) rest ->
  scan h t (Inner f) rest = DaxResult.Error (lit "Invalid or unsupported DAX expression"%string).
Proof.
  intros H. rewrite <- (app_nil_r rest), scan_inner_skip by exact H. reflexivity.
Qed.

End ScanLemmas.

(** C3: when the first [Function] token of the expression names one of SUM,
    AVERAGE, MIN, MAX, DISTINCTCOUNT and a [Column] token follows it, the
    result is that function's table operation on the first such column
    ([dispatch], the arm's body); it does not depend on the tokens [rest]
    after that column, which are never inspected. *)
Theorem evaluate_first_pair (ua : rchar -> bool) (h : Hasher) (t : Table) (s : rstring)
    (pre mid rest : list DaxToken.t) (name col : rstring) (f : DaxFunction) :
  tokenize ua s = pre ++ DaxToken.Function name :: mid ++ DaxToken.Column col :: rest ->
  Forall (fun tok => is_function tok = false) pre ->
  Forall (fun tok => is_column tok = false) mid ->
  recognize name = Some f ->
  evaluate_dax ua h t s = dispatch h t f col.
Proof.
  intros Hs Hpre Hmid Hf. unfold evaluate_dax. rewrite Hs, scan_outer_skip by exact Hpre.
  simpl. rewrite Hf, scan_inner_skip by exact Hmid. reflexivity.
Qed.

Lemma evaluate_first_pair_witness :
  evaluate_dax no_unicode_alphabetic fnv1a basic_table
    (lit "SUM([Sales]) / SUM([Quantity])"%string) = DaxResult.Number 600%float.
Proof.
  refine (eq_trans (evaluate_first_pair no_unicode_alphabetic fnv1a basic_table
    (lit "SUM([Sales]) / SUM([Quantity])"%string) [] [DaxToken.ParenOpen]
    [DaxToken.ParenClose; DaxToken.Whitespace; DaxToken.Operator 47%N; DaxToken.Whitespace;
     DaxToken.Function (lit "SUM"%string); DaxToken.ParenOpen;
     DaxToken.Column (lit "Quantity"%string); DaxToken.ParenClose]
    (lit "SUM"%string) (lit "Sales"%string) SUM _ _ _ _) _).
  - vm_compute. reflexivity.
  - constructor.
  - repeat constructor.
  - reflexivity.
  - vm_compute. reflexivity.
Defined.

(** C8: when the first [Function] token names none of the five recognised
    functions, the result is [Error("Unsupported function: <name>")],
    whatever follows; in particular DIVIDE is not recognised. *)
Theorem evaluate_unsupported (ua : rchar -> bool) (h : Hasher) (t : Table) (s : rstring)
    (pre rest : list DaxToken.t) (name : rstring) :
  tokenize ua s = pre ++ DaxToken.Function name :: rest ->
  Forall (fun tok => is_function tok = false) pre ->
  recognize name = None ->
  evaluate_dax ua h t s = DaxResult.Error (lit "Unsupported function: "%string ++ name) /\
  recognize (lit "DIVIDE"%string) = None.
Proof.
  intros Hs Hpre Hn. split; [|reflexivity].
  unfold evaluate_dax. rewrite Hs, scan_outer_skip by exact Hpre.
  simpl. rewrite Hn. reflexivity.
Qed.

Lemma evaluate_unsupported_witness :
  evaluate_dax no_unicode_alphabetic fnv1a basic_table (lit "INVALID([Sales])"%string)
  = DaxResult.Error (lit "Unsupported function: INVALID"%string).
Proof.
  refine (eq_trans (proj1 (evaluate_unsupported no_unicode_alphabetic fnv1a basic_table
    (lit "INVALID([Sales])"%string) []
    [DaxToken.ParenOpen; DaxToken.Column (lit "Sales"%string); DaxToken.ParenClose]
    (lit "INVALID"%string) _ _ _)) _).
  - vm_compute. reflexivity.
  - constructor.
  - reflexivity.
  - vm_compute. reflexivity.
Defined.

(** C9: when no recognised function/column pair is found before the token
    stream ends (no [Function] token at all, or a first [Function] token that
    is recognised but followed by no [Column] token), the result is the
    generic [Error("Invalid or unsupported DAX expression")]. *)
Theorem evaluate_exhausted (ua : rchar -> bool) (h : Hasher) (t : Table) (s : rstring) :
  (Forall (fun tok => is_function tok = false) (tokenize ua s) \/
   exists pre name f rest,
     tokenize ua s = pre ++ DaxToken.Function name :: rest /\
     Forall (fun tok => is_function tok = false) pre /\
     recognize name = Some f /\
     Forall (fun tok => is_column tok = false) rest) ->
  evaluate_dax ua h t s = DaxResult.Error (lit "Invalid or unsupported DAX expression"%string).
Proof.
  unfold evaluate_dax. intros [Hnone | (pre & name & f & rest & Hs & Hpre & Hf & Hrest)].
  - rewrite <- (app_nil_r (tokenize ua s)), scan_outer_skip by exact Hnone. reflexivity.
  - rewrite Hs, scan_outer_skip by exact Hpre. simpl. rewrite Hf.
    apply scan_inner_no_column, Hrest.
Qed.

Lemma evaluate_exhausted_witness :
  evaluate_dax no_unicode_alphabetic fnv1a basic_table (lit "SUM(2 + 3)"%string)
  = DaxResult.Error (lit "Invalid or unsupported DAX expression"%string).
Proof.
  apply evaluate_exhausted. right.
  exists [], (lit "SUM"%string), SUM,
    [DaxToken.ParenOpen; DaxToken.Number 2%float; DaxToken.Whitespace;
     DaxToken.Operator 43%N; DaxToken.Whitespace; DaxToken.Number 3%float;
     DaxToken.ParenClose].
  split; [vm_compute; reflexivity|].
  split; [constructor|]. split; [reflexivity|]. repeat constructor.
Defined.

(** C10: every evaluation yields a [Number] or an [Error]; the [Text] and
    [Boolean] variants of [DaxResult] are never produced. *)
Theorem evaluate_number_or_error (ua : rchar -> bool) (h : Hasher) (t : Table) (s : rstring) :
  (exists n, evaluate_dax ua h t s = DaxResult.Number n) \/
  (exists m, evaluate_dax ua h t s = DaxResult.Error m).
Proof.
  unfold evaluate_dax.
  assert (Hd : forall f col, (exists n, dispatch h t f col = DaxResult.Number n) \/
                             (exists m, dispatch h t f col = DaxResult.Error m)).
  { intros f col. unfold dispatch.
    destruct f;
      [destruct (sum t col) | destruct (average t col) | destruct (min t col)
      | destruct (max t col) | destruct (distinctcount h t col)];
      eauto. }
  generalize Outer as st. induction (tokenize ua s) as [|tok toks IH]; intros st.
  - right. eexists. reflexivity.
  - destruct st as [|f]; simpl.
    + destruct tok; try apply IH.
      destruct (recognize name) as [f|]; [apply IH|]. right. eexists. reflexivity.
    + destruct tok; try apply IH. apply Hd.
Qed.

(** ** The aggregate operations *)

Lemma sum_fold_numbers (col : list Value.t) (acc : float) :
  fold_left (fun acc value =>
      match value with Value.Number n => (acc + n)%float | _ => acc end) col acc =
  fold_left PrimFloat.add (numbers col) acc.
Proof.
  revert acc. induction col as [|[n| | |] col IH]; intros acc; simpl; apply IH || reflexivity.
Qed.

(** C5: [sum] is the left fold of [+] from [0.0] over exactly the [Number]
    entries of the column, so [0.0] for a column without them; it is absent
    only for a missing column. *)
Theorem sum_numbers (t : Table) (c : rstring) (col : list Value.t) :
  get_column t c = Some col ->
  sum t c = Some (fold_left PrimFloat.add (numbers col) zero) /\
  (numbers col = [] -> sum t c = Some zero) /\
  (forall c', sum t c' = None <-> get_column t c' = None).
Proof.
  intros Hc. unfold sum. rewrite Hc, sum_fold_numbers. split; [reflexivity|]. split.
  - intros ->. reflexivity.
  - intros c'. destruct (get_column t c'); split; congruence.
Qed.

Lemma sum_numbers_witness :
  sum basic_table (lit "Sales"%string) = Some 600%float.
Proof.
  refine (eq_trans (proj1 (sum_numbers basic_table (lit "Sales"%string)
    [Value.Number 100%float; Value.Number 200%float; Value.Number 300%float] _)) _).
  - vm_compute. reflexivity.
  - vm_compute. reflexivity.
Defined.

(** C6: [min] and [max] are absent exactly when the column has no [Number]
    entry; otherwise they reduce the [Number] entries, in order, with
    [min_by] / [max_by] and the comparison that takes an unordered pair
    (a NaN) as [Equal]. *)
Theorem min_max_numbers (t : Table) (c : rstring) (col : list Value.t) :
  get_column t c = Some col ->
  (min t c = None <-> numbers col = []) /\
  (max t c = None <-> numbers col = []) /\
  (forall x xs, numbers col = x :: xs ->
     min t c = Some (fold_left min_by_f64 xs x) /\
     max t c = Some (fold_left max_by_f64 xs x)).
Proof.
  intros Hc. unfold min, max. rewrite Hc.
  destruct (numbers col) as [|y ys]; simpl.
  - split; [tauto|]. split; [tauto|]. discriminate.
  - split; [split; discriminate|]. split; [split; discriminate|].
    intros x xs [= -> ->]. split; reflexivity.
Qed.

Lemma min_max_numbers_witness :
  min special_table (lit "special"%string) = Some nan /\
  max basic_table (lit "Quantity"%string) = Some 30%float.
Proof.
  split.
  - refine (eq_trans (proj1 (proj2 (proj2 (min_max_numbers special_table
      (lit "special"%string)
      [Value.Number nan; Value.Number nan; Value.Number infinity; Value.Number neg_infinity]
      _)) nan [nan; infinity; neg_infinity] _)) _); vm_compute; reflexivity.
  - refine (eq_trans (proj2 (proj2 (proj2 (min_max_numbers basic_table
      (lit "Quantity"%string)
      [Value.Number 10%float; Value.Number 20%float; Value.Number 30%float]
      _)) 10%float [20%float; 30%float] _)) _); vm_compute; reflexivity.
Defined.

Lemma wrap_i32_succ (x : Z) : wrap_i32 (wrap_i32 x + 1) = wrap_i32 (x + 1).
Proof.
  unfold wrap_i32.
  replace ((x + 2 ^ 31) mod 2 ^ 32 - 2 ^ 31 + 1 + 2 ^ 31)
    with ((x + 2 ^ 31) mod 2 ^ 32 + 1) by ring.
  rewrite Zplus_mod_idemp_l. f_equal. f_equal. ring.
Qed.

Lemma average_loop_zeros (k : nat) (c : Z) :
  fold_left (fun '(sum, count) value =>
      match value with
      | Value.Number n => ((sum + n)%float, wrap_i32 (count + 1))
      | _ => (sum, count)
      end) (repeat (Value.Number zero) k) (one, wrap_i32 c) =
  (one, wrap_i32 (c + Z.of_nat k)).
Proof.
  revert c. induction k as [|k IH]; intros c; simpl.
  - now rewrite Z.add_0_r.
  - rewrite wrap_i32_succ.
    change (one + zero)%float with one. rewrite IH. do 2 f_equal. lia.
Qed.

Lemma sum_loop_zeros (k : nat) :
  fold_left (fun acc value =>
      match value with Value.Number n => (acc + n)%float | _ => acc end)
    (repeat (Value.Number zero) k) one = one.
Proof.
  induction k as [|k IH]; simpl; [reflexivity|].
  change (one + zero)%float with one. exact IH.
Qed.

Lemma average_loop_numbers (col : list Value.t) (acc : float) (c : Z) :
  fold_left (fun '(sum, count) value =>
      match value with
      | Value.Number n => ((sum + n)%float, wrap_i32 (count + 1))
      | _ => (sum, count)
      end) col (acc, wrap_i32 c) =
  (fold_left PrimFloat.add (numbers col) acc,
   wrap_i32 (c + Z.of_nat (length (numbers col)))).
Proof.
  revert acc c. induction col as [|[n| | |] col IH]; intros acc c; simpl.
  - now rewrite Z.add_0_r.
  - rewrite wrap_i32_succ, IH. do 2 f_equal. lia.
  - apply IH.
  - apply IH.
  - apply IH.
Qed.

(** Below [2^31] numeric entries the [i32] count does not wrap, and
    [average] is [sum / count], or [0.0] without numeric entries. *)
Lemma average_below_i32 (t : Table) (c : rstring) (col : list Value.t) :
  get_column t c = Some col ->
  (Z.of_nat (length (numbers col)) < 2 ^ 31) ->
  (numbers col = [] -> average t c = Some zero) /\
  (numbers col <> [] ->
     exists s, sum t c = Some s /\
       average t c = Some (s / int_as_f64 (Z.of_nat (length (numbers col))))%float).
Proof.
  intros Hc Hlt. unfold average, sum. rewrite Hc, sum_fold_numbers. unfold average_loop.
  change (zero, 0) with (zero, wrap_i32 0). rewrite average_loop_numbers.
  assert (Hw : wrap_i32 (0 + Z.of_nat (length (numbers col))) =
               Z.of_nat (length (numbers col))).
  { unfold wrap_i32. rewrite Z.mod_small; lia. }
  rewrite Hw. split.
  - intros ->. reflexivity.
  - intros Hne. exists (fold_left PrimFloat.add (numbers col) zero). split; [reflexivity|].
    destruct (numbers col) as [|x xs]; [congruence|].
    replace (0 <? Z.of_nat (length (x :: xs))) with true; [reflexivity|].
    symmetry. apply Z.ltb_lt. simpl. lia.
Qed.

(** The loops of [sum] and [average] on [1.0] followed by [k] zeros. *)
Lemma one_then_zeros (k : nat) :
  length (numbers (Value.Number one :: repeat (Value.Number zero) k)) = S k /\
  (fold_left (fun acc value =>
      match value with Value.Number n => (acc + n)%float | _ => acc end)
    (Value.Number one :: repeat (Value.Number zero) k) zero = one) /\
  average_loop (Value.Number one :: repeat (Value.Number zero) k) =
    (one, wrap_i32 (1 + Z.of_nat k)).
Proof.
  split; [|split].
  - simpl. f_equal. induction k as [|k IH]; simpl; congruence.
  - simpl fold_left. change (zero + one)%float with one. apply sum_loop_zeros.
  - unfold average_loop. simpl fold_left. change (zero + one)%float with one.
    change (wrap_i32 (0 + 1)) with (wrap_i32 1). apply average_loop_zeros.
Qed.

Lemma get_big_column : get_column big_table (lit "C"%string) = Some big_column.
Proof. unfold get_column, big_table, add_column. simpl columns. apply lookup_insert_eq. Qed.

Lemma two_pow_31_nat : Z.to_nat (2 ^ 31) = S (Z.to_nat (2 ^ 31 - 1)).
Proof.
  pose proof (Z2Nat.inj_succ (2 ^ 31 - 1) ltac:(lia)) as E.
  replace (Z.succ (2 ^ 31 - 1)) with (2 ^ 31) in E by ring. exact E.
Qed.

(** C4 (failing input): [average] counts the numeric entries in an [i32].
    On a column of [2^31] numbers ([1.0] and [2^31 - 1] zeros) the count
    wraps to [-2^31] (a debug build panics on the overflow instead), so
    [average] returns [0.0] where [sum / count = 1.0 / 2^31] is not [0.0]. *)
Theorem average_i32_count_overflow :
  get_column big_table (lit "C"%string) = Some big_column /\
  length (numbers big_column) = Z.to_nat (2 ^ 31) /\
  sum big_table (lit "C"%string) = Some one /\
  average big_table (lit "C"%string) = Some zero /\
  (one / int_as_f64 (2 ^ 31))%float <> zero.
Proof.
  destruct (one_then_zeros (Z.to_nat (2 ^ 31 - 1))) as (Hlen & Hsum & Havg).
  fold big_column in Hlen, Hsum, Havg.
  split; [exact get_big_column|].
  split; [rewrite two_pow_31_nat; exact Hlen|].
  unfold sum, average. rewrite get_big_column. split; [now rewrite Hsum|].
  split.
  - rewrite Havg, Z2Nat.id by lia. reflexivity.
  - intros H. apply (f_equal (fun x => PrimFloat.eqb x zero)) in H.
    vm_compute in H. discriminate H.
Qed.

(** ** Equality and hashing *)

(** C1 (failing input): [0.0 == -0.0] holds for [f64], so the two values are
    equal under [value_eq], but [f64::to_bits] tells them apart, so their
    hashes differ: [Hash] is not consistent with [Eq] on signed zeros. *)
Theorem value_eq_hash_signed_zero :
  value_eq (Value.Number zero) (Value.Number neg_zero) = true /\
  value_hash (Value.Number zero) = [WriteU64 0] /\
  value_hash (Value.Number neg_zero) = [WriteU64 (2 ^ 63)] /\
  hash_value fnv1a (Value.Number zero) <> hash_value fnv1a (Value.Number neg_zero).
Proof.
  split; [vm_compute; reflexivity|].
  split; [vm_compute; reflexivity|].
  split; [vm_compute; reflexivity|].
  intros H. vm_compute in H. discriminate H.
Qed.

(** ** [Value] equality *)

Lemma prim2sf_nan_iff (x : float) : is_nan x = true <-> Prim2SF x = S754_nan.
Proof.
  unfold Prim2SF. destruct (is_nan x) eqn:E; [tauto|].
  split; [discriminate|].
  repeat match goal with
         | |- context [if ?b then _ else _] => destruct b
         | |- context [let (_, _) := ?e in _] => destruct e
         | |- context [match ?e with _ => _ end] => destruct e
         end; discriminate.
Qed.

Lemma prim2sf_not_nan (x : float) : is_nan x = false <-> Prim2SF x <> S754_nan.
Proof.
  rewrite <- prim2sf_nan_iff. destruct (is_nan x); split; congruence.
Qed.

Lemma lex3_antisym (a b : Z * Z * Z) : lex3 b a = CompOpp (lex3 a b).
Proof.
  destruct a as [[a1 a2] a3], b as [[b1 b2] b3]. simpl.
  rewrite (Z.compare_antisym a1 b1), (Z.compare_antisym a2 b2), (Z.compare_antisym a3 b3).
  destruct (a1 ?= b1), (a2 ?= b2), (a3 ?= b3); reflexivity.
Qed.

Lemma lex3_le_iff (a1 a2 a3 b1 b2 b3 : Z) :
  lex3 (a1, a2, a3) (b1, b2, b3) <> Gt <->
  (a1 < b1 \/ a1 = b1 /\ (a2 < b2 \/ a2 = b2 /\ a3 <= b3)).
Proof.
  simpl. destruct (Z.compare_spec a1 b1); [|split; [lia|discriminate]|split; [congruence|lia]].
  destruct (Z.compare_spec a2 b2); [|split; [lia|discriminate]|split; [congruence|lia]].
  destruct (Z.compare_spec a3 b3); split; (lia || congruence).
Qed.

Lemma lex3_lt_iff (a1 a2 a3 b1 b2 b3 : Z) :
  lex3 (a1, a2, a3) (b1, b2, b3) = Lt <->
  (a1 < b1 \/ a1 = b1 /\ (a2 < b2 \/ a2 = b2 /\ a3 < b3)).
Proof.
  simpl. destruct (Z.compare_spec a1 b1); [|split; [lia|reflexivity]|split; [congruence|lia]].
  destruct (Z.compare_spec a2 b2); [|split; [lia|reflexivity]|split; [congruence|lia]].
  destruct (Z.compare_spec a3 b3); split; (lia || congruence).
Qed.

Lemma lex3_eq_iff (a b : Z * Z * Z) : lex3 a b = Eq <-> a = b.
Proof.
  destruct a as [[a1 a2] a3], b as [[b1 b2] b3]. simpl.
  destruct (Z.compare_spec a1 b1);
    [|split; [discriminate|intros E; injection E; intros; lia]..].
  destruct (Z.compare_spec a2 b2);
    [|split; [discriminate|intros E; injection E; intros; lia]..].
  destruct (Z.compare_spec a3 b3);
    (split; [intros; f_equal; [f_equal|]; assumption || discriminate
            |intros E; injection E; intros; (reflexivity || lia)]).
Qed.

Lemma lex3_le_trans (a b c : Z * Z * Z) :
  lex3 a b <> Gt -> lex3 b c <> Gt -> lex3 a c <> Gt.
Proof.
  destruct a as [[a1 a2] a3], b as [[b1 b2] b3], c as [[c1 c2] c3].
  rewrite !lex3_le_iff. lia.
Qed.

Lemma lex3_lt_le (a b : Z * Z * Z) : lex3 a b = Lt -> lex3 a b <> Gt.
Proof. congruence. Qed.

Lemma lex3_not_lt (a b : Z * Z * Z) : lex3 a b <> Lt -> lex3 b a <> Gt.
Proof. intros H. rewrite lex3_antisym. destruct (lex3 a b); simpl; congruence. Qed.

Lemma sfcompare_key (x y : spec_float) :
  x <> S754_nan -> y <> S754_nan ->
  SFcompare x y = Some (lex3 (float_key x) (float_key y)).
Proof.
  intros Hx Hy.
  destruct x as [sx|sx| |sx mx ex]; [| |congruence|];
  destruct y as [sy|sy| |sy my ey]; try congruence;
  try destruct sx; try destruct sy; try reflexivity; simpl.
  - replace (- ex ?= - ey) with (CompOpp (ex ?= ey))
      by (rewrite Z.compare_opp; symmetry; apply Z.compare_antisym).
    destruct (ex ?= ey); reflexivity.
Qed.

Lemma float_key_inj (x y : spec_float) :
  x <> S754_nan -> y <> S754_nan -> float_key x = float_key y ->
  x = y \/ (exists sx sy, x = S754_zero sx /\ y = S754_zero sy).
Proof.
  intros Hx Hy.
  destruct x as [sx|sx| |sx mx ex]; [| |congruence|];
  destruct y as [sy|sy| |sy my ey]; try congruence;
  try destruct sx; try destruct sy; simpl; intros E; try discriminate;
  try (right; eauto; fail); try (left; reflexivity).
  - injection E as E1 E2. left. f_equal; [congruence|lia].
  - injection E as E1 E2. subst. left. reflexivity.
Qed.

Lemma value_eq_number (a b : float) :
  value_eq (Value.Number a) (Value.Number b) = true <->
  (Prim2SF a = S754_nan /\ Prim2SF b = S754_nan) \/
  (Prim2SF a <> S754_nan /\ Prim2SF b <> S754_nan /\
   float_key (Prim2SF a) = float_key (Prim2SF b)).
Proof.
  unfold value_eq. rewrite FloatAxioms.eqb_spec.
  destruct (is_nan a) eqn:Ea, (is_nan b) eqn:Eb; simpl;
    [apply prim2sf_nan_iff in Ea, Eb; tauto| | |];
    rewrite ?prim2sf_nan_iff, ?prim2sf_not_nan in *;
    unfold SFeqb.
  - rewrite Ea. simpl. split; [discriminate|]. intuition congruence.
  - destruct (Prim2SF a); [| |congruence|]; rewrite Eb; simpl;
      (split; [discriminate|intuition congruence]).
  - rewrite sfcompare_key by assumption.
    destruct (lex3 _ _) eqn:E; [apply lex3_eq_iff in E; intuition congruence| |];
      (split; [discriminate|]); intros [[? ?]|(_ & _ & K)]; try congruence;
      rewrite K, (proj2 (lex3_eq_iff _ _) eq_refl) in E; discriminate.
Qed.

Lemma prim2sf_zero : Prim2SF zero = S754_zero false.
Proof. vm_compute. reflexivity. Qed.
Lemma prim2sf_neg_zero : Prim2SF neg_zero = S754_zero true.
Proof. vm_compute. reflexivity. Qed.

Lemma rstring_eqb_eq (a b : rstring) : rstring_eqb a b = true <-> a = b.
Proof.
  revert b. induction a as [|x a IH]; intros [|y b]; simpl; try (split; congruence).
  rewrite andb_true_iff, N.eqb_eq, IH. split; [intros [-> ->]; reflexivity|intros E; injection E; auto].
Qed.

(** X1: [Value]'s equality is an equivalence: reflexive (a NaN number equals
    itself), symmetric and transitive. *)
Theorem value_eq_equivalence :
  (forall a, value_eq a a = true) /\
  (forall a b, value_eq a b = value_eq b a) /\
  (forall a b c, value_eq a b = true -> value_eq b c = true -> value_eq a c = true).
Proof.
  assert (Hnum : forall a b, value_eq (Value.Number a) (Value.Number b) = true <->
      value_eq (Value.Number b) (Value.Number a) = true).
  { intros a b. rewrite !value_eq_number. intuition congruence. }
  split; [|split].
  - intros [a|s|b|]; simpl.
    + apply value_eq_number. destruct (Prim2SF a) eqn:E; [right; repeat split; congruence..| |].
      * left; auto.
      * right; repeat split; congruence.
    + apply rstring_eqb_eq. reflexivity.
    + apply eqb_reflx.
    + reflexivity.
  - intros [a|s|x|] [b|s'|y|]; try reflexivity.
    + apply eq_true_iff_eq. apply Hnum.
    + apply eq_true_iff_eq. simpl. rewrite !rstring_eqb_eq. split; congruence.
    + simpl. destruct x, y; reflexivity.
  - intros [a|s|x|] [b|s'|y|] [c|s''|z|] Hab Hbc;
      try (simpl in Hab; discriminate); try (simpl in Hbc; discriminate).
    + rewrite value_eq_number in *. intuition congruence.
    + simpl in *. rewrite rstring_eqb_eq in *. congruence.
    + simpl in *. destruct x, y, z; simpl in *; congruence.
    + reflexivity.
Qed.

Lemma value_eq_equivalence_witness :
  value_eq (Value.Number zero) (Value.Number zero) = true.
Proof.
  apply (proj2 (proj2 value_eq_equivalence)) with (b := Value.Number neg_zero);
    vm_compute; reflexivity.
Defined.

(** ** Hashing and [min] / [max] *)

Lemma value_hash_cases (a b : Value.t) :
  value_eq a b = true ->
  value_hash a = value_hash b \/
  (a = Value.Number zero /\ b = Value.Number neg_zero) \/
  (a = Value.Number neg_zero /\ b = Value.Number zero).
Proof.
  destruct a as [x|s|p|], b as [y|s'|q|]; intros H; try discriminate.
  - apply value_eq_number in H as [[Hx Hy]|(Hx & Hy & K)].
    + left. unfold value_hash.
      rewrite (proj2 (prim2sf_nan_iff x) Hx), (proj2 (prim2sf_nan_iff y) Hy). reflexivity.
    + destruct (float_key_inj _ _ Hx Hy K) as [E|(sx & sy & Ex & Ey)].
      * left. apply Prim2SF_inj in E. subst. reflexivity.
      * destruct sx, sy.
        -- left. rewrite <- Ey in Ex. apply Prim2SF_inj in Ex. subst. reflexivity.
        -- right; right. rewrite <- prim2sf_neg_zero in Ex. rewrite <- prim2sf_zero in Ey.
           apply Prim2SF_inj in Ex, Ey. subst. split; reflexivity.
        -- right; left. rewrite <- prim2sf_zero in Ex. rewrite <- prim2sf_neg_zero in Ey.
           apply Prim2SF_inj in Ex, Ey. subst. split; reflexivity.
        -- left. rewrite <- Ey in Ex. apply Prim2SF_inj in Ex. subst. reflexivity.
  - left. simpl in H. apply rstring_eqb_eq in H. subst. reflexivity.
  - left. simpl in H. apply eqb_prop in H. subst. reflexivity.
  - left. reflexivity.
Qed.

(** X2: two values equal under [value_eq] feed the hasher the same writes,
    except for the pair [Number 0.0] / [Number -0.0], in either order. *)
Theorem value_hash_consistent (a b : Value.t) :
  value_eq a b = true ->
  value_hash a = value_hash b \/
  (a = Value.Number zero /\ b = Value.Number neg_zero) \/
  (a = Value.Number neg_zero /\ b = Value.Number zero).
Proof. exact (value_hash_cases a b). Qed.

Lemma value_hash_consistent_witness :
  value_eq (Value.Number nan) (Value.Number (- nan)%float) = true /\
  value_hash (Value.Number nan) = value_hash (Value.Number (- nan)%float).
Proof.
  assert (H : value_eq (Value.Number nan) (Value.Number (- nan)%float) = true)
    by (vm_compute; reflexivity).
  split; [exact H|].
  destruct (value_hash_consistent _ _ H) as [E|[[E _]|[E _]]]; [exact E| |];
    apply (f_equal (fun v => match v with Value.Number x => is_nan x | _ => false end)) in E;
    vm_compute in E; discriminate E.
Defined.


(** cmp_f64 through the keys. *)
Lemma cmp_f64_key (a b : float) :
  is_nan a = false -> is_nan b = false ->
  cmp_f64 a b = lex3 (float_key (Prim2SF a)) (float_key (Prim2SF b)).
Proof.
  intros Ha Hb. apply prim2sf_not_nan in Ha, Hb. unfold cmp_f64.
  rewrite FloatAxioms.compare_spec, sfcompare_key by assumption.
  destruct (lex3 _ _); reflexivity.
Qed.

Lemma cmp_f64_nan_l (a b : float) : is_nan a = true -> cmp_f64 a b = Eq.
Proof.
  intros Ha. apply prim2sf_nan_iff in Ha. unfold cmp_f64.
  rewrite FloatAxioms.compare_spec, Ha. reflexivity.
Qed.

Lemma cmp_f64_nan_r (a b : float) : is_nan b = true -> cmp_f64 a b = Eq.
Proof.
  intros Hb. apply prim2sf_nan_iff in Hb. unfold cmp_f64.
  rewrite FloatAxioms.compare_spec, Hb. destruct (Prim2SF a); reflexivity.
Qed.

Lemma leb_key (a b : float) :
  is_nan a = false -> is_nan b = false ->
  (a <=? b)%float = true <-> lex3 (float_key (Prim2SF a)) (float_key (Prim2SF b)) <> Gt.
Proof.
  intros Ha Hb. apply prim2sf_not_nan in Ha, Hb.
  rewrite FloatAxioms.leb_spec. unfold SFleb. rewrite sfcompare_key by assumption.
  destruct (lex3 _ _); split; congruence.
Qed.


Lemma min_fold_order (xs : list float) (acc : float) :
  Forall (fun x => is_nan x = false) (acc :: xs) ->
  In (fold_left min_by_f64 xs acc) (acc :: xs) /\
  Forall (fun x => lex3 (fkey (fold_left min_by_f64 xs acc)) (fkey x) <> Gt) (acc :: xs).
Proof.
  revert acc. induction xs as [|x xs IH]; intros acc H.
  - simpl. split; [left; reflexivity|]. constructor; [|constructor].
    rewrite (proj2 (lex3_eq_iff _ _) eq_refl). discriminate.
  - inversion H as [|? ? Hacc Hrest]; subst. inversion Hrest as [|? ? Hx Hxs]; subst.
    assert (Ha' : Forall (fun y => is_nan y = false) (acc :: xs)) by (constructor; assumption).
    assert (Hx' : Forall (fun y => is_nan y = false) (x :: xs)) by (constructor; assumption).
    assert (Hm : min_by_f64 acc x = match lex3 (fkey x) (fkey acc) with Lt => x | _ => acc end)
      by (unfold min_by_f64; rewrite cmp_f64_key by assumption; reflexivity).
    simpl fold_left. rewrite Hm.
    destruct (lex3 (fkey x) (fkey acc)) eqn:C.
    + (* Eq: keeps acc *)
      destruct (IH acc Ha') as [Hin Hall].
      split; [destruct Hin; [left|right; right]; assumption|].
      inversion Hall as [|? ? Hm0 Hall']; subst.
      constructor; [exact Hm0|]. constructor; [|exact Hall'].
      apply (lex3_le_trans _ _ _ Hm0). apply lex3_not_lt. rewrite C. discriminate.
    + (* Lt: takes x *)
      destruct (IH x Hx') as [Hin Hall].
      split; [right; exact Hin|].
      inversion Hall as [|? ? Hm0 Hall']; subst.
      constructor; [|constructor; assumption].
      apply (lex3_le_trans _ _ _ Hm0). apply lex3_lt_le, C.
    + destruct (IH acc Ha') as [Hin Hall].
      split; [destruct Hin; [left|right; right]; assumption|].
      inversion Hall as [|? ? Hm0 Hall']; subst.
      constructor; [exact Hm0|]. constructor; [|exact Hall'].
      apply (lex3_le_trans _ _ _ Hm0). apply lex3_not_lt. rewrite C. discriminate.
Qed.

Lemma max_fold_order (xs : list float) (acc : float) :
  Forall (fun x => is_nan x = false) (acc :: xs) ->
  In (fold_left max_by_f64 xs acc) (acc :: xs) /\
  Forall (fun x => lex3 (fkey x) (fkey (fold_left max_by_f64 xs acc)) <> Gt) (acc :: xs).
Proof.
  revert acc. induction xs as [|x xs IH]; intros acc H.
  - simpl. split; [left; reflexivity|]. constructor; [|constructor].
    rewrite (proj2 (lex3_eq_iff _ _) eq_refl). discriminate.
  - inversion H as [|? ? Hacc Hrest]; subst. inversion Hrest as [|? ? Hx Hxs]; subst.
    assert (Ha' : Forall (fun y => is_nan y = false) (acc :: xs)) by (constructor; assumption).
    assert (Hx' : Forall (fun y => is_nan y = false) (x :: xs)) by (constructor; assumption).
    assert (Hm : max_by_f64 acc x = match lex3 (fkey x) (fkey acc) with Lt => acc | _ => x end)
      by (unfold max_by_f64; rewrite cmp_f64_key by assumption; reflexivity).
    simpl fold_left. rewrite Hm.
    destruct (lex3 (fkey x) (fkey acc)) eqn:C.
    + destruct (IH x Hx') as [Hin Hall].
      split; [right; exact Hin|].
      inversion Hall as [|? ? Hm0 Hall']; subst.
      constructor; [|constructor; assumption].
      refine (lex3_le_trans _ _ _ _ Hm0). apply lex3_not_lt. rewrite C. discriminate.
    + destruct (IH acc Ha') as [Hin Hall].
      split; [destruct Hin; [left|right; right]; assumption|].
      inversion Hall as [|? ? Hm0 Hall']; subst.
      constructor; [exact Hm0|]. constructor; [|exact Hall'].
      refine (lex3_le_trans _ _ _ _ Hm0). apply lex3_lt_le, C.
    + destruct (IH x Hx') as [Hin Hall].
      split; [right; exact Hin|].
      inversion Hall as [|? ? Hm0 Hall']; subst.
      constructor; [|constructor; assumption].
      refine (lex3_le_trans _ _ _ _ Hm0). apply lex3_not_lt. rewrite C. discriminate.
Qed.

(** X3: on a column whose numbers are non-empty and free of NaN, [min] and
    [max] return members of those numbers, and every number lies between them. *)
Theorem min_max_order (t : Table) (c : rstring) (col : list Value.t) :
  get_column t c = Some col ->
  numbers col <> [] ->
  Forall (fun x => is_nan x = false) (numbers col) ->
  exists lo hi,
    min t c = Some lo /\ max t c = Some hi /\
    In lo (numbers col) /\ In hi (numbers col) /\
    Forall (fun x => (lo <=? x)%float = true /\ (x <=? hi)%float = true) (numbers col).
Proof.
  intros Hc Hne Hnan. unfold min, max. rewrite Hc.
  destruct (numbers col) as [|x xs] eqn:E; [congruence|]. simpl.
  destruct (min_fold_order xs x Hnan) as [Hin1 Hle1].
  destruct (max_fold_order xs x Hnan) as [Hin2 Hle2].
  exists (fold_left min_by_f64 xs x), (fold_left max_by_f64 xs x).
  split; [reflexivity|]. split; [reflexivity|]. split; [exact Hin1|]. split; [exact Hin2|].
  apply List.Forall_forall. intros y Hy.
  pose proof (proj1 (List.Forall_forall _ _) Hnan _ Hy) as Hny.
  pose proof (proj1 (List.Forall_forall _ _) Hnan _ Hin1) as Hn1.
  pose proof (proj1 (List.Forall_forall _ _) Hnan _ Hin2) as Hn2.
  split; apply leb_key; try assumption.
  - exact (proj1 (List.Forall_forall _ _) Hle1 _ Hy).
  - exact (proj1 (List.Forall_forall _ _) Hle2 _ Hy).
Qed.

Lemma min_max_order_witness :
  exists lo hi,
    min mixed_table (lit "C"%string) = Some lo /\ max mixed_table (lit "C"%string) = Some hi /\
    In lo (numbers mixed_column) /\ In hi (numbers mixed_column) /\
    Forall (fun x => (lo <=? x)%float = true /\ (x <=? hi)%float = true) (numbers mixed_column).
Proof.
  apply (min_max_order mixed_table (lit "C"%string) mixed_column).
  - vm_compute. reflexivity.
  - vm_compute. discriminate.
  - vm_compute. repeat constructor.
Defined.

Lemma min_by_nan_acc (acc y : float) : is_nan acc = true -> min_by_f64 acc y = acc.
Proof. intros H. unfold min_by_f64. rewrite cmp_f64_nan_r by exact H. reflexivity. Qed.

Lemma min_by_not_nan (acc y : float) : is_nan acc = false -> is_nan (min_by_f64 acc y) = false.
Proof.
  intros H. unfold min_by_f64. destruct (is_nan y) eqn:Hy.
  - rewrite cmp_f64_nan_l by exact Hy. exact H.
  - rewrite cmp_f64_key by assumption. destruct (lex3 _ _); assumption.
Qed.

Lemma min_fold_nan (xs : list float) (acc : float) :
  is_nan (fold_left min_by_f64 xs acc) = is_nan acc.
Proof.
  revert acc. induction xs as [|x xs IH]; intros acc; [reflexivity|]. simpl. rewrite IH.
  destruct (is_nan acc) eqn:H.
  - rewrite min_by_nan_acc by exact H. exact H.
  - apply min_by_not_nan, H.
Qed.

Lemma max_by_nan (acc y : float) : is_nan (max_by_f64 acc y) = is_nan y.
Proof.
  unfold max_by_f64. destruct (is_nan y) eqn:Hy.
  - rewrite cmp_f64_nan_l by exact Hy. exact Hy.
  - destruct (is_nan acc) eqn:Ha.
    + rewrite cmp_f64_nan_r by exact Ha. exact Hy.
    + rewrite cmp_f64_key by assumption. destruct (lex3 _ _); congruence.
Qed.

Lemma last_cons_cons {A} (x y : A) (l : list A) (d : A) : List.last (x :: y :: l) d = List.last (y :: l) d.
Proof. reflexivity. Qed.

Lemma last_default {A} (y : A) (l : list A) (d d' : A) : List.last (y :: l) d = List.last (y :: l) d'.
Proof. revert y. induction l as [|z l IH]; intros y; [reflexivity|]. rewrite !last_cons_cons. apply IH. Qed.

Lemma max_fold_nan (xs : list float) (acc : float) :
  is_nan (fold_left max_by_f64 xs acc) = is_nan (List.last (acc :: xs) acc).
Proof.
  revert acc. induction xs as [|x xs IH]; intros acc; [reflexivity|].
  simpl fold_left. rewrite IH. rewrite last_cons_cons.
  destruct xs as [|y xs].
  - simpl. apply max_by_nan.
  - rewrite last_cons_cons. rewrite (last_cons_cons x y xs acc). apply f_equal, last_default.
Qed.

(** X4: on a column whose numbers are [x :: xs], [min] is NaN exactly when
    [x] is (and is then [x]), and [max] is NaN exactly when the last number is. *)
Theorem min_max_nan (t : Table) (c : rstring) (col : list Value.t) (x : float) (xs : list float) :
  get_column t c = Some col ->
  numbers col = x :: xs ->
  (exists lo, min t c = Some lo /\ is_nan lo = is_nan x /\ (is_nan x = true -> lo = x)) /\
  (exists hi, max t c = Some hi /\ is_nan hi = is_nan (List.last (x :: xs) x)).
Proof.
  intros Hc E. unfold min, max. rewrite Hc, E. simpl. split.
  - eexists. split; [reflexivity|]. split; [apply min_fold_nan|].
    intros Hx. clear E. revert x Hx. induction xs as [|y xs IH]; intros x Hx; [reflexivity|].
    simpl. rewrite min_by_nan_acc by exact Hx. apply IH, Hx.
  - eexists. split; [reflexivity|]. apply max_fold_nan.
Qed.

Lemma min_max_nan_witness :
  (exists lo, min nan_table (lit "C"%string) = Some lo /\ is_nan lo = is_nan nan /\
     (is_nan nan = true -> lo = nan)) /\
  (exists hi, max nan_table (lit "C"%string) = Some hi /\
     is_nan hi = is_nan (List.last [nan; 1%float] nan)).
Proof.
  apply (min_max_nan nan_table (lit "C"%string) nan_column nan [1%float]);
    vm_compute; reflexivity.
Defined.

(** ** The tokenizer and [evaluate_divide] *)

Lemma take_while_fst_all (p : rchar -> bool) (cs : rstring) :
  Forall (fun c => p c = true) (fst (take_while p cs)).
Proof.
  induction cs as [|c cs IH]; simpl; [constructor|].
  destruct (p c) eqn:Hc; [|constructor].
  destruct (take_while p cs) as [a b]; simpl in *. constructor; assumption.
Qed.

Lemma take_while_all_app (p : rchar -> bool) (s rest : rstring) :
  Forall (fun c => p c = true) s ->
  take_while p (s ++ rest) = (s ++ fst (take_while p rest), snd (take_while p rest)).
Proof.
  induction 1 as [|c s Hc _ IH].
  - simpl. destruct (take_while p rest); reflexivity.
  - simpl. rewrite Hc, IH. reflexivity.
Qed.

Lemma letter_not_special (c : rchar) :
  is_ascii_letter c = true ->
  is_digit10 c = false /\ (c =? 91)%N = false /\ (c =? 40)%N = false /\
  (c =? 41)%N = false /\ (c =? 44)%N = false /\
  ((c =? 43)%N || (c =? 45)%N || (c =? 42)%N || (c =? 47)%N) = false /\
  ((c =? 32)%N || (c =? 9)%N || (c =? 10)%N || (c =? 13)%N) = false.
Proof.
  unfold is_ascii_letter, is_digit10. intros H.
  assert (Hr : (65 <= c <= 90 \/ 97 <= c <= 122)%N).
  { apply orb_true_iff in H as [H|H]; apply andb_true_iff in H as [H1 H2];
      apply N.leb_le in H1, H2; lia. }
  assert (Hne : forall k, (k < 65)%N \/ (90 < k < 97)%N \/ (122 < k)%N -> (c =? k)%N = false).
  { intros k Hk. apply N.eqb_neq. lia. }
  rewrite !Hne by lia. repeat split.
  apply andb_false_iff. destruct (N.leb_spec c 57); [left; apply N.leb_gt; lia|right; reflexivity].
Qed.

(** One iteration of [tokenize] at a ['[']. *)
Lemma tokenize_bracket (ua : rchar -> bool) (rest : rstring) :
  tokenize ua (91%N :: rest) =
    DaxToken.Column (fst (take_while (fun c => negb (c =? 93)%N) rest))
    :: tokenize ua (List.tl (snd (take_while (fun c => negb (c =? 93)%N) rest))).
Proof.
  pose proof (take_while_length (fun c => negb (c =? 93)%N) rest) as Hl.
  unfold tokenize at 1. simpl length. remember (S (length rest)) as n eqn:En.
  cbn [tokenize_go]. simpl is_digit10. cbn iota.
  change (91 =? 91)%N with true. cbn iota.
  destruct (take_while _ rest) as [column cs'] eqn:E. simpl in *.
  f_equal. apply tokenize_go_enough. destruct cs'; simpl in *; lia.
Qed.

(** One iteration of [tokenize] at an ASCII letter. *)
Lemma tokenize_letter (ua : rchar -> bool) (c : rchar) (rest : rstring) :
  is_ascii_letter c = true ->
  tokenize ua (c :: rest) =
    DaxToken.Function (fst (take_while (is_alphabetic ua) (c :: rest)))
    :: tokenize ua (snd (take_while (is_alphabetic ua) (c :: rest))).
Proof.
  intros Hl. destruct (letter_not_special c Hl) as (H1 & H2 & H3 & H4 & H5 & H6 & H7).
  assert (Hlen : (length (snd (take_while (is_alphabetic ua) (c :: rest))) < S (length rest))%nat).
  { apply take_while_cons_length, ascii_letter_alphabetic, Hl. }
  unfold tokenize at 1. simpl length. remember (S (length rest)) as n eqn:En.
  cbn [tokenize_go]. rewrite H1, H2, H3, H4, H5, H6, H7, Hl.
  destruct (take_while _ (c :: rest)) as [function cs'] eqn:E. simpl in *.
  f_equal. apply tokenize_go_enough. lia.
Qed.

(** X5: ['['], chars without [']'] and [']'] give one [Column] token of those
    chars, followed by the tokens of the rest; an unclosed ['['] makes the
    rest of the input the column name. *)
Theorem tokenize_column (ua : rchar -> bool) (s rest : rstring) :
  ~ In 93%N s ->
  tokenize ua (91%N :: s ++ 93%N :: rest) = DaxToken.Column s :: tokenize ua rest /\
  tokenize ua (91%N :: s) = [DaxToken.Column s].
Proof.
  intros Hs.
  assert (Hall : Forall (fun c => negb (c =? 93)%N = true) s).
  { apply List.Forall_forall. intros x Hx. apply negb_true_iff, N.eqb_neq. intros ->. contradiction. }
  split.
  - rewrite tokenize_bracket, take_while_all_app by exact Hall. simpl. rewrite app_nil_r. reflexivity.
  - rewrite <- (app_nil_r s) at 1. rewrite tokenize_bracket, take_while_all_app by exact Hall.
    simpl. rewrite app_nil_r. reflexivity.
Qed.

Lemma tokenize_column_witness :
  tokenize no_unicode_alphabetic (91%N :: lit "Sales"%string ++ 93%N :: lit ")"%string) =
    DaxToken.Column (lit "Sales"%string) :: tokenize no_unicode_alphabetic (lit ")"%string) /\
  tokenize no_unicode_alphabetic (91%N :: lit "Sales"%string) = [DaxToken.Column (lit "Sales"%string)].
Proof.
  apply tokenize_column. intros H. vm_compute in H. lia.
Defined.

(** X6: at an ASCII letter the tokenizer emits one [Function] token of the
    maximal run of alphabetic chars starting there, and goes on after it. *)
Theorem tokenize_function (ua : rchar -> bool) (c : rchar) (rest : rstring) :
  is_ascii_letter c = true ->
  let name := fst (take_while (is_alphabetic ua) (c :: rest)) in
  let rest' := snd (take_while (is_alphabetic ua) (c :: rest)) in
  c :: rest = name ++ rest' /\
  (exists r, name = c :: r) /\
  (forall d r, rest' = d :: r -> is_alphabetic ua d = false) /\
  tokenize ua (c :: rest) = DaxToken.Function name :: tokenize ua rest'.
Proof.
  intros Hl name rest'. split; [|split; [|split]].
  - symmetry. apply take_while_app.
  - subst name. simpl. rewrite (ascii_letter_alphabetic ua c Hl).
    destruct (take_while _ rest). eexists. reflexivity.
  - intros d r E. exact (take_while_maximal _ _ d r E).
  - apply tokenize_letter, Hl.
Qed.

Lemma tokenize_function_witness :
  tokenize no_unicode_alphabetic (lit "SUM([A])"%string) =
    DaxToken.Function (lit "SUM"%string) :: tokenize no_unicode_alphabetic (lit "([A])"%string).
Proof.
  destruct (tokenize_function no_unicode_alphabetic 83%N (lit "UM([A])"%string))
    as (_ & _ & _ & H); [reflexivity|exact H].
Defined.

Lemma tokenize_go_shapes (ua : rchar -> bool) (fuel : nat) (cs : rstring) :
  Forall (token_shape ua) (tokenize_go ua fuel cs).
Proof.
  revert cs. induction fuel as [|fuel IH]; intros cs; [constructor|].
  destruct cs as [|c rest]; [constructor|]. cbn [tokenize_go].
  destruct (is_digit10 c) eqn:Hd.
  { pose proof (take_while_fst_all digit_or_dot (c :: rest)) as Hall.
    assert (Hhd : exists r, fst (take_while digit_or_dot (c :: rest)) = c :: r).
    { simpl. unfold digit_or_dot at 1. rewrite Hd. simpl.
      destruct (take_while _ rest). eexists. reflexivity. }
    destruct (take_while _ (c :: rest)) as [num cs'] eqn:E. simpl in Hall, Hhd.
    destruct (parse_f64 num) eqn:Hp; [|apply IH].
    constructor; [|apply IH]. exists num. split; [exact Hp|]. split.
    - destruct Hhd as [r ->]. eauto.
    - apply forallb_forall. intros x Hx. exact (proj1 (List.Forall_forall _ _) Hall x Hx). }
  destruct (c =? 91)%N.
  { pose proof (take_while_fst_all (fun c => negb (c =? 93)%N) rest) as Hall.
    destruct (take_while _ rest) as [column cs'] eqn:E. simpl in Hall.
    constructor; [|apply IH]. simpl. intros Hin.
    pose proof (proj1 (List.Forall_forall _ _) Hall _ Hin) as H. simpl in H. discriminate. }
  destruct (c =? 40)%N; [constructor; [exact I|apply IH]|].
  destruct (c =? 41)%N; [constructor; [exact I|apply IH]|].
  destruct (c =? 44)%N; [constructor; [exact I|apply IH]|].
  destruct ((c =? 43)%N || (c =? 45)%N || (c =? 42)%N || (c =? 47)%N) eqn:Hop.
  { constructor; [|apply IH]. simpl.
    repeat rewrite orb_true_iff in Hop. rewrite !N.eqb_eq in Hop.
    destruct Hop as [[[->| ->]| ->]| ->]; simpl; tauto. }
  destruct ((c =? 32)%N || (c =? 9)%N || (c =? 10)%N || (c =? 13)%N);
    [constructor; [exact I|apply IH]|].
  destruct (is_ascii_letter c) eqn:Hl; [|apply IH].
  pose proof (take_while_fst_all (is_alphabetic ua) (c :: rest)) as Hall.
  assert (Hhd : exists r, fst (take_while (is_alphabetic ua) (c :: rest)) = c :: r).
  { simpl. rewrite (ascii_letter_alphabetic ua c Hl).
    destruct (take_while _ rest). eexists. reflexivity. }
  destruct (take_while _ (c :: rest)) as [function cs'] eqn:E. simpl in Hall, Hhd.
  constructor; [|apply IH]. split.
  - destruct Hhd as [r ->]. eauto.
  - apply forallb_forall. intros x Hx. exact (proj1 (List.Forall_forall _ _) Hall x Hx).
Qed.

(** X7: every token [tokenize] emits has the shape of its rule: a function
    name starts with an ASCII letter and is alphabetic, a column name holds
    no [']'], an operator is one of [+ - * /], and a number is the value of a
    digit/dot run starting with a digit. *)
Theorem tokenize_token_shapes (ua : rchar -> bool) (s : rstring) :
  Forall (token_shape ua) (tokenize ua s).
Proof. apply tokenize_go_shapes. Qed.

Lemma tokenize_token_shapes_witness :
  Forall (token_shape no_unicode_alphabetic)
    (tokenize no_unicode_alphabetic (lit "SUM([Sales]) + 1.5"%string)).
Proof. exact (tokenize_token_shapes no_unicode_alphabetic (lit "SUM([Sales]) + 1.5"%string)). Defined.

(** At most one token per input char. *)
Lemma tokenize_go_length (ua : rchar -> bool) (fuel : nat) (cs : rstring) :
  (length (tokenize_go ua fuel cs) <= length cs)%nat.
Proof.
  revert cs. induction fuel as [|fuel IH]; intros cs; [simpl; lia|].
  destruct cs as [|c rest]; [simpl; lia|]. cbn [tokenize_go].
  destruct (is_digit10 c) eqn:Hd.
  { assert (Hl : (length (snd (take_while digit_or_dot (c :: rest))) < S (length rest))%nat).
    { apply take_while_cons_length. unfold digit_or_dot. now rewrite Hd. }
    destruct (take_while _ (c :: rest)) as [num cs'] eqn:E. simpl in Hl.
    destruct (parse_f64 num); simpl; specialize (IH cs'); simpl; lia. }
  destruct (c =? 91)%N.
  { pose proof (take_while_length (fun c => negb (c =? 93)%N) rest) as Hl.
    destruct (take_while _ rest) as [column cs'] eqn:E. simpl in Hl |- *.
    specialize (IH (List.tl cs')). destruct cs'; simpl in *; lia. }
  destruct (c =? 40)%N; [simpl; specialize (IH rest); lia|].
  destruct (c =? 41)%N; [simpl; specialize (IH rest); lia|].
  destruct (c =? 44)%N; [simpl; specialize (IH rest); lia|].
  destruct ((c =? 43)%N || (c =? 45)%N || (c =? 42)%N || (c =? 47)%N);
    [simpl; specialize (IH rest); lia|].
  destruct ((c =? 32)%N || (c =? 9)%N || (c =? 10)%N || (c =? 13)%N);
    [simpl; specialize (IH rest); lia|].
  destruct (is_ascii_letter c) eqn:Hl; [|simpl; specialize (IH rest); lia].
  assert (Hlen : (length (snd (take_while (is_alphabetic ua) (c :: rest))) < S (length rest))%nat).
  { apply take_while_cons_length, ascii_letter_alphabetic, Hl. }
  destruct (take_while _ (c :: rest)) as [function cs'] eqn:E. simpl in Hlen |- *.
  specialize (IH cs'). lia.
Qed.

(** X8: [tokenize] emits at most one token per char of its input. *)
Theorem tokenize_length (ua : rchar -> bool) (s : rstring) :
  (length (tokenize ua s) <= length s)%nat.
Proof. apply tokenize_go_length. Qed.

Lemma tokenize_length_witness :
  (length (tokenize no_unicode_alphabetic (lit "SUM([Sales])"%string)) <=
   length (lit "SUM([Sales])"%string))%nat.
Proof. exact (tokenize_length no_unicode_alphabetic (lit "SUM([Sales])"%string)). Defined.

Lemma evaluate_short (ua : rchar -> bool) (h : Hasher) (t : Table) (s : rstring) :
  (length (tokenize ua s) <= 1)%nat ->
  exists m, evaluate_dax ua h t s = DaxResult.Error m.
Proof.
  unfold evaluate_dax. destruct (tokenize ua s) as [|tok [|tok' toks]]; simpl; intros H;
    [eexists; reflexivity| |lia].
  destruct tok; try (eexists; reflexivity).
  destruct (recognize name); eexists; reflexivity.
Qed.

Lemma tokenize_letters (ua : rchar -> bool) (name : rstring) :
  name <> [] -> Forall (fun c => is_ascii_letter c = true) name ->
  tokenize ua name = [DaxToken.Function name].
Proof.
  intros Hne Hall. destruct name as [|c r]; [congruence|].
  inversion Hall as [|? ? Hc Hr]; subst.
  rewrite tokenize_letter by exact Hc.
  assert (Hal : Forall (fun x => is_alphabetic ua x = true) (c :: r)).
  { apply List.Forall_forall. intros x Hx. apply ascii_letter_alphabetic.
    exact (proj1 (List.Forall_forall _ _) Hall x Hx). }
  assert (Ht : take_while (is_alphabetic ua) (@cons rchar c r) = (c :: r, [])).
  { pose proof (take_while_all_app _ _ [] Hal) as E. rewrite app_nil_r in E.
    simpl in E. rewrite app_nil_r in E. exact E. }
  rewrite Ht. reflexivity.
Qed.

(** X9: [evaluate_divide] rejects fewer than 2 or more than 3 arguments, and
    with a valid count it fails on a numerator that is not a number: an
    operator, comma, parenthesis or whitespace token, or a function or column
    token of one or more ASCII letters. *)
Theorem evaluate_divide_errors (ua : rchar -> bool) (h : Hasher) (display_f64 : float -> rstring)
    (t : Table) (args : list DaxToken.t) :
  ((length args < 2)%nat \/ (3 < length args)%nat ->
   evaluate_divide ua h display_f64 t args = Err (lit "DIVIDE requires 2 or 3 arguments"%string)) /\
  (forall arg0 rest, args = arg0 :: rest -> (1 <= length rest <= 2)%nat ->
   match arg0 with
   | DaxToken.Function name | DaxToken.Column name =>
       name <> [] /\ Forall (fun c => is_ascii_letter c = true) name
   | DaxToken.Number _ => False
   | _ => True
   end ->
   evaluate_divide ua h display_f64 t args = Err (lit "Numerator must be a number"%string)).
Proof.
  split.
  - intros H. unfold evaluate_divide.
    replace ((length args <? 2)%nat || (3 <? length args)%nat) with true; [reflexivity|].
    symmetry. apply orb_true_iff. destruct H; [left|right]; apply Nat.ltb_lt; lia.
  - intros arg0 rest -> Hlen Harg. unfold evaluate_divide.
    replace ((length (arg0 :: rest) <? 2)%nat || (3 <? length (arg0 :: rest))%nat) with false
      by (symmetry; apply orb_false_iff; split; apply Nat.ltb_ge; simpl; lia).
    simpl nth.
    assert (He : exists m, evaluate_dax ua h t (token_to_string display_f64 arg0) = DaxResult.Error m).
    { apply evaluate_short.
      destruct arg0; simpl in Harg; try contradiction;
        first
          [ destruct Harg as [Hne Hall]; simpl; rewrite tokenize_letters by assumption; simpl; lia
          | simpl; lia
          | apply (Nat.le_trans _ _ _ (tokenize_go_length ua _ _)); simpl; lia ]. }
    destruct He as [m ->]. reflexivity.
Qed.

(** The numerator fails before any argument is formatted, so the [f64]
    formatter of this instance is never called. *)
Lemma evaluate_divide_errors_witness :
  evaluate_divide no_unicode_alphabetic fnv1a (fun _ : float => @nil rchar) basic_table
    [DaxToken.Column (lit "Sales"%string); DaxToken.Number 2%float] =
  Err (lit "Numerator must be a number"%string).
Proof.
  apply (proj2 (evaluate_divide_errors no_unicode_alphabetic fnv1a (fun _ : float => @nil rchar)
           basic_table [DaxToken.Column (lit "Sales"%string); DaxToken.Number 2%float])
           (DaxToken.Column (lit "Sales"%string)) [DaxToken.Number 2%float] eq_refl).
  - simpl. lia.
  - split; [discriminate|repeat constructor].
Defined.

(** X10: [divide] returns the alternate result when the denominator is [0.0]
    or [-0.0], and [Some (n / d)] for every other denominator, NaN included. *)
Theorem divide_zero_test (t : Table) (n d : float) (alt : option float) :
  ((d = zero \/ d = neg_zero) -> divide t n d alt = alt) /\
  (d <> zero -> d <> neg_zero -> divide t n d alt = Some (n / d)%float).
Proof.
  split.
  - intros [-> | ->]; unfold divide.
    + replace (PrimFloat.eqb zero zero) with true by (vm_compute; reflexivity). reflexivity.
    + replace (PrimFloat.eqb neg_zero zero) with true by (vm_compute; reflexivity). reflexivity.
  - intros H0 H1. unfold divide. destruct (PrimFloat.eqb d zero) eqn:E; [|reflexivity].
    exfalso. rewrite FloatAxioms.eqb_spec, prim2sf_zero in E. unfold SFeqb in E.
    destruct (Prim2SF d) as [s|s| |s m e] eqn:Ed; try (destruct s); simpl in E; try discriminate.
    + apply H1. apply Prim2SF_inj. rewrite Ed, prim2sf_neg_zero. reflexivity.
    + apply H0. apply Prim2SF_inj. rewrite Ed, prim2sf_zero. reflexivity.
Qed.

Lemma divide_zero_test_witness :
  divide basic_table 1%float neg_zero (Some 5%float) = Some 5%float.
Proof.
  apply (proj1 (divide_zero_test basic_table 1%float neg_zero (Some 5%float))).
  right. reflexivity.
Defined.

(** ** [eval_dax], [dispatch], [average] and the [table!] macro *)

Lemma scan_number_or_error (h : Hasher) (t : Table) (st : ScanState) (toks : list DaxToken.t) :
  (exists n, scan h t st toks = DaxResult.Number n) \/
  (exists m, scan h t st toks = DaxResult.Error m).
Proof.
  assert (Hd : forall f col, (exists n, dispatch h t f col = DaxResult.Number n) \/
                             (exists m, dispatch h t f col = DaxResult.Error m)).
  { intros f col. unfold dispatch.
    destruct f;
      [destruct (sum t col) | destruct (average t col) | destruct (min t col)
      | destruct (max t col) | destruct (distinctcount h t col)];
      eauto. }
  revert st. induction toks as [|tok toks IH]; intros st.
  - right. eexists. reflexivity.
  - destruct st as [|f]; simpl.
    + destruct tok; try apply IH.
      destruct (recognize name) as [f|]; [apply IH|]. right. eexists. reflexivity.
    + destruct tok; try apply IH. apply Hd.
Qed.

(** X11: [eval_dax] maps [Number] to [Ok] and [Error] to [Err], and never
    returns [Ok] of a [Text] or [Boolean]. *)
Theorem eval_dax_result (ua : rchar -> bool) (h : Hasher) (t : Table) (s : rstring) :
  (forall n, evaluate_dax ua h t s = DaxResult.Number n -> eval_dax ua h t s = Ok (DaxValue.Number n)) /\
  (forall m, evaluate_dax ua h t s = DaxResult.Error m -> eval_dax ua h t s = Err m) /\
  (forall v, eval_dax ua h t s = Ok v -> exists n, v = DaxValue.Number n).
Proof.
  unfold eval_dax. split; [|split].
  - intros n ->. reflexivity.
  - intros m ->. reflexivity.
  - intros v. unfold evaluate_dax.
    destruct (scan_number_or_error h t Outer (tokenize ua s)) as [[n E]|[m E]]; rewrite E;
      intros Hv; inversion Hv; eauto.
Qed.

Lemma eval_dax_result_witness :
  eval_dax no_unicode_alphabetic fnv1a basic_table (lit "SUM([Sales])"%string) =
  Ok (DaxValue.Number 600%float).
Proof.
  apply (proj1 (eval_dax_result no_unicode_alphabetic fnv1a basic_table (lit "SUM([Sales])"%string))).
  vm_compute. reflexivity.
Defined.

Lemma recognize_name (name : rstring) (f : DaxFunction) :
  recognize name = Some f ->
  name = lit match f with
             | SUM => "SUM" | AVERAGE => "AVERAGE" | MIN => "MIN" | MAX => "MAX"
             | DISTINCTCOUNT => "DISTINCTCOUNT" end%string.
Proof.
  unfold recognize.
  destruct (rstring_eqb name (lit "SUM"%string)) eqn:E1;
    [intros H; injection H as <-; apply rstring_eqb_eq; exact E1|].
  destruct (rstring_eqb name (lit "AVERAGE"%string)) eqn:E2;
    [intros H; injection H as <-; apply rstring_eqb_eq; exact E2|].
  destruct (rstring_eqb name (lit "MIN"%string)) eqn:E3;
    [intros H; injection H as <-; apply rstring_eqb_eq; exact E3|].
  destruct (rstring_eqb name (lit "MAX"%string)) eqn:E4;
    [intros H; injection H as <-; apply rstring_eqb_eq; exact E4|].
  destruct (rstring_eqb name (lit "DISTINCTCOUNT"%string)) eqn:E5;
    [intros H; injection H as <-; apply rstring_eqb_eq; exact E5|].
  discriminate.
Qed.

(** X12: once a recognised function reaches its column: a missing column
    gives [Error("Could not calculate <name> for column <col>")]; MIN and MAX
    give that error also on a column without numbers; in every other case
    the result is a [Number]. *)
Theorem dispatch_column_result (h : Hasher) (t : Table) (name col : rstring) (f : DaxFunction) :
  recognize name = Some f ->
  let msg := lit "Could not calculate "%string ++ name ++ lit " for column "%string ++ col in
  (get_column t col = None -> dispatch h t f col = DaxResult.Error msg) /\
  (forall vs, get_column t col = Some vs ->
     (f = MIN \/ f = MAX) -> numbers vs = [] -> dispatch h t f col = DaxResult.Error msg) /\
  (forall vs, get_column t col = Some vs ->
     (f <> MIN /\ f <> MAX) \/ numbers vs <> [] -> exists n, dispatch h t f col = DaxResult.Number n).
Proof.
  intros Hf msg. apply recognize_name in Hf. subst name msg. split; [|split].
  - intros Hc. unfold dispatch, sum, average, min, max, distinctcount.
    rewrite Hc. destruct f; reflexivity.
  - intros vs Hc [-> | ->] Hn; unfold dispatch, min, max; rewrite Hc, Hn; reflexivity.
  - intros vs Hc Hcase. unfold dispatch, sum, average, min, max, distinctcount. rewrite Hc.
    destruct f; simpl.
    + eauto.
    + destruct (average_loop vs) as [s c]. destruct (0 <? c); eauto.
    + destruct Hcase as [[H _]|Hn]; [congruence|].
      destruct (numbers vs); [congruence|]. simpl. eauto.
    + destruct Hcase as [[_ H]|Hn]; [congruence|].
      destruct (numbers vs); [congruence|]. simpl. eauto.
    + eauto.
Qed.

Lemma dispatch_column_result_witness :
  dispatch fnv1a basic_table MIN (lit "Missing"%string) =
  DaxResult.Error (lit "Could not calculate "%string ++ lit "MIN"%string ++
                   lit " for column "%string ++ lit "Missing"%string).
Proof.
  refine (proj1 (dispatch_column_result fnv1a basic_table (lit "MIN"%string) (lit "Missing"%string)
                   MIN _) _); vm_compute; reflexivity.
Defined.

Lemma average_loop_no_numbers (vs : list Value.t) (acc : float * Z) :
  numbers vs = [] ->
  fold_left (fun '(sum, count) value =>
      match value with
      | Value.Number n => ((sum + n)%float, wrap_i32 (count + 1))
      | _ => (sum, count)
      end) vs acc = acc.
Proof.
  revert acc. induction vs as [|v vs IH]; intros [s c] Hn; [reflexivity|].
  destruct v; simpl in Hn |- *; try discriminate; apply IH, Hn.
Qed.

(** X13: [average] of an existing column without numbers is [Some 0.0]. *)
Theorem average_no_numbers (t : Table) (col : rstring) (vs : list Value.t) :
  get_column t col = Some vs -> numbers vs = [] -> average t col = Some zero.
Proof.
  intros Hc Hn. unfold average. rewrite Hc. unfold average_loop.
  rewrite average_loop_no_numbers by exact Hn. reflexivity.
Qed.

Lemma average_no_numbers_witness : average text_table (lit "T"%string) = Some zero.
Proof.
  apply (average_no_numbers text_table (lit "T"%string) text_column); vm_compute; reflexivity.
Defined.

(** X14: [Table::new()] has no column; after [add_column t name vs],
    [get_column name] is [Some vs] and the other columns are unchanged. *)
Theorem add_column_get (t : Table) (name name' : rstring) (vs : list Value.t) :
  get_column Table_new name = None /\
  get_column (add_column t name vs) name = Some vs /\
  (name' <> name -> get_column (add_column t name vs) name' = get_column t name').
Proof.
  unfold get_column, add_column, Table_new. simpl. split; [|split].
  - apply lookup_empty.
  - apply lookup_insert_eq.
  - intros Hne. apply lookup_insert_ne. congruence.
Qed.

Lemma add_column_get_witness :
  get_column (add_column basic_table (lit "X"%string) [Value.Null]) (lit "Sales"%string) =
  get_column basic_table (lit "Sales"%string).
Proof.
  apply (proj2 (proj2 (add_column_get basic_table (lit "X"%string) (lit "Sales"%string) [Value.Null]))).
  vm_compute. discriminate.
Defined.

Lemma fold_add_other (entries : list (rstring * list Value.t)) (t : Table) (name : rstring) :
  ~ In name (map fst entries) ->
  get_column (fold_left add_entry entries t) name = get_column t name.
Proof.
  revert t. induction entries as [|[n vs] entries IH]; intros t Hn; [reflexivity|].
  simpl in Hn |- *. rewrite IH by tauto. unfold get_column, add_column. simpl.
  apply lookup_insert_ne. intros ->. tauto.
Qed.

Lemma fold_add_last (pre post : list (rstring * list Value.t)) (t : Table)
    (name : rstring) (vs : list Value.t) :
  ~ In name (map fst post) ->
  get_column (fold_left add_entry (pre ++ (name, vs) :: post) t) name = Some vs.
Proof.
  intros Hn. rewrite fold_left_app. simpl. rewrite fold_add_other by exact Hn.
  unfold get_column, add_column. simpl. apply lookup_insert_eq.
Qed.

(** X15: in the table [table!] builds, a column holds the values of the last
    entry with its name, and a name of no entry has no column. *)
Theorem table_macro_columns (entries pre post : list (rstring * list Value.t))
    (name : rstring) (vs : list Value.t) :
  (entries = pre ++ (name, vs) :: post -> ~ In name (map fst post) ->
   get_column (table_macro entries) name = Some vs) /\
  (~ In name (map fst entries) -> get_column (table_macro entries) name = None).
Proof.
  unfold table_macro. change (fun table '(name, values) => add_column table name values) with add_entry.
  split.
  - intros -> Hn. apply fold_add_last, Hn.
  - intros Hn. rewrite fold_add_other by exact Hn. apply lookup_empty.
Qed.

Lemma table_macro_columns_witness :
  get_column (table_macro [(lit "a"%string, [Value.Null]); (lit "b"%string, [Value.Number 1%float]);
                           (lit "a"%string, [Value.Boolean true])]) (lit "a"%string) =
  Some [Value.Boolean true].
Proof.
  apply (proj1 (table_macro_columns
    [(lit "a"%string, [Value.Null]); (lit "b"%string, [Value.Number 1%float]);
     (lit "a"%string, [Value.Boolean true])]
    [(lit "a"%string, [Value.Null]); (lit "b"%string, [Value.Number 1%float])] []
    (lit "a"%string) [Value.Boolean true])).
  - reflexivity.
  - simpl. tauto.
Defined.

(** ** [read_csv] and [parse_value] *)

Lemma read_row_gen (vs : list rstring) (m : nat) (columns : list (list Value.t)) :
  length (fold_left read_row_step (combine (seq m (length vs)) vs) columns) = length columns /\
  forall j, (j < length columns)%nat ->
    nth j (fold_left read_row_step (combine (seq m (length vs)) vs) columns) [] =
    nth j columns [] ++
      (if (m <=? j)%nat then match nth_error vs (j - m) with
                             | Some v => [parse_value v] | None => [] end
       else []).
Proof.
  revert m columns. induction vs as [|v vs IH]; intros m columns.
  - simpl. split; [reflexivity|]. intros j _. destruct (m <=? j)%nat;
      [destruct (j - m)%nat|]; rewrite app_nil_r; reflexivity.
  - cbn [length]. rewrite <- cons_seq. cbn [combine fold_left].
    set (c' := read_row_step columns (m, v)).
    assert (Hl : length c' = length columns).
    { unfold c', read_row_step. destruct (m <? length columns)%nat; [apply length_insert|reflexivity]. }
    destruct (IH (S m) c') as [IH1 IH2]. split; [rewrite IH1; exact Hl|].
    intros j Hj. rewrite IH2 by lia.
    destruct (Nat.eq_dec j m) as [->|Hne].
    + rewrite Nat.leb_refl, Nat.sub_diag. cbn [nth_error].
      replace (S m <=? m)%nat with false by (symmetry; apply Nat.leb_gt; lia).
      rewrite app_nil_r. unfold c', read_row_step.
      replace (m <? length columns)%nat with true by (symmetry; apply Nat.ltb_lt; lia).
      apply nth_lookup_Some, list_lookup_insert_eq. exact Hj.
    + assert (Hc : nth j c' [] = nth j columns []).
      { unfold c', read_row_step. destruct (m <? length columns)%nat; [|reflexivity].
        rewrite !nth_lookup, list_lookup_insert_ne by congruence. reflexivity. }
      rewrite Hc. f_equal.
      destruct (Nat.leb_spec (S m) j); destruct (Nat.leb_spec m j); try lia; [|reflexivity].
      replace (j - m)%nat with (S (j - S m)) by lia. reflexivity.
Qed.

Lemma read_row_spec (columns : list (list Value.t)) (values : list rstring) :
  length (read_row columns values) = length columns /\
  forall j, (j < length columns)%nat ->
    nth j (read_row columns values) [] =
    nth j columns [] ++ match nth_error values j with
                        | Some v => [parse_value v] | None => [] end.
Proof.
  unfold read_row. change (fun columns '(j, value) =>
      if (j <? length columns)%nat
      then <[j := nth j columns [] ++ [parse_value value]]> columns
      else columns) with read_row_step.
  destruct (read_row_gen values 0 columns) as [H1 H2]. split; [exact H1|].
  intros j Hj. rewrite H2 by exact Hj. simpl. rewrite Nat.sub_0_r. reflexivity.
Qed.

Lemma read_lines_rows {E} (rows : list rstring) (i : nat) (headers : list rstring)
    (columns : list (list Value.t)) :
  exists columns',
    read_lines (E := E) (S i) (map Ok rows) headers columns = Ok (headers, columns') /\
    length columns' = length columns /\
    forall j, (j < length columns)%nat ->
      nth j columns' [] = nth j columns [] ++ map parse_value (csv_field_column j rows).
Proof.
  revert i columns. induction rows as [|r rows IH]; intros i columns.
  - exists columns. simpl. split; [reflexivity|]. split; [reflexivity|].
    intros j _. rewrite app_nil_r. reflexivity.
  - simpl. destruct (read_row_spec columns (split_char 44%N r)) as [H1 H2].
    destruct (IH (S i) (read_row columns (split_char 44%N r))) as (c' & E1 & E2 & E3).
    exists c'. split; [exact E1|]. split; [rewrite E2; exact H1|].
    intros j Hj. rewrite E3 by lia. rewrite H2 by exact Hj.
    rewrite <- app_assoc. f_equal.
    destruct (nth_error (split_char 44%N r) j); reflexivity.
Qed.

Lemma map_fst_combine {A B} (l : list A) (l' : list B) :
  length l = length l' -> map fst (combine l l') = l.
Proof.
  revert l'. induction l as [|x l IH]; intros [|y l'] H; simpl in *; try discriminate; [reflexivity|].
  f_equal. apply IH. lia.
Qed.

Lemma split_char_nonempty (sep : rchar) (s : rstring) : split_char sep s <> [].
Proof.
  destruct s as [|c s]; simpl; [discriminate|].
  destruct (c =? sep)%N; [discriminate|]. destruct (split_char sep s); discriminate.
Qed.

Lemma nth_error_combine {A B} (l : list A) (l' : list B) (j : nat) :
  nth_error (combine l l') j =
    match nth_error l j, nth_error l' j with Some x, Some y => Some (x, y) | _, _ => None end.
Proof.
  revert l' j. induction l as [|x l IH]; intros [|y l'] [|j]; simpl; try reflexivity.
  - destruct (nth_error l j); reflexivity.
  - apply IH.
Qed.

Lemma read_lines_error {E} (pre : list rstring) (e : E) (post : list (result rstring E)) :
  forall i headers columns,
  read_lines i (map Ok pre ++ Err e :: post) headers columns = Err e.
Proof.
  induction pre as [|r pre IH]; intros i headers columns; [reflexivity|].
  simpl. destruct (i =? 0)%nat; apply IH.
Qed.

(** X16: [read_csv] turns a failed open, or the first line that fails to
    read, into [DaxError::IoError]; an empty file gives the empty table. *)
Theorem read_csv_io_errors (E : Type) :
  (forall e : E, read_csv (Err e) = Err (DaxError.IoError e)) /\
  (forall (pre : list rstring) (e : E) post,
     read_csv (Ok (map Ok pre ++ Err e :: post)) = Err (DaxError.IoError e)) /\
  read_csv (E := E) (Ok []) = Ok Table_new.
Proof.
  split; [|split].
  - reflexivity.
  - intros pre e post. unfold read_csv. rewrite read_lines_error. reflexivity.
  - reflexivity.
Qed.

Lemma read_csv_io_errors_witness :
  read_csv (Ok [Ok (lit "a,b"%string); Err tt; Ok (lit "1,2"%string)]) = Err (DaxError.IoError tt).
Proof. exact (proj1 (proj2 (read_csv_io_errors unit)) [lit "a,b"%string] tt [Ok (lit "1,2"%string)]). Defined.

(** X17: [read_csv] of a header line and data rows succeeds; the column of a
    header at position [j] (not repeated later in the header) holds the
    parsed [j]-th fields of the rows that have one, and a name not in the
    header has no column. *)
Theorem read_csv_columns (E : Type) (header : rstring) (rows : list rstring) :
  let headers := split_char 44%N header in
  exists table,
    read_csv (E := E) (Ok (Ok header :: map Ok rows)) = Ok table /\
    (forall j name, nth_error headers j = Some name -> ~ In name (skipn (S j) headers) ->
       get_column table name = Some (map parse_value (csv_field_column j rows))) /\
    (forall name, ~ In name headers -> get_column table name = None).
Proof.
  intros headers. unfold read_csv. cbn [read_lines Nat.eqb]. fold headers.
  destruct (read_lines_rows (E := E) rows 0 headers (repeat [] (length headers)))
    as (c' & E1 & E2 & E3).
  rewrite E1. eexists. split; [reflexivity|].
  change (fun table '(header, column) => add_column table header column) with add_entry.
  rewrite repeat_length in E2.
  assert (Hfst : map fst (combine headers c') = headers) by (apply map_fst_combine; lia).
  split.
  - intros j name Hj Hn.
    assert (Hlt : (j < length headers)%nat) by (apply nth_error_Some; congruence).
    assert (Hc : nth_error (combine headers c') j = Some (name, nth j c' [])).
    { rewrite nth_error_combine, Hj, (nth_error_nth' c' []) by lia. reflexivity. }
    destruct (nth_error_split _ _ Hc) as (l1 & l2 & Hsplit & Hl1).
    rewrite Hsplit, fold_add_last.
    + rewrite E3 by (rewrite repeat_length; exact Hlt).
      rewrite nth_repeat. reflexivity.
    + rewrite Hsplit, map_app in Hfst. simpl in Hfst.
      rewrite <- Hfst, skipn_app, length_map, Hl1 in Hn.
      replace (S j - j)%nat with 1%nat in Hn by lia.
      rewrite skipn_all2 in Hn by (rewrite length_map; lia). exact Hn.
  - intros name Hn. rewrite fold_add_other by (rewrite Hfst; exact Hn). apply lookup_empty.
Qed.

Lemma read_csv_columns_witness :
  exists table,
    read_csv (E := unit) (Ok [Ok (lit "a,b"%string); Ok (lit "1,x"%string); Ok (lit "2"%string)]) =
      Ok table /\
    get_column table (lit "b"%string) = Some [Value.Text (lit "x"%string)] /\
    get_column table (lit "c"%string) = None.
Proof.
  pose proof (read_csv_columns unit (lit "a,b"%string) [lit "1,x"%string; lit "2"%string]) as H.
  cbv zeta in H. destruct H as (table & H1 & H2 & H3).
  exists table. split; [exact H1|split].
  - rewrite (H2 1%nat (lit "b"%string)).
    + vm_compute. reflexivity.
    + vm_compute. reflexivity.
    + simpl. tauto.
  - apply H3. vm_compute. intros [H|[H|[]]]; discriminate.
Defined.

Lemma parse_number_nondigit (c : rchar) (s : rstring) :
  is_digit10 c = false -> (c =? 46)%N = false -> parse_number (c :: s) = None.
Proof.
  intros Hd Hp. unfold parse_number. simpl take_while. rewrite Hd. simpl. rewrite Hp. reflexivity.
Qed.

Lemma eq_ignore_ascii_case_lower (v : rstring) (s : string) :
  eq_ignore_ascii_case v (lit s) = true ->
  map to_ascii_lowercase v = map to_ascii_lowercase (lit s).
Proof. unfold eq_ignore_ascii_case. apply rstring_eqb_eq. Qed.

(** A value whose first char cannot start a float literal is not a number. *)
Lemma from_str_f64_other (c : rchar) (v : rstring) :
  is_digit10 c = false -> (c =? 46)%N = false -> (c =? 43)%N = false -> (c =? 45)%N = false ->
  (to_ascii_lowercase c =? 110)%N = false -> (to_ascii_lowercase c =? 105)%N = false ->
  from_str_f64 (c :: v) = None.
Proof.
  intros Hd Hp H43 H45 Hn Hi. unfold from_str_f64. rewrite H45, H43. simpl orb. cbv iota.
  rewrite parse_number_nondigit by assumption.
  unfold parse_inf_nan, eq_ignore_ascii_case.
  change (map to_ascii_lowercase (lit "nan"%string)) with [110; 97; 110]%N.
  change (map to_ascii_lowercase (lit "inf"%string)) with [105; 110; 102]%N.
  change (map to_ascii_lowercase (lit "infinity"%string)) with [105; 110; 102; 105; 110; 105; 116; 121]%N.
  cbn [map rstring_eqb]. rewrite Hn, Hi. reflexivity.
Qed.

Lemma lower_letter (c : rchar) :
  (97 <=? to_ascii_lowercase c)%N && (to_ascii_lowercase c <=? 122)%N = true ->
  is_digit10 c = false /\ (c =? 46)%N = false /\ (c =? 43)%N = false /\ (c =? 45)%N = false.
Proof.
  unfold to_ascii_lowercase, is_digit10. intros H.
  assert (Hr : (65 <= c <= 90 \/ 97 <= c <= 122)%N).
  { destruct ((65 <=? c)%N && (c <=? 90)%N) eqn:E;
      apply andb_true_iff in H as [H1 H2]; apply N.leb_le in H1, H2;
      [apply andb_true_iff in E as [E1 E2]; apply N.leb_le in E1, E2; lia|lia]. }
  rewrite !(proj2 (N.eqb_neq _ _)) by lia. repeat split.
  apply andb_false_iff. right. apply N.leb_gt. lia.
Qed.

(** X18: [parse_value]: the empty field is [Null], [true]/[false] in any
    ASCII case are [Boolean]s, and a field whose first char is no digit,
    ['.'], sign, [n] or [i] (in any case) and is not [true]/[false] is [Text]. *)
Theorem parse_value_non_numeric (c : rchar) (v w : rstring) :
  parse_value [] = Value.Null /\
  (eq_ignore_ascii_case w (lit "true"%string) = true -> parse_value w = Value.Boolean true) /\
  (eq_ignore_ascii_case w (lit "false"%string) = true -> parse_value w = Value.Boolean false) /\
  (is_digit10 c = false -> (c =? 46)%N = false -> (c =? 43)%N = false -> (c =? 45)%N = false ->
   (to_ascii_lowercase c =? 110)%N = false -> (to_ascii_lowercase c =? 105)%N = false ->
   eq_ignore_ascii_case (c :: v) (lit "true"%string) = false ->
   eq_ignore_ascii_case (c :: v) (lit "false"%string) = false ->
   parse_value (c :: v) = Value.Text (c :: v)).
Proof.
  split; [reflexivity|]. split; [|split].
  - intros H. pose proof (eq_ignore_ascii_case_lower _ _ H) as Hl.
    destruct w as [|d w]; [discriminate|]. simpl in Hl. injection Hl as Hd _.
    destruct (lower_letter d) as (H1 & H2 & H3 & H4); [rewrite Hd; reflexivity|].
    unfold parse_value. rewrite from_str_f64_other by (rewrite ?Hd; reflexivity || assumption).
    rewrite H. reflexivity.
  - intros H. pose proof (eq_ignore_ascii_case_lower _ _ H) as Hl.
    destruct w as [|d w]; [discriminate|]. simpl in Hl. injection Hl as Hd _.
    destruct (lower_letter d) as (H1 & H2 & H3 & H4); [rewrite Hd; reflexivity|].
    unfold parse_value. rewrite from_str_f64_other by (rewrite ?Hd; reflexivity || assumption).
    replace (eq_ignore_ascii_case (d :: w) (lit "true"%string)) with false; [rewrite H; reflexivity|].
    unfold eq_ignore_ascii_case. simpl map at 1. rewrite Hd. reflexivity.
  - intros H1 H2 H3 H4 H5 H6 Ht Hf. unfold parse_value.
    rewrite from_str_f64_other by assumption. rewrite Ht, Hf. reflexivity.
Qed.

Lemma parse_value_non_numeric_witness :
  parse_value (lit " x"%string) = Value.Text (lit " x"%string).
Proof.
  apply (proj2 (proj2 (proj2 (parse_value_non_numeric 32%N (lit "x"%string) []))));
    vm_compute; reflexivity.
Defined.

Lemma from_str_f64_inf_nan (d : N) (w : list N) :
  (97 <=? to_ascii_lowercase d)%N && (to_ascii_lowercase d <=? 122)%N = true ->
  from_str_f64 (d :: w) = parse_inf_nan (d :: w) false /\
  from_str_f64 (45%N :: d :: w) = parse_inf_nan (d :: w) true /\
  from_str_f64 (43%N :: d :: w) = parse_inf_nan (d :: w) false.
Proof.
  intros Hd. destruct (lower_letter d Hd) as (H1 & H2 & H3 & H4).
  unfold from_str_f64. split; [|split]; cbn -[parse_number parse_inf_nan decimal_exp_to_f64];
    rewrite ?H3, ?H4; cbn -[parse_number parse_inf_nan decimal_exp_to_f64];
    rewrite parse_number_nondigit by assumption; reflexivity.
Qed.

(** X19: [parse_value] reads [nan], [inf] and [infinity], in any ASCII case
    and with an optional sign, as the NaN and infinity numbers. *)
Theorem parse_value_special_floats (s : rstring) :
  (eq_ignore_ascii_case s (lit "nan"%string) = true ->
   parse_value s = Value.Number nan /\ parse_value (45%N :: s) = Value.Number (- nan)%float /\
   parse_value (43%N :: s) = Value.Number nan) /\
  (eq_ignore_ascii_case s (lit "inf"%string) || eq_ignore_ascii_case s (lit "infinity"%string) = true ->
   parse_value s = Value.Number infinity /\
   parse_value (45%N :: s) = Value.Number (- infinity)%float /\
   parse_value (43%N :: s) = Value.Number infinity).
Proof.
  split.
  - intros H. pose proof (eq_ignore_ascii_case_lower _ _ H) as Hl.
    destruct s as [|d w]; [discriminate|].
    destruct (from_str_f64_inf_nan d w) as (E1 & E2 & E3);
      [simpl in Hl; injection Hl as Hd _; rewrite Hd; reflexivity|].
    unfold parse_value. rewrite E1, E2, E3. unfold parse_inf_nan. rewrite H. auto.
  - intros H. apply orb_true_iff in H as [H|H];
      pose proof (eq_ignore_ascii_case_lower _ _ H) as Hl;
      destruct s as [|d w]; try discriminate;
      (destruct (from_str_f64_inf_nan d w) as (E1 & E2 & E3);
        [simpl in Hl; injection Hl as Hd _; rewrite Hd; reflexivity|]);
      unfold parse_value; rewrite E1, E2, E3; unfold parse_inf_nan;
      unfold eq_ignore_ascii_case in *; rewrite Hl in *; vm_compute; auto.
Qed.

Lemma parse_value_special_floats_witness :
  parse_value (lit "-Infinity"%string) = Value.Number (- infinity)%float.
Proof.
  destruct (proj2 (parse_value_special_floats (lit "Infinity"%string))) as [_ [H _]];
    [vm_compute; reflexivity|exact H].
Defined.

(** ** [distinctcount] over the hash table *)

Lemma nat_land_pow2 (x e : nat) : Nat.land x (2 ^ e - 1) = (x mod 2 ^ e)%nat.
Proof.
  rewrite <- Nat.land_ones. f_equal. rewrite Nat.ones_equiv. lia.
Qed.

Lemma z_land_pow2 (x : Z) (e : nat) :
  Z.land x (Z.of_nat (2 ^ e - 1)) = x mod Z.of_nat (2 ^ e).
Proof.
  assert (Hp : (1 <= 2 ^ e)%nat) by (apply Nat.le_succ_l, Nat.neq_0_lt_0, Nat.pow_nonzero; lia).
  rewrite Nat2Z.inj_sub by exact Hp. rewrite Nat2Z.inj_pow. simpl (Z.of_nat 2).
  rewrite <- Z.land_ones by lia. f_equal. rewrite Z.ones_equiv. lia.
Qed.

Lemma tri_double (k : nat) : (2 * tri k = k * (k + 1))%nat.
Proof. induction k as [|k IH]; simpl tri; [reflexivity|]. nia. Qed.

Lemma odd_pow2_divide (n : nat) (x y : Z) :
  Z.odd x = true -> (2 ^ Z.of_nat n | x * y)%Z -> (2 ^ Z.of_nat n | y)%Z.
Proof.
  revert y. induction n as [|n IH]; intros y Hx Hd.
  - simpl. apply Z.divide_1_l.
  - rewrite Nat2Z.inj_succ, Z.pow_succ_r in Hd |- * by lia.
    assert (Hy : Z.even y = true).
    { destruct (Z.even y) eqn:E; [reflexivity|exfalso].
      destruct Hd as [c Hc].
      assert (Ho : Z.odd (x * y) = true) by (rewrite Z.odd_mul, Hx, <- Z.negb_even, E; reflexivity).
      rewrite Hc in Ho. replace (c * (2 * 2 ^ Z.of_nat n)) with (2 * (c * 2 ^ Z.of_nat n)) in Ho by ring.
      rewrite Z.odd_mul in Ho. discriminate. }
    apply Z.even_spec in Hy as [y' ->].
    assert (Hd' : (2 ^ Z.of_nat n | x * y')%Z).
    { destruct Hd as [c Hc]. exists c. nia. }
    destruct (IH y' Hx Hd') as [c Hc]. exists c. lia.
Qed.

Lemma tri_inj (f a b : nat) :
  (a < 2 ^ f)%nat -> (b < 2 ^ f)%nat -> (tri a mod 2 ^ f = tri b mod 2 ^ f)%nat -> a = b.
Proof.
  intros Ha Hb E.
  assert (Hgen : forall a b, (a < b)%nat -> (b < 2 ^ f)%nat ->
                   (tri a mod 2 ^ f = tri b mod 2 ^ f)%nat -> False).
  { clear a b Ha Hb E. intros a b Hab Hb E.
    pose proof (tri_double a) as Ta. pose proof (tri_double b) as Tb.
    set (m := (2 ^ f)%nat) in *.
    assert (Hm : (0 < m)%nat) by (apply Nat.neq_0_lt_0, Nat.pow_nonzero; lia).
    assert (Hdiv : (Z.of_nat m | Z.of_nat (tri b) - Z.of_nat (tri a))%Z).
    { pose proof (Nat.div_mod_eq (tri a) m). pose proof (Nat.div_mod_eq (tri b) m).
      exists (Z.of_nat (tri b / m) - Z.of_nat (tri a / m)). nia. }
    assert (H2 : (2 ^ Z.of_nat (S f) | (Z.of_nat b - Z.of_nat a) * (Z.of_nat a + Z.of_nat b + 1))%Z).
    { destruct Hdiv as [c Hc]. exists c.
      rewrite Nat2Z.inj_succ, Z.pow_succ_r by lia.
      replace (2 ^ Z.of_nat f) with (Z.of_nat m) by (unfold m; rewrite Nat2Z.inj_pow; reflexivity).
      nia. }
    assert (HmZ : Z.of_nat m = 2 ^ Z.of_nat f) by (unfold m; rewrite Nat2Z.inj_pow; reflexivity).
    assert (Hs : 2 ^ Z.of_nat (S f) = 2 * Z.of_nat m)
      by (rewrite Nat2Z.inj_succ, Z.pow_succ_r, HmZ by lia; reflexivity).
    destruct (Z.odd (Z.of_nat b - Z.of_nat a)) eqn:Eo.
    - apply (odd_pow2_divide _ _ _ Eo) in H2. rewrite Hs in H2.
      apply Z.divide_pos_le in H2; lia.
    - assert (Eo' : Z.odd (Z.of_nat a + Z.of_nat b + 1) = true).
      { replace (Z.of_nat a + Z.of_nat b + 1) with ((Z.of_nat b - Z.of_nat a) + (2 * Z.of_nat a + 1)) by lia.
        rewrite Z.odd_add, Eo, Z.odd_add, Z.odd_mul. reflexivity. }
      rewrite Z.mul_comm in H2. apply (odd_pow2_divide _ _ _ Eo') in H2. rewrite Hs in H2.
      apply Z.divide_pos_le in H2; lia. }
  destruct (Nat.lt_trichotomy a b) as [H|[H|H]]; [exfalso; eauto|exact H|exfalso; eauto].
Qed.

Lemma NoDup_map_on {A B} (g : A -> B) (l : list A) :
  (forall x y, In x l -> In y l -> g x = g y -> x = y) -> List.NoDup l -> List.NoDup (map g l).
Proof.
  induction l as [|x l IH]; intros Hinj Hnd; simpl; constructor.
  - intros Hin. apply in_map_iff in Hin as (y & Hy & Hyl).
    inversion Hnd; subst. assert (y = x) by (apply Hinj; simpl; auto). subst. contradiction.
  - inversion Hnd; subst. apply IH; auto. intros; apply Hinj; simpl; auto.
Qed.

Lemma tri_onto (f q : nat) : (q < 2 ^ f)%nat -> exists k, (k < 2 ^ f)%nat /\ (tri k mod 2 ^ f = q)%nat.
Proof.
  intros Hq. set (m := (2 ^ f)%nat) in *.
  assert (Hm : (0 < m)%nat) by (apply Nat.neq_0_lt_0, Nat.pow_nonzero; lia).
  assert (Hnd : List.NoDup (map (fun k => tri k mod m)%nat (seq 0 m))).
  { apply NoDup_map_on; [|apply seq_NoDup]. intros x y Hx Hy E.
    apply in_seq in Hx, Hy. apply (tri_inj f); unfold m in *; lia. }
  assert (Hincl : incl (seq 0 m) (map (fun k => tri k mod m)%nat (seq 0 m))).
  { apply NoDup_length_incl; [exact Hnd|rewrite length_map; lia|].
    intros x Hx. apply in_map_iff in Hx as (k & <- & _). apply in_seq. split; [lia|].
    apply Nat.mod_upper_bound. lia. }
  assert (Hin : In q (seq 0 m)) by (apply in_seq; lia).
  apply Hincl, in_map_iff in Hin as (k & Hk & Hkin). apply in_seq in Hkin.
  exists k. split; [lia|exact Hk].
Qed.

Lemma probe_iter_formula (e p k : nat) :
  (p < 2 ^ e)%nat ->
  probe_iter (2 ^ e - 1) (p, 0%nat) k = (((p + 16 * tri k) mod 2 ^ e)%nat, (16 * k)%nat).
Proof.
  intros Hp. assert (Hb : (2 ^ e <> 0)%nat) by (apply Nat.pow_nonzero; lia).
  induction k as [|k IH]; simpl probe_iter.
  - rewrite Nat.add_0_r, Nat.mod_small by exact Hp. reflexivity.
  - rewrite IH. unfold move_next, WIDTH. rewrite nat_land_pow2. f_equal; [|lia].
    rewrite Nat.Div0.add_mod_idemp_l. simpl tri. f_equal. lia.
Qed.

Lemma probe_cover (f p e' : nat) :
  (p < 16 * 2 ^ f)%nat -> (e' < 16 * 2 ^ f)%nat ->
  exists k b, (k < 2 ^ f)%nat /\ (b < 16)%nat /\
    ((((p + 16 * tri k) mod (16 * 2 ^ f)) + b) mod (16 * 2 ^ f) = e')%nat.
Proof.
  intros Hp He. set (m := (2 ^ f)%nat) in *.
  assert (Hm : (0 < m)%nat) by (apply Nat.neq_0_lt_0, Nat.pow_nonzero; lia).
  set (B := (16 * m)%nat).
  set (d := ((e' + B - p) mod B)%nat).
  assert (Hd : (d < B)%nat) by (apply Nat.mod_upper_bound; lia).
  destruct (tri_onto f (d / 16)) as (k & Hk & Tk).
  { apply Nat.Div0.div_lt_upper_bound. fold m. lia. }
  exists k, (d mod 16)%nat. split; [exact Hk|]. split; [apply Nat.mod_upper_bound; lia|].
  fold m in Tk. fold B.
  rewrite Nat.Div0.add_mod_idemp_l.
  pose proof (Nat.div_mod_eq (tri k) m) as Ht. rewrite Tk in Ht.
  pose proof (Nat.div_mod_eq d 16) as Hd16.
  pose proof (Nat.div_mod_eq (e' + B - p) B) as Hdd. fold d in Hdd.
  replace (p + 16 * tri k + d mod 16)%nat with (e' + B * (tri k / m + 1) - B * ((e' + B - p) / B))%nat.
  - assert ((B * ((e' + B - p) / B) <= e' + B * (tri k / m + 1))%nat) by nia.
    replace (e' + B * (tri k / m + 1) - B * ((e' + B - p) / B))%nat
      with (e' + (tri k / m + 1 - (e' + B - p) / B) * B)%nat.
    + rewrite Nat.Div0.mod_add. apply Nat.mod_small. lia.
    + assert (((e' + B - p) / B <= tri k / m + 1)%nat).
      { assert ((e' + B - p) / B <= 1)%nat by (apply Nat.lt_succ_r, Nat.Div0.div_lt_upper_bound; lia). lia. }
      nia.
  - unfold B in *. nia.
Qed.

(** Control bytes and groups. *)

Lemma h2_range (x : Z) : 0 <= h2 x < 128.
Proof.
  unfold h2. change 127 with (Z.ones 7). rewrite Z.land_ones by lia.
  apply Z.mod_pos_bound. lia.
Qed.

Lemma h2_not_empty (x : Z) : h2 x <> EMPTY.
Proof. pose proof (h2_range x). unfold EMPTY. lia. Qed.

Lemma testbit7_tag (c : Z) : 0 <= c < 128 -> Z.testbit c 7 = false.
Proof.
  intros Hc. destruct (Z.eq_dec c 0) as [->|Hn]; [reflexivity|].
  apply Z.bits_above_log2; [lia|]. apply Z.log2_lt_pow2; lia.
Qed.

Lemma nth_firstn_lt {A} (n i : nat) (l : list A) (d : A) :
  (i < n)%nat -> nth i (firstn n l) d = nth i l d.
Proof.
  revert n l. induction i as [|i IH]; intros [|n] [|x l] Hi; simpl; try lia; try reflexivity.
  apply IH. lia.
Qed.

Lemma nth_skipn_add {A} (p i : nat) (l : list A) (d : A) :
  nth i (skipn p l) d = nth (p + i) l d.
Proof.
  revert l. induction p as [|p IH]; intros [|x l]; simpl; try reflexivity;
    try (destruct i; reflexivity). apply IH.
Qed.

Lemma nth_group (t : RawTable) (p b : nat) (d : Z) :
  (b < WIDTH)%nat -> nth b (group_load t p) d = nth (p + b) (ctrl t) d.
Proof. intros Hb. unfold group_load. rewrite nth_firstn_lt by exact Hb. apply nth_skipn_add. Qed.

Lemma length_group (t : RawTable) (p : nat) :
  (p + WIDTH <= length (ctrl t))%nat -> length (group_load t p) = WIDTH.
Proof. intros Hp. unfold group_load. rewrite length_firstn, length_skipn. lia. Qed.

Lemma in_group (t : RawTable) (p : nat) (c : Z) : In c (group_load t p) -> In c (ctrl t).
Proof.
  unfold group_load. intros Hc.
  rewrite <- (firstn_skipn p (ctrl t)). apply in_or_app. right.
  rewrite <- (firstn_skipn WIDTH (skipn p (ctrl t))). apply in_or_app. left. exact Hc.
Qed.

Lemma bits_from_in (P : Z -> bool) (i b : nat) (g : list Z) (d : Z) :
  In b (bits_from P i g) <-> (i <= b)%nat /\ (b - i < length g)%nat /\ P (nth (b - i) g d) = true.
Proof.
  revert i. induction g as [|c g IH]; intros i; simpl.
  - split; [intros []|lia].
  - destruct (P c) eqn:Pc.
    + simpl. rewrite IH. split.
      * intros [->|(H1 & H2 & H3)]; [rewrite Nat.sub_diag; split; [lia|split; [lia|exact Pc]]|].
        split; [lia|]. replace (b - i)%nat with (S (b - S i)) by lia. split; [lia|exact H3].
      * intros (H1 & H2 & H3). destruct (Nat.eq_dec b i) as [->|Hne]; [left; reflexivity|right].
        replace (b - i)%nat with (S (b - S i)) in H2, H3 by lia. split; [lia|split; [lia|exact H3]].
    + rewrite IH. split.
      * intros (H1 & H2 & H3). split; [lia|]. replace (b - i)%nat with (S (b - S i)) by lia.
        split; [lia|exact H3].
      * intros (H1 & H2 & H3). destruct (Nat.eq_dec b i) as [->|Hne].
        { rewrite Nat.sub_diag in H3. congruence. }
        replace (b - i)%nat with (S (b - S i)) in H2, H3 by lia. split; [lia|split; [lia|exact H3]].
Qed.

Lemma bits_from_head (P : Z -> bool) (i b : nat) (rest : list nat) (g : list Z) (d : Z) :
  bits_from P i g = b :: rest ->
  (i <= b)%nat /\ (b - i < length g)%nat /\ P (nth (b - i) g d) = true /\
  (forall c, (i <= c < b)%nat -> P (nth (c - i) g d) = false).
Proof.
  revert i. induction g as [|x g IH]; intros i; simpl; [discriminate|].
  destruct (P x) eqn:Px.
  - intros [= <- <-]. rewrite Nat.sub_diag. split; [lia|split; [lia|split; [exact Px|lia]]].
  - intros Hb. destruct (IH (S i) Hb) as (H1 & H2 & H3 & H4).
    split; [lia|]. replace (b - i)%nat with (S (b - S i)) by lia.
    split; [lia|]. split; [exact H3|].
    intros c Hc. destruct (Nat.eq_dec c i) as [->|Hne]; [rewrite Nat.sub_diag; exact Px|].
    replace (c - i)%nat with (S (c - S i)) by lia. apply H4. lia.
Qed.

Lemma bits_from_nil (P : Z -> bool) (i : nat) (g : list Z) :
  bits_from P i g = [] <-> (forall x, In x g -> P x = false).
Proof.
  revert i. induction g as [|c g IH]; intros i; simpl.
  - split; [intros _ x []|reflexivity].
  - destruct (P c) eqn:Pc.
    + split; [discriminate|]. intros H. rewrite (H c (or_introl eq_refl)) in Pc. discriminate.
    + rewrite IH. split; [intros H x [<-|Hx]; auto|intros H x Hx; auto].
Qed.

Lemma bits_from_ext (P Q : Z -> bool) (i : nat) (g : list Z) :
  (forall x, In x g -> P x = Q x) -> bits_from P i g = bits_from Q i g.
Proof.
  revert i. induction g as [|c g IH]; intros i H; simpl; [reflexivity|].
  rewrite (H c (or_introl eq_refl)). rewrite IH by (intros; apply H; right; assumption).
  reflexivity.
Qed.

(** The stored values. *)

Lemma stored_insert (l : list (option Value.t)) (s : nat) (v : Value.t) :
  l !! s = Some None -> Permutation (stored (<[s := Some v]> l)) (v :: stored l).
Proof.
  revert s. induction l as [|o l IH]; intros [|s] Hs; simpl in Hs |- *; try discriminate.
  - injection Hs as ->. simpl. reflexivity.
  - specialize (IH s Hs). destruct o as [y|]; simpl; [|exact IH].
    rewrite IH. apply perm_swap.
Qed.

Lemma in_stored (l : list (option Value.t)) (i : nat) (y : Value.t) :
  l !! i = Some (Some y) -> In y (stored l).
Proof.
  revert i. induction l as [|o l IH]; intros [|i] Hi; simpl in Hi |- *; try discriminate.
  - injection Hi as ->. left. reflexivity.
  - destruct o; [right|]; eapply IH; exact Hi.
Qed.

Lemma stored_full (l : list (option Value.t)) :
  (forall i, (i < length l)%nat -> exists y, l !! i = Some (Some y)) -> length (stored l) = length l.
Proof.
  induction l as [|o l IH]; intros H; [reflexivity|].
  destruct (H 0%nat ltac:(simpl; lia)) as [y Hy]. simpl in Hy. injection Hy as ->.
  simpl. f_equal. apply IH. intros i Hi. apply (H (S i)). simpl. lia.
Qed.

Lemma stored_length_le (l : list (option Value.t)) : (length (stored l) <= length l)%nat.
Proof. induction l as [|[y|] l IH]; simpl; lia. Qed.

Lemma nth_insert_lt {A} (l : list A) (i j : nat) (x d : A) :
  (i < length l)%nat -> nth j (<[i := x]> l) d = if Nat.eqb j i then x else nth j l d.
Proof.
  revert i j. induction l as [|y l IH]; intros [|i] [|j] Hi; simpl in Hi |- *; try lia;
    try reflexivity.
  apply IH. lia.
Qed.

Section TableProbe.
Variable h : Hasher.
Variable t : RawTable.
Hypothesis Hinv : table_inv h t.

Lemma land_mask (x : nat) : Nat.land x (bucket_mask t) = (x mod buckets t)%nat.
Proof.
  destruct (inv_pow _ _ Hinv) as (e & He & HB). unfold buckets in HB.
  replace (bucket_mask t) with (2 ^ e - 1)%nat by lia. rewrite nat_land_pow2.
  unfold buckets. rewrite HB. reflexivity.
Qed.

Lemma buckets_pos : (4 <= buckets t)%nat.
Proof.
  destruct (inv_pow _ _ Hinv) as (e & He & HB). rewrite HB.
  change 4%nat with (2 ^ 2)%nat. apply Nat.pow_le_mono_r; lia.
Qed.

Lemma probe_start_lt (hash : Z) : (probe_start t hash < buckets t)%nat.
Proof.
  destruct (inv_pow _ _ Hinv) as (e & He & HB). unfold probe_start.
  assert (Hm : bucket_mask t = (2 ^ e - 1)%nat) by (unfold buckets in HB; lia).
  rewrite Hm, z_land_pow2.
  rewrite HB. set (N := (2 ^ e)%nat) in *.
  assert (HN : (0 < N)%nat) by (unfold buckets in HB; lia).
  pose proof (Z.mod_pos_bound hash (Z.of_nat N)) as Hb. lia.
Qed.

Lemma probe_seq_S (hash : Z) (k : nat) :
  probe_seq t hash (S k) =
  move_next (bucket_mask t) (fst (probe_seq t hash k)) (snd (probe_seq t hash k)).
Proof. unfold probe_seq. simpl. destruct (probe_iter _ _ k). reflexivity. Qed.

Lemma probe_seq_lt (hash : Z) (k : nat) : (fst (probe_seq t hash k) < buckets t)%nat.
Proof.
  destruct k as [|k]; [apply probe_start_lt|].
  rewrite probe_seq_S. unfold move_next. simpl fst. rewrite land_mask.
  apply Nat.mod_upper_bound. pose proof buckets_pos. lia.
Qed.

Lemma byte_cases (j : nat) : (j < buckets t + WIDTH)%nat ->
  nth j (ctrl t) EMPTY = EMPTY \/ 0 <= nth j (ctrl t) EMPTY < 128.
Proof.
  intros Hj. rewrite (inv_mirror _ _ Hinv j Hj). destruct (filler t j); [left; reflexivity|].
  pose proof buckets_pos.
  destruct (inv_bucket _ _ Hinv (j mod buckets t)%nat) as [[E _]|(y & _ & E & _)];
    [apply Nat.mod_upper_bound; lia|left; exact E|right; rewrite E; apply h2_range].
Qed.

Lemma ctrl_cases (c : Z) : In c (ctrl t) -> c = EMPTY \/ 0 <= c < 128.
Proof.
  intros Hc. apply (In_nth _ _ EMPTY) in Hc as (n & Hn & <-).
  apply byte_cases. rewrite <- (inv_ctrl_len _ _ Hinv). exact Hn.
Qed.

Lemma testbit7_byte (c : Z) : In c (ctrl t) -> Z.testbit c 7 = (c =? EMPTY).
Proof.
  intros Hc. destruct (ctrl_cases c Hc) as [->|Hr]; [reflexivity|].
  rewrite testbit7_tag by exact Hr. symmetry. apply Z.eqb_neq. unfold EMPTY. lia.
Qed.

Lemma match_eod_eq (p : nat) :
  match_empty_or_deleted (group_load t p) = match_empty (group_load t p).
Proof.
  unfold match_empty_or_deleted, match_empty, match_byte. apply bits_from_ext.
  intros x Hx. apply testbit7_byte, (in_group t p). exact Hx.
Qed.

Lemma empty_bucket_slot (s : nat) :
  (s < buckets t)%nat -> nth s (ctrl t) EMPTY = EMPTY -> slots t !! s = Some None.
Proof.
  intros Hs E. destruct (inv_bucket _ _ Hinv s Hs) as [[_ S']|(y & _ & E' & _)]; [exact S'|].
  rewrite E in E'. exfalso. exact (h2_not_empty _ (eq_sym E')).
Qed.

Lemma small_pos (p i : nat) : (buckets t <= 16)%nat -> (i < buckets t)%nat -> (p < buckets t)%nat ->
  exists b, (b < WIDTH)%nat /\ filler t (p + b) = false /\ ((p + b) mod buckets t = i)%nat.
Proof.
  intros Hs Hi Hp. destruct (inv_pow _ _ Hinv) as (e & He & HB).
  assert (He4 : (e <= 4)%nat).
  { destruct (Nat.le_gt_cases e 4) as [|Hg]; [assumption|].
    assert (2 ^ 5 <= 2 ^ e)%nat by (apply Nat.pow_le_mono_r; lia). simpl in *. lia. }
  unfold filler, WIDTH.
  destruct (Nat.le_gt_cases p i) as [Hpi|Hpi].
  - exists (i - p)%nat. replace (p + (i - p))%nat with i by lia.
    split; [lia|]. split; [apply andb_false_iff; left; apply Nat.leb_gt; lia|].
    apply Nat.mod_small. exact Hi.
  - exists (i + 16 - p)%nat. replace (p + (i + 16 - p))%nat with (i + 16)%nat by lia.
    split; [lia|]. split; [apply andb_false_iff; right; apply Nat.ltb_ge; lia|].
    rewrite HB in Hi |- *.
    assert (HE : e = 2%nat \/ e = 3%nat \/ e = 4%nat) by lia.
    destruct HE as [-> | [-> | ->]].
    + change (2 ^ 2)%nat with 4%nat in *. symmetry. apply Nat.mod_unique with (q := 4%nat); lia.
    + change (2 ^ 3)%nat with 8%nat in *. symmetry. apply Nat.mod_unique with (q := 2%nat); lia.
    + change (2 ^ 4)%nat with 16%nat in *. symmetry. apply Nat.mod_unique with (q := 1%nat); lia.
Qed.

Lemma small_reach (hash : Z) (i : nat) :
  (buckets t <= 16)%nat -> (i < buckets t)%nat -> reach t hash i.
Proof.
  intros Hs Hi. pose proof buckets_pos.
  destruct (small_pos (fst (probe_seq t hash 0)) i Hs Hi (probe_seq_lt hash 0))
    as (b & Hb & Hf & Hm).
  exists 0%nat, b. split; [lia|]. split; [exact Hb|]. split; [intros; lia|]. split; assumption.
Qed.

Lemma big_pos (hash : Z) (i : nat) : (16 <= buckets t)%nat -> (i < buckets t)%nat ->
  exists k b, (k < buckets t)%nat /\ (b < WIDTH)%nat /\
    filler t (fst (probe_seq t hash k) + b) = false /\
    ((fst (probe_seq t hash k) + b) mod buckets t = i)%nat.
Proof.
  intros Hs Hi. destruct (inv_pow _ _ Hinv) as (e & He & HB).
  assert (He4 : (4 <= e)%nat).
  { destruct (Nat.le_gt_cases 4 e) as [|Hg]; [assumption|].
    assert (2 ^ e <= 2 ^ 3)%nat by (apply Nat.pow_le_mono_r; lia). simpl in *. lia. }
  assert (Hsplit : (2 ^ e = 16 * 2 ^ (e - 4))%nat).
  { replace e with (4 + (e - 4))%nat at 1 by lia. rewrite Nat.pow_add_r. reflexivity. }
  pose proof (probe_start_lt hash) as Hp.
  rewrite HB, Hsplit in Hp, Hi.
  destruct (probe_cover (e - 4) (probe_start t hash) i Hp Hi) as (k & b & Hk & Hb & Hm).
  exists k, b.
  assert (Hf : fst (probe_seq t hash k) = ((probe_start t hash + 16 * tri k) mod 2 ^ e)%nat).
  { unfold probe_seq. assert (Hmask : bucket_mask t = (2 ^ e - 1)%nat) by (unfold buckets in HB; lia).
    rewrite Hmask, probe_iter_formula; [reflexivity|]. rewrite Hsplit. exact Hp. }
  rewrite Hf, HB, Hsplit. split; [|split; [exact Hb|split]].
  - assert (2 ^ (e - 4) <= 16 * 2 ^ (e - 4))%nat by lia. lia.
  - unfold filler, WIDTH. destruct (_ <=? _)%nat eqn:E1; [|reflexivity].
    apply Nat.leb_le in E1. cbn [andb]. apply Nat.ltb_ge. lia.
  - exact Hm.
Qed.

Lemma any_pos (hash : Z) (i : nat) : (i < buckets t)%nat ->
  exists k b, (k < buckets t)%nat /\ (b < WIDTH)%nat /\
    filler t (fst (probe_seq t hash k) + b) = false /\
    ((fst (probe_seq t hash k) + b) mod buckets t = i)%nat.
Proof.
  intros Hi. destruct (Nat.le_gt_cases (buckets t) 16) as [Hs|Hs].
  - destruct (small_pos (fst (probe_seq t hash 0)) i Hs Hi (probe_seq_lt hash 0))
      as (b & Hb & Hf & Hm).
    exists 0%nat, b. pose proof buckets_pos. split; [lia|]. auto.
  - apply big_pos; [lia|exact Hi].
Qed.

Lemma cap_le_mask (m : nat) : (bucket_mask_to_capacity m <= m)%nat.
Proof.
  unfold bucket_mask_to_capacity. destruct (m <? 8)%nat eqn:E; [lia|].
  apply Nat.ltb_ge in E. pose proof (Nat.Div0.mul_div_le (m + 1) 8). lia.
Qed.

Lemma empty_exists : (1 <= growth_left t)%nat ->
  exists e, (e < buckets t)%nat /\ nth e (ctrl t) EMPTY = EMPTY /\ slots t !! e = Some None.
Proof.
  intros Hg.
  destruct (existsb (fun i => nth i (ctrl t) EMPTY =? EMPTY) (seq 0 (buckets t))) eqn:E.
  - apply existsb_exists in E as (i & Hi & Hc). apply in_seq in Hi. apply Z.eqb_eq in Hc.
    exists i. split; [lia|]. split; [exact Hc|]. apply empty_bucket_slot; [lia|exact Hc].
  - exfalso.
    assert (Hfull : length (stored (slots t)) = length (slots t)).
    { apply stored_full. intros i Hi. rewrite (inv_slots_len _ _ Hinv) in Hi.
      destruct (inv_bucket _ _ Hinv i Hi) as [[Hc _]|(y & Hy & _)]; [|exists y; exact Hy].
      exfalso. assert (Hex : existsb (fun i => nth i (ctrl t) EMPTY =? EMPTY) (seq 0 (buckets t)) = true).
      { apply existsb_exists. exists i. split; [apply in_seq; lia|]. apply Z.eqb_eq. exact Hc. }
      congruence. }
    pose proof (inv_items _ _ Hinv). pose proof (inv_growth _ _ Hinv).
    pose proof (inv_slots_len _ _ Hinv). pose proof (cap_le_mask (bucket_mask t)).
    unfold buckets in *. lia.
Qed.

Section Probe.
Variable v : Value.t.
Variable hash : Z.

Lemma loop_unfold (fuel k : nat) :
  find_or_find_insert_slot_inner (S fuel) t v (h2 hash)
    (fst (probe_seq t hash k)) (snd (probe_seq t hash k)) None =
  match hit t v (h2 hash) (fst (probe_seq t hash k)) with
  | Some bit => Some (inl (Nat.land (fst (probe_seq t hash k) + bit) (bucket_mask t)))
  | None =>
      match match_empty (group_load t (fst (probe_seq t hash k))) with
      | bit :: _ => Some (inr (fix_insert_slot t (Nat.land (fst (probe_seq t hash k) + bit) (bucket_mask t))))
      | [] => find_or_find_insert_slot_inner fuel t v (h2 hash)
                (fst (probe_seq t hash (S k))) (snd (probe_seq t hash (S k))) None
      end
  end.
Proof.
  cbn [find_or_find_insert_slot_inner]. unfold hit.
  destruct (List.find _ _); [reflexivity|].
  unfold find_insert_slot_in_group. rewrite match_eod_eq.
  destruct (match_empty (group_load t (fst (probe_seq t hash k)))); [|reflexivity].
  rewrite probe_seq_S. destruct (move_next _ _ _). reflexivity.
Qed.

Lemma loop_result (fuel k : nat) :
  (exists ke, (k <= ke < k + fuel)%nat /\ match_empty (group_load t (fst (probe_seq t hash ke))) <> []) ->
  match find_or_find_insert_slot_inner fuel t v (h2 hash)
          (fst (probe_seq t hash k)) (snd (probe_seq t hash k)) None with
  | Some (inl i) => exists k' bit, hit t v (h2 hash) (fst (probe_seq t hash k')) = Some bit /\
                      i = Nat.land (fst (probe_seq t hash k') + bit) (bucket_mask t)
  | Some (inr s) => exists K bit rest, (k <= K < k + fuel)%nat /\
      (forall k', (k <= k' <= K)%nat -> hit t v (h2 hash) (fst (probe_seq t hash k')) = None) /\
      (forall k', (k <= k' < K)%nat -> match_empty (group_load t (fst (probe_seq t hash k'))) = []) /\
      match_empty (group_load t (fst (probe_seq t hash K))) = bit :: rest /\
      s = fix_insert_slot t (Nat.land (fst (probe_seq t hash K) + bit) (bucket_mask t))
  | None => False
  end.
Proof.
  revert k. induction fuel as [|fuel IH]; intros k (ke & Hke & Hne); [lia|].
  rewrite loop_unfold.
  destruct (hit t v (h2 hash) (fst (probe_seq t hash k))) as [bit|] eqn:Hh.
  { exists k, bit. split; [exact Hh|reflexivity]. }
  destruct (match_empty (group_load t (fst (probe_seq t hash k)))) as [|bit rest] eqn:Hm.
  - assert (Hke' : ke <> k) by (intros ->; contradiction).
    specialize (IH (S k) ltac:(exists ke; split; [lia|exact Hne])).
    destruct (find_or_find_insert_slot_inner fuel _ _ _ _ _ _) as [[i|s]|]; [exact IH| |exact IH].
    destruct IH as (K & bit & rest & HK & Hhit & Hemp & HmK & ->).
    exists K, bit, rest. split; [lia|]. split.
    + intros k' Hk'. destruct (Nat.eq_dec k' k) as [->|]; [exact Hh|]. apply Hhit. lia.
    + split; [|split; [exact HmK|reflexivity]].
      intros k' Hk'. destruct (Nat.eq_dec k' k) as [->|]; [exact Hm|]. apply Hemp. lia.
  - exists k, bit, rest. split; [lia|]. split.
    + intros k' Hk'. replace k' with k by lia. exact Hh.
    + split; [intros; lia|]. split; [exact Hm|reflexivity].
Qed.

Lemma group_full (k : nat) : length (group_load t (fst (probe_seq t hash k))) = WIDTH.
Proof.
  apply length_group. rewrite (inv_ctrl_len _ _ Hinv). pose proof (probe_seq_lt hash k). lia.
Qed.

Lemma pos_bound (k b : nat) : (b < WIDTH)%nat -> (fst (probe_seq t hash k) + b < buckets t + WIDTH)%nat.
Proof. intros Hb. pose proof (probe_seq_lt hash k). lia. Qed.

Lemma loop_terminates : (1 <= growth_left t)%nat ->
  exists ke, (0 <= ke < 0 + buckets t)%nat /\
    match_empty (group_load t (fst (probe_seq t hash ke))) <> [].
Proof.
  intros Hg. destruct (empty_exists Hg) as (e & He & Hc & _).
  destruct (any_pos hash e He) as (k & b & Hk & Hb & Hf & Hm).
  exists k. split; [lia|]. intros Hnil.
  assert (Hin : In b (match_empty (group_load t (fst (probe_seq t hash k))))).
  { unfold match_empty, match_byte. apply (bits_from_in _ 0 b _ EMPTY).
    rewrite Nat.sub_0_r, group_full. split; [lia|]. split; [exact Hb|].
    rewrite nth_group by exact Hb. rewrite (inv_mirror _ _ Hinv _ (pos_bound k b Hb)), Hf, Hm, Hc.
    apply Z.eqb_refl. }
  rewrite Hnil in Hin. destruct Hin.
Qed.

Lemma search_result : (1 <= growth_left t)%nat ->
  match search t v hash with
  | Some (inl i) => exists k' bit, hit t v (h2 hash) (fst (probe_seq t hash k')) = Some bit /\
                      i = Nat.land (fst (probe_seq t hash k') + bit) (bucket_mask t)
  | Some (inr s) => exists K bit rest, (0 <= K < 0 + buckets t)%nat /\
      (forall k', (0 <= k' <= K)%nat -> hit t v (h2 hash) (fst (probe_seq t hash k')) = None) /\
      (forall k', (0 <= k' < K)%nat -> match_empty (group_load t (fst (probe_seq t hash k'))) = []) /\
      match_empty (group_load t (fst (probe_seq t hash K))) = bit :: rest /\
      s = fix_insert_slot t (Nat.land (fst (probe_seq t hash K) + bit) (bucket_mask t))
  | None => False
  end.
Proof. intros Hg. exact (loop_result (buckets t) 0 (loop_terminates Hg)). Qed.

End Probe.
End TableProbe.

Section ProbeSearch.
Variable h : Hasher.
Variable t : RawTable.
Hypothesis Hinv : table_inv h t.
Variable v : Value.t.
Variable hash : Z.
Hypothesis Hg : (1 <= growth_left t)%nat.

Lemma hit_spec (k bit : nat) :
  hit t v (h2 hash) (fst (probe_seq t hash k)) = Some bit ->
  (bit < WIDTH)%nat /\ nth (fst (probe_seq t hash k) + bit) (ctrl t) EMPTY = h2 hash /\
  bucket_eq t v (Nat.land (fst (probe_seq t hash k) + bit) (bucket_mask t)) = true.
Proof.
  unfold hit. intros Hf. apply find_some in Hf as [Hin Heq].
  unfold match_byte in Hin. apply (bits_from_in _ 0 _ _ EMPTY) in Hin as (_ & Hl & Hn).
  rewrite Nat.sub_0_r in Hl, Hn. rewrite (group_full h t Hinv hash k) in Hl.
  rewrite nth_group in Hn by exact Hl. apply Z.eqb_eq in Hn.
  split; [exact Hl|]. split; [exact Hn|exact Heq].
Qed.

Lemma search_found (i : nat) : search t v hash = Some (inl i) ->
  exists y, slots t !! i = Some (Some y) /\ value_eq v y = true /\ h2 (make_hash h y) = h2 hash.
Proof.
  intros Hs. pose proof (search_result h t Hinv v hash Hg) as R. rewrite Hs in R.
  destruct R as (k & bit & Hh & ->).
  destruct (hit_spec k bit Hh) as (Hb & Hc & Heq).
  rewrite (land_mask h t Hinv) in Heq |- *.
  pose proof (pos_bound h t Hinv hash k bit Hb) as Hj.
  rewrite (inv_mirror _ _ Hinv _ Hj) in Hc.
  destruct (filler t _); [exfalso; exact (h2_not_empty _ (eq_sym Hc))|].
  pose proof (buckets_pos h t Hinv).
  assert (Hi : ((fst (probe_seq t hash k) + bit) mod buckets t < buckets t)%nat)
    by (apply Nat.mod_upper_bound; lia).
  unfold bucket_eq in Heq.
  destruct (inv_bucket _ _ Hinv _ Hi) as [[Ec _]|(y & Hy & Ec & _)].
  - rewrite Ec in Hc. exfalso. exact (h2_not_empty _ (eq_sym Hc)).
  - rewrite Hy in Heq. exists y. split; [exact Hy|]. split; [exact Heq|]. congruence.
Qed.

Lemma search_hit (i : nat) (y : Value.t) :
  slots t !! i = Some (Some y) -> value_eq v y = true ->
  nth i (ctrl t) EMPTY = h2 hash -> reach t hash i ->
  exists i', search t v hash = Some (inl i').
Proof.
  intros Hy Heq Hc (k0 & b0 & Hk0 & Hb0 & Hemp0 & Hf0 & Hm0).
  pose proof (search_result h t Hinv v hash Hg) as R.
  destruct (search t v hash) as [[i'|s]|]; [exists i'; reflexivity| |destruct R].
  exfalso. destruct R as (K & bit & rest & HK & Hhit & Hemp & HmK & _).
  destruct (Nat.lt_ge_cases K k0) as [HKk|HKk].
  { rewrite (Hemp0 K HKk) in HmK. discriminate. }
  specialize (Hhit k0 ltac:(lia)). unfold hit in Hhit.
  assert (Hin : In b0 (match_byte (group_load t (fst (probe_seq t hash k0))) (h2 hash))).
  { unfold match_byte. apply (bits_from_in _ 0 _ _ EMPTY). rewrite Nat.sub_0_r.
    rewrite (group_full h t Hinv hash k0). split; [lia|]. split; [exact Hb0|].
    rewrite nth_group by exact Hb0.
    rewrite (inv_mirror _ _ Hinv _ (pos_bound h t Hinv hash k0 b0 Hb0)), Hf0, Hm0, Hc.
    apply Z.eqb_refl. }
  pose proof (find_none _ _ Hhit b0 Hin) as Hn. cbv beta in Hn.
  rewrite (land_mask h t Hinv), Hm0 in Hn. unfold bucket_eq in Hn. rewrite Hy, Heq in Hn.
  discriminate.
Qed.

Lemma search_slot (s : nat) : search t v hash = Some (inr s) ->
  (s < buckets t)%nat /\ nth s (ctrl t) EMPTY = EMPTY /\ slots t !! s = Some None /\ reach t hash s.
Proof.
  intros Hs. pose proof (search_result h t Hinv v hash Hg) as R. rewrite Hs in R.
  destruct R as (K & bit & rest & HK & _ & Hemp & HmK & ->).
  pose proof (buckets_pos h t Hinv) as HB4.
  unfold match_empty, match_byte in HmK.
  destruct (bits_from_head _ 0 bit rest _ EMPTY HmK) as (_ & Hl & Hn & _).
  rewrite Nat.sub_0_r in Hl, Hn. rewrite (group_full h t Hinv hash K) in Hl.
  rewrite nth_group in Hn by exact Hl. apply Z.eqb_eq in Hn.
  pose proof (pos_bound h t Hinv hash K bit Hl) as Hj.
  rewrite (land_mask h t Hinv).
  set (j := (fst (probe_seq t hash K) + bit)%nat) in *.
  assert (Hs0 : (j mod buckets t < buckets t)%nat) by (apply Nat.mod_upper_bound; lia).
  assert (Hfin : forall r, (r < buckets t)%nat -> nth r (ctrl t) EMPTY = EMPTY -> reach t hash r ->
            (r < buckets t)%nat /\ nth r (ctrl t) EMPTY = EMPTY /\ slots t !! r = Some None /\
            reach t hash r).
  { intros r Hr Hc Hre. split; [exact Hr|]. split; [exact Hc|].
    split; [apply (empty_bucket_slot h t Hinv); assumption|exact Hre]. }
  pose proof (inv_mirror _ _ Hinv j Hj) as Hmj. rewrite Hn in Hmj.
  destruct (filler t j) eqn:Ef.
  - assert (Hsm : (buckets t <= 16)%nat).
    { unfold filler, WIDTH in Ef. apply andb_true_iff in Ef as [E1 E2].
      apply Nat.leb_le in E1. apply Nat.ltb_lt in E2. lia. }
    unfold fix_insert_slot.
    destruct (is_full (nth (j mod buckets t) (ctrl t) EMPTY)) eqn:Efull.
    + destruct (empty_exists h t Hinv Hg) as (e & He & Hce & _).
      assert (Hlen16 : length (firstn WIDTH (ctrl t)) = WIDTH).
      { rewrite length_firstn, (inv_ctrl_len _ _ Hinv). lia. }
      assert (Hin : In e (match_empty_or_deleted (firstn WIDTH (ctrl t)))).
      { unfold match_empty_or_deleted. apply (bits_from_in _ 0 _ _ EMPTY).
        rewrite Nat.sub_0_r, Hlen16. split; [lia|]. split; [unfold WIDTH; lia|].
        rewrite nth_firstn_lt by (unfold WIDTH; lia). rewrite Hce. reflexivity. }
      destruct (match_empty_or_deleted (firstn WIDTH (ctrl t))) as [|f0 rest0] eqn:Emed;
        [destruct Hin|].
      unfold match_empty_or_deleted in Emed.
      destruct (bits_from_head _ 0 f0 rest0 _ EMPTY Emed) as (_ & Hl0 & Hn0 & Hmin).
      rewrite Nat.sub_0_r, Hlen16 in *.
      assert (Hfe : (f0 <= e)%nat).
      { destruct (Nat.le_gt_cases f0 e) as [|Hlt]; [assumption|].
        specialize (Hmin e ltac:(lia)). rewrite Nat.sub_0_r, nth_firstn_lt in Hmin by (unfold WIDTH; lia).
        rewrite Hce in Hmin. discriminate. }
      rewrite nth_firstn_lt in Hn0 by exact Hl0.
      assert (Hc0 : nth f0 (ctrl t) EMPTY = EMPTY).
      { destruct (byte_cases h t Hinv f0 ltac:(lia)) as [E|E]; [exact E|].
        rewrite testbit7_tag in Hn0 by exact E. discriminate. }
      apply Hfin; [lia|exact Hc0|]. apply (small_reach h t Hinv); lia.
    + assert (Hc0 : nth (j mod buckets t) (ctrl t) EMPTY = EMPTY).
      { destruct (byte_cases h t Hinv (j mod buckets t) ltac:(lia)) as [E|E]; [exact E|].
        unfold is_full in Efull. rewrite testbit7_tag in Efull by exact E. discriminate. }
      apply Hfin; [exact Hs0|exact Hc0|]. apply (small_reach h t Hinv); lia.
  - unfold fix_insert_slot. rewrite <- Hmj. cbn [is_full Z.testbit EMPTY negb].
    change (is_full EMPTY) with false. cbv iota.
    apply Hfin; [exact Hs0|symmetry; exact Hmj|].
    exists K, bit. split; [lia|]. split; [exact Hl|]. split; [intros k' Hk'; apply Hemp; lia|].
    split; [exact Ef|reflexivity].
Qed.

End ProbeSearch.

Lemma set_ctrl_index2 (t : RawTable) (index : nat) (c : Z) :
  set_ctrl t index c = <[index2 t index := c]> (<[index := c]> (ctrl t)).
Proof. reflexivity. Qed.

Lemma group_mono (l l' : list Z) (p : nat) :
  length l' = length l -> (forall j, nth j l' EMPTY = EMPTY -> nth j l EMPTY = EMPTY) ->
  match_empty (firstn WIDTH (skipn p l)) = [] -> match_empty (firstn WIDTH (skipn p l')) = [].
Proof.
  intros Hlen Hpt Hnil. unfold match_empty, match_byte in *.
  rewrite bits_from_nil in Hnil |- *. intros x Hx.
  apply (In_nth _ _ EMPTY) in Hx as (n & Hn & <-).
  assert (Hn' : (n < length (firstn WIDTH (skipn p l)))%nat)
    by (rewrite !length_firstn, !length_skipn in *; lia).
  rewrite length_firstn in Hn.
  assert (Hn16 : (n < WIDTH)%nat) by lia.
  rewrite nth_firstn_lt, nth_skipn_add by exact Hn16.
  apply Z.eqb_neq. intros E. apply Hpt in E.
  specialize (Hnil _ (nth_In _ EMPTY Hn')).
  rewrite nth_firstn_lt, nth_skipn_add, E in Hnil by exact Hn16. discriminate.
Qed.

Lemma reach_mono (t t' : RawTable) (hash : Z) (i : nat) :
  bucket_mask t' = bucket_mask t ->
  (forall p, match_empty (group_load t p) = [] -> match_empty (group_load t' p) = []) ->
  reach t hash i -> reach t' hash i.
Proof.
  intros Hm Hg (k & b & Hk & Hb & He & Hf & Hi).
  assert (Hps : forall k, probe_seq t' hash k = probe_seq t hash k)
    by (intros; unfold probe_seq, probe_start; rewrite Hm; reflexivity).
  assert (Hbk : buckets t' = buckets t) by (unfold buckets; rewrite Hm; reflexivity).
  exists k, b. rewrite Hbk, Hps. split; [exact Hk|]. split; [exact Hb|].
  split; [intros k' Hk'; rewrite Hps; apply Hg, He, Hk'|].
  unfold filler in *. rewrite Hbk. split; assumption.
Qed.

Section InsertSlot.
Variable h : Hasher.
Variable t : RawTable.
Hypothesis Hinv : table_inv h t.

Lemma index2_facts (s : nat) : (s < buckets t)%nat ->
  (index2 t s < buckets t + WIDTH)%nat /\ filler t (index2 t s) = false /\
  (index2 t s mod buckets t = s)%nat /\
  (forall j, (j < buckets t + WIDTH)%nat -> filler t j = false -> (j mod buckets t = s)%nat ->
     j = s \/ j = index2 t s).
Proof.
  intros Hs. destruct (inv_pow _ _ Hinv) as (e & He & HB).
  assert (Hm : bucket_mask t = (2 ^ e - 1)%nat) by (unfold buckets in HB; lia).
  unfold index2, filler, WIDTH. rewrite Hm, z_land_pow2. rewrite HB in Hs |- *.
  change (Z.of_nat 16) with 16.
  set (B := (2 ^ e)%nat) in *.
  assert (HB4 : (4 <= B)%nat) by (unfold B; change 4%nat with (2 ^ 2)%nat; apply Nat.pow_le_mono_r; lia).
  destruct (Nat.le_gt_cases 16 B) as [Hbig|Hsmall].
  - destruct (Nat.le_gt_cases 16 s) as [Hs16|Hs16].
    + rewrite Z.mod_small by lia. replace (Z.to_nat (Z.of_nat s - 16) + 16)%nat with s by lia.
      split; [lia|]. split; [apply andb_false_iff; right; apply Nat.ltb_ge; lia|].
      split; [apply Nat.mod_small; lia|].
      intros j Hj Hf Hjm. destruct (Nat.lt_ge_cases j B) as [Hjb|Hjb].
      * left. rewrite Nat.mod_small in Hjm by lia. lia.
      * exfalso. assert (j mod B = j - B)%nat by (symmetry; apply Nat.mod_unique with (q := 1%nat); lia).
        lia.
    + replace ((Z.of_nat s - 16) mod Z.of_nat B) with (Z.of_nat s - 16 + Z.of_nat B).
      2:{ symmetry. replace (Z.of_nat s - 16) with ((Z.of_nat s - 16 + Z.of_nat B) + (-1) * Z.of_nat B) at 1 by ring.
          rewrite Z_mod_plus_full. apply Z.mod_small. lia. }
      replace (Z.to_nat (Z.of_nat s - 16 + Z.of_nat B) + 16)%nat with (s + B)%nat by lia.
      split; [lia|]. split; [apply andb_false_iff; right; apply Nat.ltb_ge; lia|]. split.
      * symmetry. apply Nat.mod_unique with (q := 1%nat); lia.
      * intros j Hj Hf Hjm. destruct (Nat.lt_ge_cases j B) as [Hjb|Hjb].
        -- left. rewrite Nat.mod_small in Hjm by lia. lia.
        -- right. assert (j mod B = j - B)%nat by (symmetry; apply Nat.mod_unique with (q := 1%nat); lia).
           lia.
  - assert (HE : e = 2%nat \/ e = 3%nat).
    { destruct (Nat.le_gt_cases e 3) as [|Hg]; [lia|].
      assert (2 ^ 4 <= 2 ^ e)%nat by (apply Nat.pow_le_mono_r; lia). unfold B in Hsmall. simpl in *. lia. }
    assert (Hq : exists q, (16 = B * q)%nat) by (unfold B; destruct HE as [-> | ->]; [exists 4%nat|exists 2%nat]; reflexivity).
    destruct Hq as [q Hq].
    replace ((Z.of_nat s - 16) mod Z.of_nat B) with (Z.of_nat s).
    2:{ symmetry. replace (Z.of_nat s - 16) with (Z.of_nat s + (- Z.of_nat q) * Z.of_nat B) at 1 by lia.
        rewrite Z_mod_plus_full. apply Z.mod_small. lia. }
    rewrite Nat2Z.id.
    split; [lia|]. split; [apply andb_false_iff; right; apply Nat.ltb_ge; lia|]. split.
    + symmetry. apply Nat.mod_unique with (q := q); lia.
    + intros j Hj Hf Hjm. destruct (Nat.lt_ge_cases j B) as [Hjb|Hjb].
      * left. rewrite Nat.mod_small in Hjm by lia. lia.
      * right. apply andb_false_iff in Hf as [Hf|Hf]; [apply Nat.leb_gt in Hf; lia|].
        apply Nat.ltb_ge in Hf.
        assert (j mod B = j - 16)%nat by (symmetry; apply Nat.mod_unique with (q := q); lia).
        lia.
Qed.

Lemma nth_set_ctrl (s j : nat) (c : Z) : (s < buckets t)%nat ->
  nth j (set_ctrl t s c) EMPTY =
  if Nat.eqb j (index2 t s) then c else if Nat.eqb j s then c else nth j (ctrl t) EMPTY.
Proof.
  intros Hs. destruct (index2_facts s Hs) as (H1 & _).
  pose proof (inv_ctrl_len _ _ Hinv). rewrite set_ctrl_index2.
  rewrite nth_insert_lt by (rewrite length_insert; lia).
  rewrite nth_insert_lt by lia. reflexivity.
Qed.

Variable v : Value.t.
Variable s : nat.
Hypothesis Hs : (s < buckets t)%nat.
Hypothesis Hc : nth s (ctrl t) EMPTY = EMPTY.
Hypothesis Hslot : slots t !! s = Some None.
Hypothesis Hreach : reach t (make_hash h v) s.
Hypothesis Hg : (1 <= growth_left t)%nat.

Lemma insert_in_slot_inv :
  let t' := insert_in_slot t (make_hash h v) s v in
  table_inv h t' /\ bucket_mask t' = bucket_mask t /\
  Permutation (stored (slots t')) (v :: stored (slots t)) /\
  growth_left t' = (growth_left t - 1)%nat /\ items t' = S (items t).
Proof.
  intros t'.
  destruct (index2_facts s Hs) as (Hi2 & Hf2 & Hm2 & Hu2).
  pose proof (inv_ctrl_len _ _ Hinv) as Hcl. pose proof (inv_slots_len _ _ Hinv) as Hsl.
  assert (Hnth : forall j, nth j (ctrl t') EMPTY =
            if Nat.eqb j (index2 t s) then h2 (make_hash h v)
            else if Nat.eqb j s then h2 (make_hash h v) else nth j (ctrl t) EMPTY)
    by (intros j; apply nth_set_ctrl; exact Hs).
  assert (Hlen : length (ctrl t') = length (ctrl t))
    by (simpl; rewrite set_ctrl_index2, !length_insert; reflexivity).
  assert (Hpt : forall j, nth j (ctrl t') EMPTY = EMPTY -> nth j (ctrl t) EMPTY = EMPTY).
  { intros j. rewrite Hnth. destruct (Nat.eqb j (index2 t s)); [intros E; exfalso; exact (h2_not_empty _ E)|].
    destruct (Nat.eqb j s); [intros E; exfalso; exact (h2_not_empty _ E)|auto]. }
  assert (Hmono : forall hash i, reach t hash i -> reach t' hash i).
  { intros hash i. apply reach_mono; [reflexivity|]. intros p. apply group_mono; assumption. }
  assert (Hperm : Permutation (stored (slots t')) (v :: stored (slots t)))
    by (apply stored_insert; exact Hslot).
  assert (Hbk : buckets t' = buckets t) by reflexivity.
  assert (Hpos : (0 < buckets t)%nat) by (pose proof (buckets_pos h t Hinv); lia).
  assert (Hgr : growth_left t' = (growth_left t - 1)%nat).
  { unfold t', insert_in_slot. cbn [growth_left]. rewrite Hc. reflexivity. }
  assert (Hit : items t' = S (items t)) by reflexivity.
  split; [|split; [reflexivity|split; [exact Hperm|split; [exact Hgr|exact Hit]]]].
  constructor.
  - exact (inv_pow _ _ Hinv).
  - rewrite Hlen. exact Hcl.
  - simpl. rewrite length_insert. exact Hsl.
  - intros j Hj. change (filler t' j) with (filler t j). rewrite Hbk in Hj |- *.
    rewrite (Hnth j), (Hnth (j mod buckets t)%nat).
    pose proof (inv_mirror _ _ Hinv j Hj) as Hmj.
    destruct (filler t j) eqn:Ef.
    + assert (j <> index2 t s) by (intros ->; congruence).
      assert (j <> s) by (unfold filler in Ef; apply andb_true_iff in Ef as [E1 _];
                          apply Nat.leb_le in E1; lia).
      rewrite (proj2 (Nat.eqb_neq _ _)), (proj2 (Nat.eqb_neq _ _)) by assumption. exact Hmj.
    + assert (Hjm : (j mod buckets t < buckets t)%nat) by (apply Nat.mod_upper_bound; lia).
      destruct (Nat.eq_dec (j mod buckets t)%nat s) as [E|E].
      * rewrite E, Nat.eqb_refl.
        destruct (Hu2 j Hj Ef E) as [-> | ->]; rewrite ?Nat.eqb_refl;
          destruct (Nat.eqb s (index2 t s)); reflexivity.
      * assert (j <> s) by (intros ->; rewrite Nat.mod_small in E by lia; contradiction).
        assert (j <> index2 t s) by (intros ->; contradiction).
        assert ((j mod buckets t)%nat <> index2 t s).
        { intros E'. apply E. rewrite <- Hm2, <- E'. symmetry. apply Nat.mod_small. exact Hjm. }
        rewrite !(proj2 (Nat.eqb_neq _ _)) by assumption. exact Hmj.
  - intros i Hi. rewrite Hbk in Hi. rewrite (Hnth i).
    destruct (Nat.eq_dec i s) as [->|Hne].
    + right. exists v. simpl. rewrite list_lookup_insert_eq by lia.
      split; [reflexivity|]. split; [destruct (Nat.eqb s (index2 t s)); rewrite ?Nat.eqb_refl; reflexivity|].
      apply Hmono. exact Hreach.
    + assert (i <> index2 t s).
      { intros E. apply Hne. rewrite <- Hm2, <- E. symmetry. apply Nat.mod_small. exact Hi. }
      rewrite !(proj2 (Nat.eqb_neq _ _)) by assumption.
      simpl. rewrite list_lookup_insert_ne by lia.
      destruct (inv_bucket _ _ Hinv i Hi) as [Hl|(y & Hy & Hy2 & Hry)]; [left; exact Hl|].
      right. exists y. split; [exact Hy|]. split; [exact Hy2|]. apply Hmono. exact Hry.
  - change (items t') with (S (items t)). rewrite (Permutation_length Hperm). simpl.
    f_equal. exact (inv_items _ _ Hinv).
  - rewrite Hgr, Hit. change (bucket_mask t') with (bucket_mask t).
    pose proof (inv_growth _ _ Hinv). lia.
Qed.

End InsertSlot.

Lemma reserve_id (h : Hasher) (t : RawTable) : (1 <= growth_left t)%nat -> reserve h t 1 = t.
Proof. intros Hg. unfold reserve. replace (growth_left t <? 1)%nat with false; [reflexivity|]. symmetry. apply Nat.ltb_ge. exact Hg. Qed.

Lemma insert_step (h : Hasher) (t : RawTable) (v : Value.t) :
  table_inv h t -> (1 <= growth_left t)%nat ->
  let t' := hashset_insert h t v in
  table_inv h t' /\ bucket_mask t' = bucket_mask t /\
  ((t' = t /\ exists i y, slots t !! i = Some (Some y) /\ value_eq v y = true /\
                           h2 (make_hash h y) = h2 (make_hash h v)) \/
   (Permutation (stored (slots t')) (v :: stored (slots t)) /\
    growth_left t' = (growth_left t - 1)%nat /\ items t' = S (items t) /\
    (forall i y, slots t !! i = Some (Some y) -> value_eq v y = true ->
       nth i (ctrl t) EMPTY = h2 (make_hash h v) -> reach t (make_hash h v) i -> False))).
Proof.
  intros Hinv Hg t'. unfold t', hashset_insert. rewrite (reserve_id h t Hg).
  change (find_or_find_insert_slot_inner (buckets t) t v (h2 (make_hash h v))
            (probe_start t (make_hash h v)) 0 None) with (search t v (make_hash h v)).
  destruct (search t v (make_hash h v)) as [[i|s]|] eqn:Hs.
  - split; [exact Hinv|]. split; [reflexivity|]. left. split; [reflexivity|].
    destruct (search_found h t Hinv v _ Hg i Hs) as (y & Hy & Heq & Ht).
    exists i, y. auto.
  - destruct (search_slot h t Hinv v _ Hg s Hs) as (Hs1 & Hs2 & Hs3 & Hs4).
    destruct (insert_in_slot_inv h t Hinv v s Hs1 Hs2 Hs3 Hs4 Hg) as (I1 & I2 & I3 & I4 & I5).
    split; [exact I1|]. split; [exact I2|]. right. split; [exact I3|]. split; [exact I4|].
    split; [exact I5|]. intros i y Hy Heq Hci Hr.
    destruct (search_hit h t Hinv v _ Hg i y Hy Heq Hci Hr) as [i' Hi']. congruence.
  - exfalso. pose proof (search_result h t Hinv v (make_hash h v) Hg) as R.
    unfold search in R, Hs. rewrite Hs in R. exact R.
Qed.

Lemma value_eq_sym (a b : Value.t) : value_eq a b = value_eq b a.
Proof.
  assert (Hnum : forall a b, value_eq (Value.Number a) (Value.Number b) = true <->
      value_eq (Value.Number b) (Value.Number a) = true).
  { intros x y. rewrite !value_eq_number. intuition congruence. }
  destruct a as [a|s|x|], b as [b|s'|y|]; try reflexivity.
  - apply eq_true_iff_eq. apply Hnum.
  - apply eq_true_iff_eq. simpl. rewrite !rstring_eqb_eq. split; congruence.
  - simpl. destruct x, y; reflexivity.
Qed.

Lemma stored_in (l : list (option Value.t)) (y : Value.t) :
  In y (stored l) -> exists i, l !! i = Some (Some y).
Proof.
  induction l as [|o l IH]; simpl; [intros []|].
  destruct o as [x|]; simpl.
  - intros [->|Hy]; [exists 0%nat; reflexivity|].
    destruct (IH Hy) as [i Hi]. exists (S i). exact Hi.
  - intros Hy. destruct (IH Hy) as [i Hi]. exists (S i). exact Hi.
Qed.

Lemma stored_repeat_none (n : nat) : stored (repeat None n) = [].
Proof. induction n as [|n IH]; [reflexivity|exact IH]. Qed.

Lemma lookup_repeat_lt {A} (x : A) (n i : nat) : (i < n)%nat -> repeat x n !! i = Some x.
Proof.
  revert i. induction n as [|n IH]; intros [|i] Hi; simpl; try lia; [reflexivity|].
  apply IH. lia.
Qed.

Lemma capacity_to_buckets_spec (n : nat) : (1 <= n)%nat ->
  exists e, (2 <= e)%nat /\ capacity_to_buckets n = (2 ^ e)%nat /\
    (n <= bucket_mask_to_capacity (capacity_to_buckets n - 1))%nat.
Proof.
  intros Hn. unfold capacity_to_buckets.
  destruct (n <? 8)%nat eqn:E8; [destruct (n <? 4)%nat eqn:E4|].
  - exists 2%nat. apply Nat.ltb_lt in E4. split; [lia|]. split; [reflexivity|].
    cbn. lia.
  - exists 3%nat. apply Nat.ltb_lt in E8. split; [lia|]. split; [reflexivity|].
    cbn. lia.
  - apply Nat.ltb_ge in E8.
    set (a := (n * 8 / 7)%nat).
    assert (Ha : (9 <= a)%nat).
    { unfold a. apply Nat.div_le_lower_bound; lia. }
    destruct (Nat.log2_up_spec a ltac:(lia)) as [_ Hup].
    set (L := Nat.log2_up a) in *.
    assert (HL : (4 <= L)%nat).
    { destruct (Nat.le_gt_cases 4 L) as [|Hg]; [assumption|].
      assert (2 ^ L <= 2 ^ 3)%nat by (apply Nat.pow_le_mono_r; lia). simpl in *. lia. }
    exists L. split; [lia|]. split; [reflexivity|].
    assert (Hsplit : (2 ^ L = 8 * 2 ^ (L - 3))%nat).
    { replace L with (3 + (L - 3))%nat at 1 by lia. rewrite Nat.pow_add_r. reflexivity. }
    assert (HL8 : (16 <= 2 ^ L)%nat).
    { change 16%nat with (2 ^ 4)%nat. apply Nat.pow_le_mono_r; lia. }
    unfold bucket_mask_to_capacity.
    replace (2 ^ L - 1 <? 8)%nat with false by (symmetry; apply Nat.ltb_ge; lia).
    replace (2 ^ L - 1 + 1)%nat with (8 * 2 ^ (L - 3))%nat by lia.
    rewrite (Nat.mul_comm 8 (2 ^ (L - 3))), Nat.div_mul by lia.
    pose proof (Nat.div_mod_eq (n * 8) 7) as Hd. pose proof (Nat.mod_upper_bound (n * 8) 7 ltac:(lia)).
    fold a in Hd. lia.
Qed.

Lemma reserve_new (h : Hasher) (n : nat) : (1 <= n)%nat ->
  reserve h raw_new n =
  let b := capacity_to_buckets n in
  {| bucket_mask := (b - 1)%nat; ctrl := repeat EMPTY (b + WIDTH); slots := repeat None b;
     growth_left := bucket_mask_to_capacity (b - 1); items := 0 |}.
Proof.
  intros Hn. unfold reserve. cbn [growth_left raw_new].
  replace (0 <? n)%nat with true by (symmetry; apply Nat.ltb_lt; lia).
  unfold reserve_rehash. cbn [items raw_new bucket_mask].
  change (bucket_mask_to_capacity 0) with 0%nat.
  replace (0 + n <=? 0 / 2)%nat with false by (symmetry; apply Nat.leb_gt; simpl; lia).
  replace (Nat.max (0 + n) 1) with n by lia.
  unfold resize, with_capacity.
  replace (n =? 0)%nat with false by (symmetry; apply Nat.eqb_neq; lia).
  cbn -[capacity_to_buckets bucket_mask_to_capacity Nat.sub repeat].
  rewrite Nat.sub_0_r. reflexivity.
Qed.

Lemma reserve_new_inv (h : Hasher) (n : nat) : (1 <= n)%nat ->
  let t0 := reserve h raw_new n in
  table_inv h t0 /\ items t0 = 0%nat /\ (n <= growth_left t0)%nat /\ stored (slots t0) = [].
Proof.
  intros Hn t0. unfold t0. rewrite (reserve_new h n Hn). cbv zeta.
  destruct (capacity_to_buckets_spec n Hn) as (e & He & Hb & Hcap).
  set (b := capacity_to_buckets n) in *.
  assert (Hbk : buckets {| bucket_mask := (b - 1)%nat; ctrl := repeat EMPTY (b + WIDTH);
                  slots := repeat None b; growth_left := bucket_mask_to_capacity (b - 1);
                  items := 0 |} = b).
  { unfold buckets. cbn [bucket_mask]. assert (1 <= 2 ^ e)%nat by (apply Nat.le_succ_l, Nat.neq_0_lt_0, Nat.pow_nonzero; lia). lia. }
  split; [|split; [reflexivity|split; [exact Hcap|apply stored_repeat_none]]].
  constructor; rewrite ?Hbk; cbn [ctrl slots items growth_left bucket_mask].
  - exists e. split; [exact He|exact Hb].
  - apply repeat_length.
  - apply repeat_length.
  - intros j Hj. rewrite !nth_repeat. destruct (filler _ j); reflexivity.
  - intros i Hi. left. split; [apply nth_repeat|].
    apply lookup_repeat_lt. exact Hi.
  - rewrite stored_repeat_none. reflexivity.
  - lia.
Qed.

Lemma hashset_fold_inv (h : Hasher) (vs : list Value.t) : forall t,
  table_inv h t -> (length vs <= growth_left t)%nat ->
  let t' := fold_left (hashset_insert h) vs t in
  table_inv h t' /\ (items t <= items t' <= items t + length vs)%nat /\
  (vs <> [] -> (1 <= items t')%nat).
Proof.
  induction vs as [|v vs IH]; intros t Hinv Hg; cbv zeta; cbn [fold_left].
  - split; [exact Hinv|]. split; [lia|]. intros []; reflexivity.
  - simpl in Hg.
    destruct (insert_step h t v Hinv ltac:(lia)) as (I1 & _ & Hc).
    set (t1 := hashset_insert h t v) in *.
    assert (Hstep : (items t <= items t1 <= S (items t))%nat /\ (1 <= items t1)%nat /\
                    (length vs <= growth_left t1)%nat).
    { destruct Hc as [(-> & i & y & Hy & _)|(_ & Hg1 & Hi1 & _)].
      - split; [lia|]. split; [|lia].
        rewrite (inv_items _ _ Hinv). apply in_stored in Hy.
        destruct (stored (slots t)); [destruct Hy|simpl; lia].
      - rewrite Hg1, Hi1. lia. }
    destruct Hstep as (S1 & S2 & S3).
    destruct (IH t1 I1 S3) as (J1 & J2 & _).
    cbn [length]. split; [exact J1|]. split; [lia|]. intros _. lia.
Qed.

Lemma hashset_fold_classes (h : Hasher) (all : list Value.t) :
  ~ (In (Value.Number zero) all /\ In (Value.Number neg_zero) all) ->
  forall vs t D, table_inv h t -> (length vs <= growth_left t)%nat ->
  Permutation (stored (slots t)) D -> (forall y, In y D -> In y all) ->
  (forall v, In v vs -> In v all) ->
  Permutation (stored (slots (fold_left (hashset_insert h) vs t))) (fold_left distinct_step vs D).
Proof.
  intros Hz vs. induction vs as [|v vs IH]; intros t D Hinv Hg Hp HD Hvs; simpl; [exact Hp|].
  simpl in Hg.
  destruct (insert_step h t v Hinv ltac:(lia)) as (I1 & _ & Hc).
  unfold distinct_step at 2.
  destruct (existsb (fun y => value_eq y v) D) eqn:Hex.
  - apply existsb_exists in Hex as (y & HyD & Hyv).
    destruct Hc as [(-> & _)|(_ & _ & _ & Hno)].
    + apply IH; [exact Hinv|lia|exact Hp|exact HD|auto with datatypes].
    + exfalso.
      assert (Hys : In y (stored (slots t))) by (apply (Permutation_in _ (Permutation_sym Hp)); exact HyD).
      destruct (stored_in _ _ Hys) as [i Hi].
      assert (Hib : (i < buckets t)%nat).
      { rewrite <- (inv_slots_len _ _ Hinv). apply lookup_lt_Some in Hi. exact Hi. }
      destruct (inv_bucket _ _ Hinv i Hib) as [[_ Hn]|(y' & Hy' & Hc' & Hr')]; [congruence|].
      rewrite Hi in Hy'. injection Hy' as <-.
      assert (Hm : make_hash h y = make_hash h v).
      { unfold make_hash, hash_value.
        destruct (value_hash_cases y v Hyv) as [E|[[-> ->]|[-> ->]]]; [rewrite E; reflexivity| |];
          exfalso; apply Hz; split; auto with datatypes. }
      rewrite Hm in Hc', Hr'.
      apply (Hno i y Hi); [rewrite value_eq_sym; exact Hyv|exact Hc'|exact Hr'].
  - destruct Hc as [(-> & i & y & Hy & Hvy & _)|(Hp1 & Hg1 & _ & _)].
    + exfalso. apply in_stored in Hy. apply (Permutation_in _ Hp) in Hy.
      assert (Hex' : existsb (fun y => value_eq y v) D = true).
      { apply existsb_exists. exists y. split; [exact Hy|]. rewrite value_eq_sym. exact Hvy. }
      congruence.
    + apply IH.
      * exact I1.
      * lia.
      * rewrite Hp1. rewrite Hp. apply Permutation_cons_append.
      * intros y Hy. apply in_app_or in Hy as [Hy|[<-|[]]]; auto with datatypes.
      * auto with datatypes.
Qed.

Lemma collect_items (h : Hasher) (vs : list Value.t) :
  items (hashset_collect h vs) = match vs with [] => 0%nat | _ => items (fold_left (hashset_insert h) vs (reserve h raw_new (length vs))) end.
Proof. destruct vs; reflexivity. Qed.

Lemma collect_grow (h : Hasher) (v : Value.t) (vs' : list Value.t) :
  let vs := v :: vs' in
  let t0 := reserve h raw_new (length vs) in
  hashset_collect h vs = fold_left (hashset_insert h) vs t0 /\
  table_inv h t0 /\ items t0 = 0%nat /\ (length vs <= growth_left t0)%nat /\ stored (slots t0) = [].
Proof.
  cbv zeta. destruct (reserve_new_inv h (length (v :: vs')) ltac:(cbn [length]; lia))
    as (I1 & I2 & I3 & I4).
  split; [reflexivity|]. tauto.
Qed.

Lemma collect_classes (h : Hasher) (vs : list Value.t) :
  ~ (In (Value.Number zero) vs /\ In (Value.Number neg_zero) vs) ->
  items (hashset_collect h vs) = length (distinct_values vs).
Proof.
  intros Hz. destruct vs as [|v vs']; [reflexivity|].
  destruct (collect_grow h v vs') as (E & I1 & _ & I3 & I4). rewrite E.
  set (vs := v :: vs') in *.
  destruct (hashset_fold_inv h vs _ I1 I3) as (J1 & _).
  rewrite (inv_items _ _ J1).
  apply Permutation_length.
  apply (hashset_fold_classes h vs Hz); [exact I1|exact I3|rewrite I4; reflexivity|intros y []|auto].
Qed.

(** C7 (failing input): on [[NaN, NaN, +inf, -inf]] [distinctcount] is 3
    whatever the hasher.  On [[0.0, -0.0]], one value under [value_eq], the
    set keeps a single entry exactly when the 7-bit tags [h2] of the two
    hashes coincide, since only then does the probe call [eq]; the hashes
    differ (see [value_eq_hash_signed_zero]), and with std's SipHash-1-3
    (here with keys [(0, 0)]) the tags differ and the count is 2, while
    with FNV-1a the tags collide and the count is 1. *)
Theorem distinctcount_signed_zeros :
  (forall h : Hasher, distinctcount h special_table (lit "special"%string) = Some 3%nat) /\
  value_eq (Value.Number zero) (Value.Number neg_zero) = true /\
  (forall h : Hasher, distinctcount h signed_zero_table (lit "zeros"%string) =
     Some (if h2 (make_hash h (Value.Number zero)) =? h2 (make_hash h (Value.Number neg_zero))
           then 1%nat else 2%nat)) /\
  distinctcount (sip13 0 0) signed_zero_table (lit "zeros"%string) = Some 2%nat /\
  distinctcount fnv1a signed_zero_table (lit "zeros"%string) = Some 1%nat.
Proof.
  split; [|split; [vm_compute; reflexivity|split; [|split; vm_compute; reflexivity]]].
  - intros h. unfold distinctcount.
    replace (get_column special_table (lit "special"%string)) with
      (Some [Value.Number nan; Value.Number nan; Value.Number infinity;
             Value.Number neg_infinity]) by (vm_compute; reflexivity).
    simpl option_map. f_equal. rewrite collect_classes; [vm_compute; reflexivity|].
    intros [H _]. vm_compute in H.
    repeat destruct H as [H|H]; try discriminate; try contradiction;
      injection H as H; apply (f_equal (fun x => PrimFloat.eqb x zero)) in H;
      vm_compute in H; discriminate.
  - intros h. unfold distinctcount.
    replace (get_column signed_zero_table (lit "zeros"%string)) with
      (Some [Value.Number zero; Value.Number neg_zero]) by (vm_compute; reflexivity).
    simpl option_map. f_equal.
    unfold hashset_collect. cbn [items raw_new length Nat.eqb].
    destruct (reserve_new_inv h 2 ltac:(lia)) as (I1 & I2 & I3 & I4).
    assert (Hb0 : buckets (reserve h raw_new 2) = 4%nat)
      by (rewrite (reserve_new h 2 ltac:(lia)); reflexivity).
    set (t0 := reserve h raw_new 2) in *. cbn [fold_left].
    destruct (insert_step h t0 (Value.Number zero) I1 ltac:(lia)) as (K1 & M1 & C1).
    set (t1 := hashset_insert h t0 (Value.Number zero)) in *.
    destruct C1 as [(_ & i & y & Hy & _)|(P1 & G1 & N1 & _)].
    { exfalso. apply in_stored in Hy. rewrite I4 in Hy. destruct Hy. }
    rewrite I4 in P1. rewrite I2 in N1.
    assert (Hb1 : buckets t1 = 4%nat) by (unfold buckets in *; rewrite M1; exact Hb0).
    destruct (insert_step h t1 (Value.Number neg_zero) K1 ltac:(lia)) as (K2 & _ & C2).
    set (t2 := hashset_insert h t1 (Value.Number neg_zero)) in *.
    assert (Hy0 : In (Value.Number zero) (stored (slots t1))) by (rewrite P1; left; reflexivity).
    destruct (stored_in _ _ Hy0) as [i0 Hi0].
    assert (Hin : forall y, In y (stored (slots t1)) -> y = Value.Number zero).
    { intros y Hy. rewrite P1 in Hy. destruct Hy as [<-|[]]. reflexivity. }
    destruct C2 as [(-> & i & y & Hy & _ & Ht)|(_ & _ & N2 & Hno)].
    + apply in_stored, Hin in Hy. subst y. rewrite Ht, Z.eqb_refl. exact N1.
    + destruct (h2 (make_hash h (Value.Number zero)) =? h2 (make_hash h (Value.Number neg_zero))) eqn:E.
      * exfalso. apply Z.eqb_eq in E.
        assert (Hib : (i0 < buckets t1)%nat).
        { rewrite <- (inv_slots_len _ _ K1). apply lookup_lt_Some in Hi0. exact Hi0. }
        destruct (inv_bucket _ _ K1 i0 Hib) as [[_ Hn]|(y' & Hy' & Hc' & _)]; [congruence|].
        rewrite Hi0 in Hy'. injection Hy' as <-.
        apply (Hno i0 (Value.Number zero) Hi0); [vm_compute; reflexivity|congruence|].
        apply (small_reach h t1 K1); lia.
      * rewrite N2, N1. reflexivity.
Qed.

(** X21: on an existing column, [distinctcount] is at most the column's
    length, and zero exactly when the column is empty. *)
Theorem distinctcount_bounds (h : Hasher) (t : Table) (col : rstring) (vs : list Value.t) :
  get_column t col = Some vs ->
  exists k, distinctcount h t col = Some k /\ (k <= length vs)%nat /\ (k = 0%nat <-> vs = []).
Proof.
  intros Hc. unfold distinctcount. rewrite Hc. simpl. eexists. split; [reflexivity|].
  destruct vs as [|v vs']; [split; [cbn; lia|tauto]|].
  destruct (collect_grow h v vs') as (E & I1 & I2 & I3 & _). rewrite E.
  set (vs := v :: vs') in *.
  destruct (hashset_fold_inv h vs _ I1 I3) as (_ & J2 & J3).
  rewrite I2 in J2. split; [lia|]. split; [|discriminate].
  intros E0. rewrite E0 in J3. specialize (J3 ltac:(discriminate)). lia.
Qed.

Lemma distinctcount_bounds_witness :
  exists k, distinctcount fnv1a mixed_table (lit "C"%string) = Some k /\
    (k <= length mixed_column)%nat /\ (k = 0%nat <-> mixed_column = []).
Proof. apply distinctcount_bounds. vm_compute. reflexivity. Defined.

(** X22: on a column that does not hold both [Number 0.0] and [Number -0.0],
    [distinctcount] counts the [value_eq] classes of the column, for every
    hasher. *)
Theorem distinctcount_classes (h : Hasher) (t : Table) (col : rstring) (vs : list Value.t) :
  get_column t col = Some vs ->
  ~ (In (Value.Number zero) vs /\ In (Value.Number neg_zero) vs) ->
  distinctcount h t col = Some (length (distinct_values vs)).
Proof.
  intros Hc Hz. unfold distinctcount. rewrite Hc. simpl. f_equal.
  apply collect_classes. exact Hz.
Qed.

Lemma distinctcount_classes_witness :
  distinctcount fnv1a mixed_table (lit "C"%string) = Some (length (distinct_values mixed_column)).
Proof.
  apply (distinctcount_classes fnv1a mixed_table (lit "C"%string) mixed_column).
  - vm_compute. reflexivity.
  - intros [H _]. vm_compute in H.
    repeat destruct H as [H|H]; try discriminate; try contradiction;
      injection H as H; apply (f_equal (fun x => PrimFloat.eqb x zero)) in H;
      vm_compute in H; discriminate.
Defined.

(** ** [Display for Table] *)

Lemma utf8_encode_nonempty (c : rchar) : (1 <= length (utf8_encode c))%nat.
Proof.
  unfold utf8_encode. destruct (Z.of_N c <? 128); [simpl; lia|].
  destruct (Z.of_N c <? 2048); [simpl; lia|]. destruct (Z.of_N c <? 65536); simpl; lia.
Qed.

Lemma str_len_ge (s : rstring) : (length s <= str_len s)%nat.
Proof.
  unfold str_len. induction s as [|c s IH]; simpl; [lia|].
  rewrite length_app. pose proof (utf8_encode_nonempty c). lia.
Qed.

Lemma pad_right_length (s : rstring) (w : nat) :
  (length s <= w)%nat -> length (pad_right s w) = w.
Proof. intros H. unfold pad_right. rewrite length_app, repeat_length. lia. Qed.

Lemma pad_left_length (s : rstring) (w : nat) :
  (length s <= w)%nat -> length (pad_left s w) = w.
Proof. intros H. unfold pad_left. rewrite length_app, repeat_length. lia. Qed.

Lemma insert_sorted_perm (x : rstring) (l : list rstring) :
  length (insert_sorted x l) = S (length l) /\ (forall y, In y (insert_sorted x l) <-> x = y \/ In y l).
Proof.
  induction l as [|z l [IH1 IH2]]; simpl.
  - split; [reflexivity|]. intros y. split; [intros [H|[]]; auto|intros [H|[]]; auto].
  - destruct (rstring_ltb z x); simpl.
    + split; [rewrite IH1; reflexivity|]. intros y. simpl. rewrite IH2. tauto.
    + split; [reflexivity|]. intros y. simpl. tauto.
Qed.

Lemma sort_names_perm (l : list rstring) :
  length (sort_names l) = length l /\ (forall y, In y (sort_names l) <-> In y l).
Proof.
  unfold sort_names. induction l as [|x l [IH1 IH2]]; simpl; [split; [reflexivity|tauto]|].
  destruct (insert_sorted_perm x (fold_right insert_sorted [] l)) as [H1 H2].
  split; [rewrite H1, IH1; reflexivity|]. intros y. rewrite H2, IH2. tauto.
Qed.

Lemma fold_max_ge (g : Value.t -> nat) (vs : list Value.t) (init : nat) :
  (init <= fold_left (fun current_max value => Nat.max current_max (g value)) vs init)%nat /\
  forall v, In v vs -> (g v <= fold_left (fun current_max value => Nat.max current_max (g value)) vs init)%nat.
Proof.
  revert init. induction vs as [|v vs IH]; intros init; simpl; [split; [lia|tauto]|].
  destruct (IH (Nat.max init (g v))) as [H1 H2]. split; [lia|].
  intros w [<-|Hw]; [lia|]. apply H2, Hw.
Qed.

Section Layout.

Variable format_2 : float -> rstring.
Variable first_values : gmap rstring (list Value.t) -> option (list Value.t).

Lemma width_of_column (t : Table) (name : rstring) (vs : list Value.t) :
  columns t !! name = Some vs ->
  (str_len name <= width_of (column_widths format_2 t) name)%nat /\
  forall v, In v vs -> (value_width format_2 v <= width_of (column_widths format_2 t) name)%nat.
Proof.
  intros Hc. unfold width_of, column_widths. rewrite map_lookup_imap, Hc. simpl.
  apply fold_max_ge.
Qed.

Lemma cell_length (w : nat) (v : Value.t) :
  (value_width format_2 v <= w)%nat -> length (cell format_2 w v) = (w + 2)%nat.
Proof.
  intros H. unfold cell. destruct v as [n|s|b|]; simpl in H |- *; rewrite length_app; simpl.
  - rewrite pad_left_length; [lia|]. pose proof (str_len_ge (format_2 n)). lia.
  - rewrite pad_right_length; [lia|]. pose proof (str_len_ge s). lia.
  - rewrite pad_left_length; [lia|]. destruct b; simpl in *; lia.
  - rewrite pad_left_length; simpl; lia.
Qed.

Lemma enum_length_from (P : nat * rstring -> rstring) (g : rstring -> nat) (names : list rstring) (m : nat) :
  (0 < m)%nat ->
  (forall i name, (0 < i)%nat -> In name names -> length (P (i, name)) = S (g name)) ->
  length (concat (map P (combine (seq m (length names)) names))) = (list_sum (map g names) + length names)%nat.
Proof.
  revert m. induction names as [|x names IH]; intros m Hm HP; [reflexivity|].
  cbn [length]. rewrite <- cons_seq. cbn [combine map concat list_sum].
  rewrite length_app, HP by (simpl; auto). rewrite IH by (auto with arith || (intros; apply HP; simpl; auto)).
  simpl list_sum. lia.
Qed.

Lemma enum_line_length (P : nat * rstring -> rstring) (g : rstring -> nat) (x : rstring) (xs : list rstring) :
  (forall i name, In name (x :: xs) -> length (P (i, name)) = ((if (0 <? i)%nat then 1 else 0) + g name)%nat) ->
  length (concat (map P (combine (seq 0 (length (x :: xs))) (x :: xs)))) =
    (g x + list_sum (map g xs) + length xs)%nat.
Proof.
  intros HP. cbn [length]. rewrite <- cons_seq. cbn [combine map concat].
  rewrite length_app, HP by (simpl; auto).
  rewrite (enum_length_from P g xs 1); [simpl; lia|lia|].
  intros i name Hi Hn. rewrite HP by (simpl; auto).
  replace (0 <? i)%nat with true by (symmetry; apply Nat.ltb_lt; exact Hi). lia.
Qed.

Lemma col_sep_length (i : nat) : length (col_sep i) = if (0 <? i)%nat then 1%nat else 0%nat.
Proof. unfold col_sep. destruct (0 <? i)%nat; reflexivity. Qed.

Lemma names_keys (m : gmap rstring (list Value.t)) (name : rstring) :
  In name (sort_names (map fst (map_to_list m))) -> exists vs, m !! name = Some vs.
Proof.
  intros H. apply (proj1 (proj2 (sort_names_perm _) name)) in H.
  apply in_map_iff in H as [[n vs] [Hn Hin]]. simpl in Hn. subst n.
  exists vs. apply elem_of_map_to_list, list_elem_of_In, Hin.
Qed.

(** X23: [Display for Table] panics exactly on a table without columns;
    otherwise the output is the top rule, the header line, the separator
    rule, one line per row of the first column and the bottom rule, where each
    rule has [k + 2] chars and a newline, the header line is [k] chars and a
    newline, every row line ends in a newline, and every row line has [k]
    chars and a newline when each column has at least [row_count] entries. *)
Theorem table_fmt_layout (t : Table) :
  (table_fmt format_2 first_values t = None <-> columns t = ∅) /\
  (columns t <> ∅ ->
   exists k header rows,
     table_fmt format_2 first_values t =
       Some (border 9484%N 9488%N k ++ header ++ border 9500%N 9508%N k ++ concat rows ++
             border 9492%N 9496%N k) /\
     length header = S k /\
     (exists hl, header = hl ++ [10%N] /\ length hl = k) /\
     length rows = row_count first_values t /\
     Forall (fun r => exists rl, r = rl ++ [10%N]) rows /\
     ((forall name vs, columns t !! name = Some vs -> (row_count first_values t <= length vs)%nat) ->
      Forall (fun r => length r = S k) rows)).
Proof.
  unfold table_fmt.
  pose proof (names_keys (columns t)) as Hkeys.
  destruct (sort_names_perm (map fst (map_to_list (columns t)))) as [Hlen _].
  rewrite length_map in Hlen.
  destruct (sort_names (map fst (map_to_list (columns t)))) as [|x xs] eqn:En.
  - (* no column *)
    assert (Hm : columns t = ∅).
    { apply map_to_list_empty_iff. destruct (map_to_list (columns t)); [reflexivity|discriminate]. }
    split; [split; [intros _; exact Hm|reflexivity]|]. intros H. contradiction.
  - set (widths := column_widths format_2 t).
    set (k := (list_sum (map (fun name => width_of widths name + 2) (x :: xs)) + length (x :: xs) - 1)%nat).
    assert (Hrule : rule_width widths (x :: xs) = Some k).
    { unfold rule_width.
      destruct (Nat.eqb_spec (list_sum (map (fun name => width_of widths name + 2) (x :: xs))
                              + length (x :: xs))%nat 0%nat) as [H|H]; [exfalso; simpl in H; lia|].
      reflexivity. }
    rewrite Hrule.
    assert (Hm : columns t <> ∅).
    { intros Hm. rewrite Hm, map_to_list_empty in Hlen. discriminate. }
    split; [split; [discriminate|intros H; contradiction]|]. intros _.
    assert (Hk : k = (width_of widths x + 2 + list_sum (map (fun name => width_of widths name + 2) xs)
                      + length xs)%nat).
    { unfold k. simpl. lia. }
    assert (Hhead : length (header_line widths (x :: xs)) = S k).
    { unfold header_line. rewrite length_app.
      rewrite (enum_line_length _ (fun name => width_of widths name + 2)%nat).
      - simpl length. lia.
      - intros i name Hin. destruct (Hkeys name Hin) as [vs Hvs].
        destruct (width_of_column t name vs Hvs) as [Hw _]. pose proof (str_len_ge name).
        rewrite !length_app, col_sep_length, pad_right_length by (fold widths in Hw; lia). simpl. lia. }
    eexists k, _, _. split; [reflexivity|]. split; [exact Hhead|]. split; [|split; [|split]].
    + assert (Hhl : exists hl, header_line widths (x :: xs) = hl ++ [10%N])
        by (eexists; unfold header_line; reflexivity).
      destruct Hhl as [hl Hhl]. exists hl. split; [exact Hhl|].
      rewrite Hhl, length_app in Hhead. simpl in Hhead. lia.
    + rewrite length_map, length_seq. reflexivity.
    + apply List.Forall_forall. intros r Hr.
      apply in_map_iff in Hr as [row [<- _]].
      eexists. unfold row_line. reflexivity.
    + intros Hrows. apply List.Forall_forall. intros r Hr.
      apply in_map_iff in Hr as [row [<- Hrow]]. apply in_seq in Hrow.
      unfold row_line. rewrite length_app.
      rewrite (enum_line_length _ (fun name => width_of widths name + 2)%nat).
      * simpl length. lia.
      * intros i name Hin. destruct (Hkeys name Hin) as [vs Hvs]. rewrite Hvs.
        specialize (Hrows name vs Hvs).
        destruct (lookup_lt_is_Some_2 vs row) as [v Hv]; [lia|]. rewrite Hv.
        destruct (width_of_column t name vs Hvs) as [_ Hw].
        rewrite length_app, col_sep_length, cell_length.
        -- lia.
        -- apply Hw. apply list_elem_of_In. eapply list_elem_of_lookup_2. exact Hv.
Qed.

End Layout.

(** [text_table] holds no number, so the [f64] formatter of this instance
    is never called. *)
Lemma table_fmt_layout_witness :
  table_fmt (fun _ : float => @nil rchar) first_in_map_order Table_new = None /\
  exists k header rows,
    table_fmt (fun _ : float => @nil rchar) first_in_map_order text_table =
      Some (border 9484%N 9488%N k ++ header ++ border 9500%N 9508%N k ++ concat rows ++
            border 9492%N 9496%N k) /\
    length header = S k /\ (exists hl, header = hl ++ [10%N] /\ length hl = k) /\
    Forall (fun r => exists rl, r = rl ++ [10%N]) rows /\ Forall (fun r => length r = S k) rows.
Proof.
  split.
  - apply (proj2 (proj1 (table_fmt_layout (fun _ : float => @nil rchar) first_in_map_order Table_new))).
    reflexivity.
  - destruct (proj2 (table_fmt_layout (fun _ : float => @nil rchar) first_in_map_order text_table))
      as (k & header & rows & H1 & H2 & H3 & _ & H5 & H6).
    + intros H. apply (f_equal (fun m => m !! lit "T"%string)) in H. vm_compute in H. discriminate.
    + exists k, header, rows. split; [exact H1|split; [exact H2|split; [exact H3|split; [exact H5|apply H6]]]].
      intros name vs Hvs. unfold text_table, add_column in Hvs. simpl in Hvs.
      apply lookup_insert_Some in Hvs as [[_ <-]|[_ Hvs]].
      * vm_compute. lia.
      * rewrite lookup_empty in Hvs. discriminate.
Defined.
